(** * pasta: format-preserving Python refactoring

    A shallow embedding of three parts of the library:

    - [pasta/augment/import_utils.py]: [split_import], over a store of
      Python objects (module [ImportUtils]);
    - [pasta/base/scope.py]: the scope analysis, over syntax trees whose
      nodes carry their object identity (module [Scope]);
    - [pasta/base/annotate.py]: the annotator, over the same trees and a
      token stream (module [Annotate]).

    Python exceptions are values of [exn]; code that can raise runs in a
    state-and-exception monad in which a raise keeps the state reached so
    far, as a Python exception leaves every mutation already made. *)

From Stdlib Require Import ZArith Ascii.
From stdpp Require Import gmap strings list.

Open Scope string_scope.
Open Scope list_scope.

(** ** Exceptions and the state-and-exception monad *)

Inductive exn :=
| KeyError
| AttributeError
| TypeError
| ValueError
| RecursionError
| NotImplementedError
| InvalidAstError          (* pasta.augment.errors.InvalidAstError *)
| ExhaustedStreamError     (* the token stream has no token left *)
| LexicalMismatchError.    (* no token of the requested kind is left *)

Inductive result (A : Type) :=
| Ok (a : A)
| Raise (e : exn).
Arguments Ok {A} a.
Arguments Raise {A} e.

Definition M (S A : Type) : Type := S → result A * S.

Definition ret {S A} (a : A) : M S A := λ s, (Ok a, s).
Definition raise {S A} (e : exn) : M S A := λ s, (Raise e, s).
Definition bind {S A B} (m : M S A) (k : A → M S B) : M S B :=
  λ s, match m s with
       | (Ok a, s') => k a s'
       | (Raise e, s') => (Raise e, s')
       end.
Definition get {S} : M S S := λ s, (Ok s, s).
Definition put {S} (s : S) : M S unit := λ _, (Ok tt, s).
Definition modify {S} (f : S → S) : M S unit := λ s, (Ok tt, f s).

#[global] Instance M_ret {S} : MRet (M S) := λ A, @ret S A.
#[global] Instance M_bind {S} : MBind (M S) := λ A B k m, @bind S A B m k.

(** [for x in xs: body(x)] with the body a parameter, so that a visitor can
    recurse through it. *)
Section for_each.
Context {S A : Type} (body : A → M S unit).
Fixpoint for_each (xs : list A) : M S unit :=
  match xs with
  | [] => mret tt
  | x :: xs' => body x;; for_each xs'
  end.
End for_each.

#[global] Instance exn_eq_dec : EqDecision exn.
Proof. solve_decision. Defined.

(** [try: m finally: fin] and [try: m except e: pass]. *)
Definition try_finally {S A} (m : M S A) (fin : M S unit) : M S A :=
  λ s, let '(r, s') := m s in
       match fin s' with
       | (Ok _, s'') => (r, s'')
       | (Raise e, s'') => (Raise e, s'')
       end.

Definition try_except_pass {S} (e : exn) (m : M S unit) : M S unit :=
  λ s, match m s with
       | (Raise e', s') => if decide (e' = e) then (Ok tt, s') else (Raise e', s')
       | r => r
       end.

(** [s.split(sep)] for a one-character separator and [sep.join(parts)]. *)
Fixpoint split (sep : ascii) (s : string) : list string :=
  match s with
  | EmptyString => [EmptyString]
  | String c s' =>
      if decide (c = sep) then EmptyString :: split sep s'
      else match split sep s' with
           | p :: ps => String c p :: ps
           | [] => [String c EmptyString]
           end
  end.

Definition join (sep : string) (parts : list string) : string :=
  String.concat sep parts.

Lemma bind_Ok {S A B} (m : M S A) (k : A → M S B) s a s' :
  m s = (Ok a, s') → (m ≫= k) s = k a s'.
Proof. intros H. unfold mbind, M_bind, bind. by rewrite H. Qed.

Lemma bind_Raise {S A B} (m : M S A) (k : A → M S B) s e s' :
  m s = (Raise e, s') → (m ≫= k) s = (Raise e, s').
Proof. intros H. unfold mbind, M_bind, bind. by rewrite H. Qed.

(** ** Reasoning about monadic code *)

(** [returns m s Q]: from state [s], [m] returns normally, with a value and
    a state that satisfy [Q]. *)
Definition returns {S A} (m : M S A) (s : S) (Q : A → S → Prop) : Prop :=
  ∃ a s', m s = (Ok a, s') ∧ Q a s'.

Section returns.
Context {S : Type}.
Implicit Types s : S.

Lemma returns_ret {A} (a : A) s (Q : A → S → Prop) :
  Q a s → returns (mret a) s Q.
Proof. intros. by exists a, s. Qed.

Lemma returns_bind {A B} (m : M S A) (k : A → M S B) s (Q : B → S → Prop) :
  returns m s (λ a s', returns (k a) s' Q) → returns (m ≫= k) s Q.
Proof.
  intros (a & s' & Hm & b & s'' & Hk & HQ).
  exists b, s''. split; [|done]. by rewrite (bind_Ok _ _ _ _ _ Hm).
Qed.

Lemma returns_get s (Q : S → S → Prop) : Q s s → returns get s Q.
Proof. intros. by exists s, s. Qed.

Lemma returns_modify (f : S → S) s (Q : unit → S → Prop) :
  Q tt (f s) → returns (modify f) s Q.
Proof. intros. by exists tt, (f s). Qed.

Lemma returns_mono {A} (m : M S A) s (Q Q' : A → S → Prop) :
  returns m s Q → (∀ a s', Q a s' → Q' a s') → returns m s Q'.
Proof. intros (a & s' & Hm & HQ) HQQ. exists a, s'. auto. Qed.

Lemma returns_try_except_pass e (m : M S unit) s (Q : unit → S → Prop) :
  returns m s Q → returns (try_except_pass e m) s Q.
Proof.
  intros ([] & s' & Hm & HQ). exists tt, s'. split; [|done].
  unfold try_except_pass. by rewrite Hm.
Qed.

Lemma returns_try_finally {A} (m : M S A) fin s (Q : A → S → Prop) :
  returns m s (λ a s', returns fin s' (λ _ s'', Q a s'')) →
  returns (try_finally m fin) s Q.
Proof.
  intros (a & s' & Hm & [] & s'' & Hfin & HQ). exists a, s''. split; [|done].
  unfold try_finally. by rewrite Hm, Hfin.
Qed.

(** [preserves R m]: [m] always returns, in a state related by [R] to the
    one it started from. *)
Definition preserves {A} (R : relation S) (m : M S A) : Prop :=
  ∀ s, returns m s (λ _ s', R s s').

Context (R : relation S) `{!PreOrder R}.

Lemma preserves_ret {A} (a : A) : preserves R (mret a).
Proof. intros s. by apply returns_ret. Qed.

Lemma preserves_bind {A B} (m : M S A) (k : A → M S B) :
  preserves R m → (∀ a, preserves R (k a)) → preserves R (m ≫= k).
Proof.
  intros Hm Hk s. apply returns_bind.
  eapply returns_mono; [apply Hm|]. intros a s' Hs. simpl.
  eapply returns_mono; [apply Hk|]. intros b s'' Hs'. simpl in *. by transitivity s'.
Qed.

Lemma preserves_get : preserves R (@get S).
Proof. intros s. by apply returns_get. Qed.

Lemma preserves_modify (f : S → S) : (∀ s, R s (f s)) → preserves R (modify f).
Proof. intros Hf s. by apply returns_modify. Qed.

Lemma preserves_for_each {A} (body : A → M S unit) xs :
  Forall (λ x, preserves R (body x)) xs → preserves R (for_each body xs).
Proof.
  induction 1 as [|x xs Hx _ IH]; simpl.
  - apply preserves_ret.
  - apply preserves_bind; auto.
Qed.

Lemma preserves_try_except_pass e (m : M S unit) :
  preserves R m → preserves R (try_except_pass e m).
Proof. intros Hm s. apply returns_try_except_pass, Hm. Qed.

Lemma preserves_try_finally {A} (m : M S A) fin :
  preserves R m → preserves R fin → preserves R (try_finally m fin).
Proof.
  intros Hm Hfin s. apply returns_try_finally.
  eapply returns_mono; [apply Hm|]. intros a s' Hs. simpl.
  eapply returns_mono; [apply Hfin|]. intros b s'' Hs'. simpl in *. by transitivity s'.
Qed.

(** [establishes P m]: [m] always returns, in a state where [P] holds.
    When [R] keeps [P], code that preserves [R] can follow. *)
Definition establishes {A} (P : S → Prop) (m : M S A) : Prop :=
  ∀ s, returns m s (λ _ s', P s').

Definition stable (P : S → Prop) : Prop := ∀ s s', P s → R s s' → P s'.

Lemma establishes_bind_l {A B} P (m : M S A) (k : A → M S B) :
  stable P → establishes P m → (∀ a, preserves R (k a)) →
  establishes P (m ≫= k).
Proof.
  intros HP Hm Hk s. apply returns_bind.
  eapply returns_mono; [apply Hm|]. intros a s' Hs. simpl in *.
  eapply returns_mono; [apply Hk|]. intros b s'' Hs'. simpl in *. eauto.
Qed.

Lemma establishes_bind_r {A B} P (m : M S A) (k : A → M S B) :
  preserves R m → (∀ a, establishes P (k a)) → establishes P (m ≫= k).
Proof.
  intros Hm Hk s. apply returns_bind.
  eapply returns_mono; [apply Hm|]. intros a s' _. apply Hk.
Qed.

Lemma establishes_try_except_pass P e (m : M S unit) :
  establishes P m → establishes P (try_except_pass e m).
Proof. intros Hm s. apply returns_try_except_pass, Hm. Qed.

Lemma establishes_try_finally {A} P (m : M S A) fin :
  stable P → establishes P m → preserves R fin →
  establishes P (try_finally m fin).
Proof.
  intros HP Hm Hfin s. apply returns_try_finally.
  eapply returns_mono; [apply Hm|]. intros a s' Hs. simpl in *.
  eapply returns_mono; [apply Hfin|]. intros b s'' Hs'. simpl in *. eauto.
Qed.

Lemma for_each_establishes {A} (body : A → M S unit) (P : S → Prop) x xs :
  stable P →
  (∀ y, preserves R (body y)) →
  establishes P (body x) →
  x ∈ xs →
  establishes P (for_each body xs).
Proof.
  intros HP Hbody Hx. induction 1 as [x xs|x y xs _ IH]; intros s; simpl.
  - apply returns_bind. eapply returns_mono; [apply Hx|].
    intros [] s' Hs'. simpl in *.
    eapply returns_mono; [apply preserves_for_each|].
    + apply Forall_forall. auto.
    + simpl. eauto.
  - apply returns_bind. eapply returns_mono; [apply Hbody|].
    intros [] s' _. by apply IH.
Qed.
End returns.

(** [never_returns m]: from every state, [m] raises. *)
Definition never_returns {S A} (m : M S A) : Prop :=
  ∀ s, ∃ e s', m s = (Raise e, s').

Lemma never_returns_raise {S A} e : never_returns (@raise S A e).
Proof. intros s. by exists e, s. Qed.

Lemma never_returns_bind_l {S A B} (m : M S A) (k : A → M S B) :
  never_returns m → never_returns (m ≫= k).
Proof.
  intros Hm s. destruct (Hm s) as (e & s' & Hs). exists e, s'.
  by apply bind_Raise.
Qed.

Lemma never_returns_bind_r {S A B} (m : M S A) (k : A → M S B) :
  (∀ a, never_returns (k a)) → never_returns (m ≫= k).
Proof.
  intros Hk s. unfold mbind, M_bind, bind.
  destruct (m s) as [[a|e] s']; [apply Hk|by exists e, s'].
Qed.

Lemma never_returns_ret_bind {S A B} (a : A) (k : A → M S B) :
  never_returns (k a) → never_returns (mret a ≫= k).
Proof. intros Hk s. apply Hk. Qed.

Lemma never_returns_for_each {S A} (body : A → M S unit) x xs :
  x ∈ xs → never_returns (body x) → never_returns (for_each body xs).
Proof.
  intros Hin Hx. induction Hin as [x xs|x y xs _ IH]; simpl.
  - by apply never_returns_bind_l.
  - apply never_returns_bind_r. intros _. by apply IH.
Qed.


(** ** Strings *)

(** [split] and [join] are inverse, and both go through a separator that
    joins two strings. *)

Lemma append_cons x (a b : string) : String x a +:+ b = String x (a +:+ b).
Proof. reflexivity. Qed.

Lemma append_assoc (a b c : string) : (a +:+ b) +:+ c = a +:+ (b +:+ c).
Proof.
  induction a as [|x a IH]; [done|]. by rewrite !append_cons, IH.
Qed.

Lemma append_empty_r (a : string) : a +:+ "" = a.
Proof. induction a as [|x a IH]; [done|]. by rewrite append_cons, IH. Qed.

Lemma split_nonempty sep s : split sep s ≠ [].
Proof.
  destruct s as [|c s]; simpl; [done|].
  destruct (decide (c = sep)); [done|]. by destruct (split sep s).
Qed.

Lemma join_split sep s : join (String sep "") (split sep s) = s.
Proof.
  unfold join. induction s as [|c s IH]; simpl; [done|].
  pose proof (split_nonempty sep s) as Hne.
  destruct (split sep s) as [|p ps]; [done|].
  destruct (decide (c = sep)) as [->|_].
  - simpl in *. by rewrite IH.
  - simpl in *. destruct ps; simpl in *; by rewrite <- IH.
Qed.

Lemma join_app sep (xs ys : list string) :
  xs ≠ [] → ys ≠ [] →
  join sep (xs ++ ys) = join sep xs +:+ sep +:+ join sep ys.
Proof.
  intros Hxs Hys. induction xs as [|x xs IH]; [done|].
  destruct xs as [|x' xs].
  - simpl. by destruct ys.
  - change (join sep ((x :: x' :: xs) ++ ys))
      with (x +:+ sep +:+ join sep ((x' :: xs) ++ ys)).
    rewrite IH by done.
    change (join sep (x :: x' :: xs)) with (x +:+ sep +:+ join sep (x' :: xs)).
    by rewrite !append_assoc.
Qed.

(** Object identity: every Python object has a location. *)
Definition loc := nat.

(** ** import_utils.py *)

Module ImportUtils.

(** The value of an attribute of a node object. *)
Inductive pyval :=
| VNone
| VStr (s : string)
| VInt (z : Z)
| VRef (l : loc)             (* a child node *)
| VList (ls : list loc).     (* a list of child nodes *)

(** A node object: its class and its instance dictionary, in insertion
    order.  A list-valued attribute holds its list by value: two attributes
    never share one list object, as in every tree the parser or [deepcopy]
    builds. *)
Record obj := Obj { cls : string; attrs : list (string * pyval) }.

Abbreviation heap := (gmap loc obj).

Fixpoint assoc (a : string) (d : list (string * pyval)) : option pyval :=
  match d with
  | [] => None
  | (k, v) :: d' => if decide (k = a) then Some v else assoc a d'
  end.

Fixpoint assoc_set (a : string) (v : pyval) (d : list (string * pyval))
  : list (string * pyval) :=
  match d with
  | [] => [(a, v)]
  | (k, w) :: d' =>
      if decide (k = a) then (k, v) :: d' else (k, w) :: assoc_set a v d'
  end.

(** [getattr(o, a)] on the object at [l]: [None] when the attribute is
    missing (or [l] is not allocated, which no live reference is). *)
Definition getattr (h : heap) (l : loc) (a : string) : option pyval :=
  o ← h !! l; assoc a (attrs o).

Definition hasattr (h : heap) (l : loc) (a : string) : bool :=
  bool_decide (is_Some (getattr h l a)).

Definition setattr (l : loc) (a : string) (v : pyval) (h : heap) : heap :=
  match h !! l with
  | Some o => <[l := Obj (cls o) (assoc_set a v (attrs o))]> h
  | None => h
  end.

(** [x in v]: membership by identity in a list; any other value of this
    model is not iterable. *)
Definition contains (v : pyval) (x : loc) : result bool :=
  match v with
  | VList ls => Ok (bool_decide (x ∈ ls))
  | _ => Raise TypeError
  end.

(** [ls.index(x)] for an [x] that occurs in [ls]. *)
Fixpoint index (x : loc) (ls : list loc) : option nat :=
  match ls with
  | [] => None
  | y :: ls' => if decide (y = x) then Some 0 else S <$> index x ls'
  end.

(** [ls.remove(x)]: drops the first occurrence. *)
Fixpoint remove (x : loc) (ls : list loc) : option (list loc) :=
  match ls with
  | [] => None
  | y :: ls' => if decide (y = x) then Some ls' else (y ::.) <$> remove x ls'
  end.

(** [ls.insert(i, x)]. *)
Definition insert_at (i : nat) (x : loc) (ls : list loc) : list loc :=
  take i ls ++ x :: drop i ls.

(** [copy.deepcopy] of a node object.  As in [copy._reconstruct], the copy
    is allocated and entered in the memo first, then the instance
    dictionary is copied entry by entry and stored in the copy.  [depth]
    bounds the nesting of calls, as the interpreter's recursion limit
    does. *)
Definition alloc (o : obj) (h : heap) : loc * heap :=
  let l := fresh (dom h) in (l, <[l := o]> h).

Abbreviation memo := (gmap loc loc).

Section copy_dict.
Variable copy : loc → M (heap * memo) loc.

Fixpoint copy_list (cs : list loc) : M (heap * memo) (list loc) :=
  match cs with
  | [] => mret []
  | c :: cs' => c' ← copy c; r ← copy_list cs'; mret (c' :: r)
  end.

Definition copy_value (v : pyval) : M (heap * memo) pyval :=
  match v with
  | VRef c => c' ← copy c; mret (VRef c')
  | VList cs => cs' ← copy_list cs; mret (VList cs')
  | _ => mret v
  end.

Fixpoint copy_dict (d : list (string * pyval))
  : M (heap * memo) (list (string * pyval)) :=
  match d with
  | [] => mret []
  | (k, v) :: d' => v' ← copy_value v; r ← copy_dict d'; mret ((k, v') :: r)
  end.
End copy_dict.

Fixpoint deepcopy_memo (depth : nat) (x : loc) : M (heap * memo) loc :=
  match depth with
  | 0 => raise RecursionError
  | S depth' =>
      '(h, m) ← get;
      match m !! x with
      | Some y => mret y
      | None =>
          match h !! x with
          | None => raise KeyError
          | Some o =>
              let '(y, h1) := alloc (Obj (cls o) []) h in
              put (h1, <[x := y]> m);;
              d ← copy_dict (deepcopy_memo depth') (attrs o);
              modify (λ '(h2, m2), (<[y := Obj (cls o) d]> h2, m2));;
              mret y
          end
      end
  end.

Definition recursion_limit : nat := 1000.

Definition deepcopy (x : loc) : M heap loc :=
  λ h, let '(r, (h', _)) := deepcopy_memo recursion_limit x (h, ∅) in (r, h').

(** [RootScope.parent]: [self._parents[node]]; the index maps a node to its
    parent, [None] for the root. *)
Definition parent (sc : gmap loc (option loc)) (node : loc)
  : M heap (option loc) :=
  match sc !! node with
  | Some p => mret p
  | None => raise KeyError
  end.

Definition lift {A} (r : result A) : M heap A := λ h, (r, h).

(** The [for a in ('body', 'orelse', 'finalbody')] loop of [split_import]
    with its [else] clause: the name of the first attribute of the parent
    that holds a list with [node] in it. *)
Fixpoint find_parent_list (h : heap) (p : option loc) (node : loc)
    (names : list string) : result string :=
  match names with
  | [] => Raise InvalidAstError
  | a :: names' =>
      match p ≫= (λ l, getattr h l a) with
      | None => find_parent_list h p node names'
      | Some v =>
          match contains v node with
          | Raise e => Raise e
          | Ok true => Ok a
          | Ok false => find_parent_list h p node names'
          end
      end
  end.

(** The attributes searched, and what a caller can say about them: each one
    the parent has holds a list ([list_valued]); [node] is in the list held
    by attribute [a] ([in_block]). *)
Definition candidates : list string := ["body"; "orelse"; "finalbody"].

Definition list_valued (h : heap) (p : option loc) : bool :=
  forallb (λ a, match p ≫= (λ l, getattr h l a) with
                | Some (VList _) | None => true
                | Some _ => false
                end) candidates.

Definition in_block (h : heap) (p : option loc) (node : loc) (a : string)
  : bool :=
  match p ≫= (λ l, getattr h l a) with
  | Some (VList ls) => bool_decide (node ∈ ls)
  | _ => false
  end.

Definition from_option {A} (e : exn) (o : option A) : M heap A :=
  match o with Some a => mret a | None => raise e end.

Definition as_list (e : exn) (v : pyval) : M heap (list loc) :=
  match v with VList ls => mret ls | _ => raise e end.

Definition split_import (sc : gmap loc (option loc))
    (node alias_to_remove : loc) : M heap loc :=
  p ← parent sc node;
  h ← get;
  a ← lift (find_parent_list h p node candidates);
  parent_list ← from_option AttributeError (p ≫= (λ l, getattr h l a))
                 ≫= as_list TypeError;
  idx ← from_option ValueError (index node parent_list);
  new_import ← deepcopy node;
  modify (setattr new_import "names" (VList [alias_to_remove]));;
  h ← get;
  names ← from_option AttributeError (getattr h node "names")
           ≫= as_list AttributeError;
  names' ← from_option ValueError (remove alias_to_remove names);
  modify (setattr node "names" (VList names'));;
  modify (λ h, match p with
               | Some l =>
                   setattr l a (VList (insert_at (idx + 1) new_import parent_list)) h
               | None => h
               end);;
  mret new_import.

(** The shape of an import node: every child it refers to is a leaf, an
    object whose attributes are all strings, numbers or [None] (as an
    [alias] is). *)
Definition primitive (v : pyval) : bool :=
  match v with VRef _ | VList _ => false | _ => true end.

Definition children (v : pyval) : list loc :=
  match v with VRef c => [c] | VList cs => cs | _ => [] end.

Definition is_leaf (h : heap) (c : loc) : bool :=
  match h !! c with
  | Some oc => forallb (λ kv, primitive kv.2) (attrs oc)
  | None => false
  end.

Definition flat (h : heap) (o : obj) : bool :=
  forallb (λ kv, forallb (is_leaf h) (children kv.2)) (attrs o).

Definition is_import (o : obj) : bool :=
  bool_decide (cls o = "Import" ∨ cls o = "ImportFrom").


(** The tree of [import aaa, bbb, ccc] as [ast.parse] builds it, and the
    parent index the scope analysis computes for it
    ([import_utils_test.py], [test_split_normal_import]). *)
Definition alias_obj (name : string) : obj :=
  Obj "alias" [("name", VStr name); ("asname", VNone)].

Definition import_obj : obj :=
  Obj "Import" [("names", VList [2; 3; 4]); ("lineno", VInt 1);
                ("col_offset", VInt 0)].

Definition example_tree : heap :=
  <[0 := Obj "Module" [("body", VList [1])]]>
  (<[1 := import_obj]>
  (<[2 := alias_obj "aaa"]>
  (<[3 := alias_obj "bbb"]>
  (<[4 := alias_obj "ccc"]> ∅)))).

Definition example_parents : gmap loc (option loc) :=
  <[0 := None]> (<[1 := Some 0]>
  (<[2 := Some 1]> (<[3 := Some 1]> (<[4 := Some 1]> ∅)))).

(** The same tree after the import statement was taken out of the module
    body, with the parent index not recomputed. *)
Definition example_stale_tree : heap :=
  <[0 := Obj "Module" [("body", VList [])]]> example_tree.

(** What [deepcopy] can raise, and what it leaves alone: [agree h h'] says
    that every object of [h] is still there, unchanged, in [h']. *)
Definition copy_exn (e : exn) : Prop := e = RecursionError ∨ e = KeyError.

Definition agree (h hi : heap) : Prop :=
  ∀ l, is_Some (h !! l) → hi !! l = h !! l.

(** *** Lists and attributes *)

Lemma index_spec (x : loc) (ls : list loc) :
  x ∈ ls →
  ∃ pre post, ls = pre ++ (x :: post) ∧ (x ∉ pre) ∧ index x ls = Some (length pre).
Proof.
  induction ls as [|y ls IH]; intros Hin; [by apply elem_of_nil in Hin|].
  simpl. destruct (decide (y = x)) as [->|Hne].
  - exists [], ls. split_and!; [done|apply not_elem_of_nil|done].
  - apply elem_of_cons in Hin as [->|Hin]; [done|].
    destruct (IH Hin) as (pre & post & -> & Hpre & ->).
    exists (y :: pre), post. split_and!; [done| |done].
    rewrite not_elem_of_cons. auto.
Qed.

Lemma remove_spec (x : loc) (ls : list loc) :
  x ∈ ls →
  ∃ pre post, ls = pre ++ (x :: post) ∧ (x ∉ pre) ∧ remove x ls = Some (pre ++ post).
Proof.
  induction ls as [|y ls IH]; intros Hin; [by apply elem_of_nil in Hin|].
  simpl. destruct (decide (y = x)) as [->|Hne].
  - exists [], ls. split_and!; [done|apply not_elem_of_nil|done].
  - apply elem_of_cons in Hin as [->|Hin]; [done|].
    destruct (IH Hin) as (pre & post & -> & Hpre & ->).
    exists (y :: pre), post. split_and!; [done| |done].
    rewrite not_elem_of_cons. auto.
Qed.

Lemma remove_None x ls : x ∉ ls → remove x ls = None.
Proof.
  induction ls as [|y ls IH]; [done|]. rewrite not_elem_of_cons. intros [Hne Hnin].
  simpl. rewrite decide_False by done. by rewrite IH.
Qed.

Lemma insert_at_after (pre : list loc) x y post :
  insert_at (length pre + 1) y (pre ++ (x :: post)) = pre ++ (x :: y :: post).
Proof.
  unfold insert_at.
  replace (pre ++ (x :: post)) with ((pre ++ [x]) ++ post) by by rewrite <- app_assoc.
  replace (length pre + 1) with (length (pre ++ [x])) by (rewrite length_app; simpl; lia).
  rewrite take_app_length, drop_app_length. by rewrite <- app_assoc.
Qed.

Lemma assoc_set_eq a v d : assoc a (assoc_set a v d) = Some v.
Proof.
  induction d as [|[k w] d IH]; simpl.
  - by rewrite decide_True.
  - destruct (decide (k = a)) as [->|Hne]; simpl.
    + by rewrite decide_True.
    + by rewrite decide_False.
Qed.

Lemma assoc_set_ne a b v d : a ≠ b → assoc b (assoc_set a v d) = assoc b d.
Proof.
  intros Hab. induction d as [|[k w] d IH]; simpl.
  - by rewrite decide_False.
  - destruct (decide (k = a)) as [->|Hne]; simpl.
    + by rewrite !decide_False.
    + destruct (decide (k = b)); done.
Qed.

Lemma getattr_setattr_eq h l a v :
  is_Some (h !! l) → getattr (setattr l a v h) l a = Some v.
Proof.
  intros [o Ho]. unfold getattr, setattr. rewrite Ho.
  rewrite lookup_insert_eq. simpl. apply assoc_set_eq.
Qed.

Lemma getattr_setattr_ne h l l' a a' v :
  l ≠ l' ∨ a ≠ a' → getattr (setattr l a v h) l' a' = getattr h l' a'.
Proof.
  intros Hne. unfold getattr, setattr.
  destruct (h !! l) as [o|] eqn:Ho; [|done].
  destruct (decide (l = l')) as [<-|Hl].
  - rewrite lookup_insert_eq, Ho. simpl. destruct Hne as [?|?]; [done|].
    by apply assoc_set_ne.
  - by rewrite lookup_insert_ne.
Qed.

Lemma lookup_setattr_ne h l l' a v : l ≠ l' → setattr l a v h !! l' = h !! l'.
Proof.
  intros Hne. unfold setattr. destruct (h !! l); [|done]. by rewrite lookup_insert_ne.
Qed.

Lemma cls_setattr h l l' a v : cls <$> setattr l a v h !! l' = cls <$> h !! l'.
Proof.
  unfold setattr. destruct (h !! l) as [o|] eqn:Ho; [|done].
  destruct (decide (l = l')) as [<-|Hl].
  - by rewrite lookup_insert_eq, Ho.
  - by rewrite lookup_insert_ne.
Qed.

Section copy_dict_exn.
Variable copy : loc → M (heap * memo) loc.
Hypothesis copy_raises : ∀ c s e s', copy c s = (Raise e, s') → copy_exn e.

Lemma copy_list_raises cs s e s' :
  copy_list copy cs s = (Raise e, s') → copy_exn e.
Proof.
  revert s. induction cs as [|c cs IH]; intros s; simpl; [done|].
  unfold mbind, M_bind, bind.
  destruct (copy c s) as [[c'|e1] s1] eqn:Hc.
  - destruct (copy_list copy cs s1) as [[r|e2] s2] eqn:Hr; [done|].
    intros [= <- <-]. eauto.
  - intros [= <- <-]. eauto.
Qed.

Lemma copy_value_raises v s e s' :
  copy_value copy v s = (Raise e, s') → copy_exn e.
Proof.
  destruct v; simpl; try done; unfold mbind, M_bind, bind.
  - destruct (copy l s) as [[c'|e1] s1] eqn:Hc; [done|].
    intros [= <- <-]. eauto.
  - destruct (copy_list copy ls s) as [[c'|e1] s1] eqn:Hc; [done|].
    intros [= <- <-]. eauto using copy_list_raises.
Qed.

Lemma copy_dict_raises d s e s' :
  copy_dict copy d s = (Raise e, s') → copy_exn e.
Proof.
  revert s. induction d as [|[k v] d IH]; intros s; simpl; [done|].
  unfold mbind, M_bind, bind.
  destruct (copy_value copy v s) as [[c'|e1] s1] eqn:Hc.
  - destruct (copy_dict copy d s1) as [[r|e2] s2] eqn:Hr; [done|].
    intros [= <- <-]. eauto.
  - intros [= <- <-]. eauto using copy_value_raises.
Qed.
End copy_dict_exn.

Lemma deepcopy_memo_raises depth x s e s' :
  deepcopy_memo depth x s = (Raise e, s') → copy_exn e.
Proof.
  revert x s e s'. induction depth as [|depth IH]; intros x [h m] e s'; simpl.
  - intros [= <- <-]. by left.
  - unfold mbind, M_bind, bind. simpl.
    destruct (m !! x); [done|].
    destruct (h !! x) as [o|]; [|intros [= <- <-]; by right].
    simpl.
    destruct (copy_dict _ _ _) as [[d|e1] [h1 m1]] eqn:Hd; [done|].
    intros [= <- <-]. eapply copy_dict_raises; [|exact Hd]. eauto.
Qed.

Lemma deepcopy_raises x h e h' :
  deepcopy x h = (Raise e, h') → copy_exn e.
Proof.
  unfold deepcopy.
  destruct (deepcopy_memo _ _ _) as [r [h1 m1]] eqn:Hd.
  intros [= -> <-]. eauto using deepcopy_memo_raises.
Qed.

(** *** Copying a node whose children are leaves *)

Lemma agree_refl h : agree h h.
Proof. done. Qed.

Lemma agree_insert_fresh h hi l o :
  agree h hi → h !! l = None → agree h (<[l := o]> hi).
Proof.
  intros Hag Hl l' [o' Ho']. rewrite lookup_insert_ne; [apply Hag; eauto|].
  intros ->. congruence.
Qed.

Lemma agree_fresh h hi : agree h hi → h !! fresh (dom hi) = None.
Proof.
  intros Hag. destruct (h !! fresh (dom hi)) as [o|] eqn:Ho; [|done].
  assert (hi !! fresh (dom hi) = Some o) as Hi by (rewrite Hag; eauto).
  apply (elem_of_dom_2 hi) in Hi. by apply is_fresh in Hi.
Qed.

Section copy_prim.
Variable copy : loc → M (heap * memo) loc.

Lemma copy_dict_primitive d s :
  forallb (λ kv, primitive kv.2) d = true → copy_dict copy d s = (Ok d, s).
Proof.
  induction d as [|[k v] d IH]; simpl; [done|].
  intros [Hv Hd]%andb_prop. unfold mbind, M_bind, bind.
  destruct v; try done; simpl; by rewrite IH.
Qed.
End copy_prim.

Section copy_flat.
Variable h : heap.
Variable n : nat.

Lemma deepcopy_memo_leaf c hi mi :
  agree h hi → is_leaf h c = true →
  ∃ c' hi' mi',
    deepcopy_memo (S n) c (hi, mi) = (Ok c', (hi', mi')) ∧ agree h hi'.
Proof.
  intros Hag Hleaf. unfold is_leaf in Hleaf.
  destruct (h !! c) as [oc|] eqn:Hc; [|done].
  simpl. unfold mbind, M_bind, bind. simpl.
  destruct (mi !! c) as [y|]; [by eauto|].
  rewrite Hag, Hc by eauto. simpl.
  rewrite copy_dict_primitive by done. simpl.
  do 3 eexists. split; [done|].
  pose proof (agree_fresh _ _ Hag).
  by do 2 (apply agree_insert_fresh; [|done]).
Qed.

Lemma copy_list_leaves cs hi mi :
  agree h hi → forallb (is_leaf h) cs = true →
  ∃ cs' hi' mi',
    copy_list (deepcopy_memo (S n)) cs (hi, mi) = (Ok cs', (hi', mi'))
    ∧ agree h hi'.
Proof.
  revert hi mi. induction cs as [|c cs IH]; intros hi mi Hag; cbn [forallb copy_list].
  - do 3 eexists; split; [reflexivity|done].
  - intros [Hc Hcs]%andb_prop.
    destruct (deepcopy_memo_leaf c hi mi Hag Hc) as (c' & h1 & m1 & Hcopy & Hag1).
    destruct (IH h1 m1 Hag1 Hcs) as (cs' & h2 & m2 & Hrest & Hag2).
    unfold mbind, M_bind, bind. rewrite Hcopy, Hrest.
    do 3 eexists; split; [reflexivity|done].
Qed.

Lemma copy_value_leaves v hi mi :
  agree h hi → forallb (is_leaf h) (children v) = true →
  ∃ v' hi' mi',
    copy_value (deepcopy_memo (S n)) v (hi, mi) = (Ok v', (hi', mi'))
    ∧ agree h hi' ∧ (primitive v = true → v' = v).
Proof.
  intros Hag Hv. destruct v as [| | |c|cs]; cbn [copy_value];
    try (do 3 eexists; split_and!; [reflexivity|done|done]).
  - simpl in Hv. apply andb_prop in Hv as [Hc _].
    destruct (deepcopy_memo_leaf c hi mi Hag Hc) as (c' & h1 & m1 & Hcopy & Hag1).
    unfold mbind, M_bind, bind. rewrite Hcopy.
    do 3 eexists; split_and!; [reflexivity|done|done].
  - destruct (copy_list_leaves cs hi mi Hag Hv) as (c' & h1 & m1 & Hcopy & Hag1).
    unfold mbind, M_bind, bind. rewrite Hcopy.
    do 3 eexists; split_and!; [reflexivity|done|done].
Qed.

Lemma copy_dict_flat d hi mi :
  agree h hi →
  forallb (λ kv, forallb (is_leaf h) (children kv.2)) d = true →
  ∃ d' hi' mi',
    copy_dict (deepcopy_memo (S n)) d (hi, mi) = (Ok d', (hi', mi'))
    ∧ agree h hi'
    ∧ ∀ k v, assoc k d = Some v → primitive v = true → assoc k d' = Some v.
Proof.
  revert hi mi. induction d as [|[k v] d IH]; intros hi mi Hag; cbn [forallb copy_dict].
  - do 3 eexists; split_and!; [reflexivity|done|done].
  - intros [Hv Hd]%andb_prop. simpl in Hv.
    destruct (copy_value_leaves v hi mi Hag Hv) as (v' & h1 & m1 & Hcopy & Hag1 & Hprim).
    destruct (IH h1 m1 Hag1 Hd) as (d' & h2 & m2 & Hrest & Hag2 & Hd').
    unfold mbind, M_bind, bind. rewrite Hcopy, Hrest.
    do 3 eexists. split_and!; [done..|].
    intros k' w. simpl. destruct (decide (k = k')); [|by auto].
    intros [= ->] Hw. by rewrite Hprim.
Qed.
End copy_flat.

Lemma deepcopy_flat h x o :
  h !! x = Some o → flat h o = true →
  ∃ y h' d,
    deepcopy x h = (Ok y, h') ∧ h !! y = None ∧ agree h h'
    ∧ h' !! y = Some (Obj (cls o) d)
    ∧ ∀ k v, assoc k (attrs o) = Some v → primitive v = true → assoc k d = Some v.
Proof.
  intros Hx Hflat.
  assert (∀ n, ∃ y h' m' d,
            deepcopy_memo (S (S n)) x (h, ∅) = (Ok y, (h', m'))
            ∧ h !! y = None ∧ agree h h'
            ∧ h' !! y = Some (Obj (cls o) d)
            ∧ ∀ k v, assoc k (attrs o) = Some v → primitive v = true →
                     assoc k d = Some v) as Hdepth.
  { intros n. cbn [deepcopy_memo]. unfold mbind, M_bind, bind. simpl.
    rewrite lookup_empty, Hx. simpl.
    set (y := fresh (dom h)).
    assert (h !! y = None) as Hy by (apply agree_fresh, agree_refl).
    edestruct (copy_dict_flat h n (attrs o)) as (d & h1 & m1 & Hcopy & Hag & Hd);
      [|exact Hflat|rewrite Hcopy].
    { apply agree_insert_fresh; [apply agree_refl|exact Hy]. }
    simpl. exists y, (<[y := Obj (cls o) d]> h1), m1, d.
    split_and!; [done|done| |by rewrite lookup_insert_eq|done].
    by apply agree_insert_fresh. }
  destruct (Hdepth 998) as (y & h' & m' & d & Hcopy & Hrest).
  exists y, h', d. split; [|exact Hrest].
  unfold deepcopy. change recursion_limit with (S (S 998)). by rewrite Hcopy.
Qed.

Lemma find_parent_list_found h p node names :
  forallb (λ a, match p ≫= (λ l, getattr h l a) with
                | Some (VList _) | None => true
                | Some _ => false
                end) names = true →
  existsb (in_block h p node) names = true →
  ∃ a ls, find_parent_list h p node names = Ok a ∧ a ∈ names
          ∧ p ≫= (λ l, getattr h l a) = Some (VList ls) ∧ node ∈ ls.
Proof.
  induction names as [|a names IH]; simpl; [done|].
  intros [Ha Hnames]%andb_prop. unfold in_block at 1.
  destruct (p ≫= _) as [v|] eqn:Hv.
  - destruct v as [| | | |ls]; try done. simpl.
    case_bool_decide as Hin; simpl.
    + intros _. exists a, ls. split_and!; [done|apply elem_of_cons; auto|done|done].
    + intros Hex. destruct (IH Hnames Hex) as (a' & ls' & ? & ? & ? & ?).
      exists a', ls'. split_and!; [done|apply elem_of_cons; auto|done|done].
  - simpl. intros Hex. destruct (IH Hnames Hex) as (a' & ls' & ? & ? & ? & ?).
    exists a', ls'. split_and!; [done|apply elem_of_cons; auto|done|done].
Qed.

Lemma find_parent_list_not_found h p node names :
  forallb (λ a, match p ≫= (λ l, getattr h l a) with
                | Some (VList _) | None => true
                | Some _ => false
                end) names = true →
  existsb (in_block h p node) names = false →
  find_parent_list h p node names = Raise InvalidAstError.
Proof.
  induction names as [|a names IH]; simpl; [done|].
  intros [Ha Hnames]%andb_prop. unfold in_block at 1.
  destruct (p ≫= _) as [v|] eqn:Hv.
  - destruct v as [| | | |ls]; try done. simpl.
    case_bool_decide as Hin; simpl; [done|]. by apply IH.
  - simpl. by apply IH.
Qed.

Lemma find_parent_list_Ok h p node names a :
  find_parent_list h p node names = Ok a →
  ∃ ls, p ≫= (λ l, getattr h l a) = Some (VList ls) ∧ node ∈ ls.
Proof.
  induction names as [|a' names IH]; simpl; [done|].
  destruct (p ≫= (λ l, getattr h l a')) as [v|] eqn:Hv; [|exact IH].
  destruct v as [| | | |ls]; try done. simpl.
  case_bool_decide as Hin; [|exact IH]. intros [= <-]. eauto.
Qed.

(** C2: for an import node that is in one of the [body], [orelse],
    [finalbody] lists of its parent and an alias in its [names],
    [split_import] returns a new node; the alias is removed from
    [node.names], the other aliases keeping their order; the new node has the
    class of [node] and [names = [alias]]; it is inserted in the list that
    holds [node], right after [node]; no other object changes. *)
Theorem split_import_spec sc node alias h p o names :
  sc !! node = Some (Some p) →
  h !! node = Some o →
  is_import o = true →
  flat h o = true →
  getattr h node "names" = Some (VList names) →
  alias ∈ names →
  list_valued h (Some p) = true →
  existsb (in_block h (Some p) node) candidates = true →
  ∃ new_import h' a pre post npre npost,
    split_import sc node alias h = (Ok new_import, h')
    ∧ h !! new_import = None
    ∧ a ∈ candidates
    ∧ getattr h p a = Some (VList (pre ++ (node :: post)))
    ∧ (node ∉ pre)
    ∧ getattr h' p a = Some (VList (pre ++ (node :: new_import :: post)))
    ∧ names = npre ++ (alias :: npost)
    ∧ (alias ∉ npre)
    ∧ getattr h' node "names" = Some (VList (npre ++ npost))
    ∧ cls <$> h' !! new_import = Some (cls o)
    ∧ getattr h' new_import "names" = Some (VList [alias])
    ∧ ∀ l, is_Some (h !! l) → l ≠ node → l ≠ p → h' !! l = h !! l.
Proof.
  intros Hsc Hnode _ Hflat Hnames Halias Hlists Hin.
  destruct (find_parent_list_found h (Some p) node candidates Hlists Hin)
    as (a & ls & Hfind & Ha & Hls & Hnode_in).
  simpl in Hls.
  destruct (index_spec node ls Hnode_in) as (pre & post & -> & Hpre & Hidx).
  destruct (remove_spec alias names Halias) as (npre & npost & -> & Hnpre & Hrem).
  destruct (deepcopy_flat h node o Hnode Hflat)
    as (y & h1 & d & Hcopy & Hy & Hag & Hy1 & _).
  assert (is_Some (h !! p)) as Hp.
  { unfold getattr in Hls. destruct (h !! p); [eauto|done]. }
  assert (y ≠ node) as Hyn by (intros ->; congruence).
  assert (y ≠ p) as Hyp by (intros ->; destruct Hp; congruence).
  assert (a ≠ "names") as Han.
  { intros ->. revert Ha. unfold candidates.
    rewrite !elem_of_cons, elem_of_nil. intros [?|[?|[?|[]]]]; discriminate. }
  set (h2 := setattr y "names" (VList [alias]) h1).
  assert (getattr h2 node "names" = Some (VList (npre ++ (alias :: npost)))) as Hn2.
  { unfold h2. rewrite getattr_setattr_ne by auto.
    unfold getattr in *. rewrite Hag by eauto. done. }
  set (h3 := setattr node "names" (VList (npre ++ npost)) h2).
  set (h4 := setattr p a (VList (pre ++ (node :: y :: post))) h3).
  exists y, h4, a, pre, post, npre, npost.
  split_and!; try done.
  - unfold split_import.
    erewrite bind_Ok by (unfold parent; rewrite Hsc; reflexivity).
    erewrite bind_Ok by reflexivity.
    erewrite bind_Ok by (unfold lift; rewrite Hfind; reflexivity).
    erewrite bind_Ok by (cbn [mbind option_bind]; rewrite Hls; reflexivity).
    erewrite bind_Ok by (rewrite Hidx; reflexivity).
    erewrite bind_Ok by exact Hcopy.
    erewrite bind_Ok by reflexivity.
    erewrite bind_Ok by reflexivity.
    erewrite bind_Ok by (fold h2; rewrite Hn2; reflexivity).
    erewrite bind_Ok by (rewrite Hrem; reflexivity).
    erewrite bind_Ok by reflexivity.
    erewrite bind_Ok by reflexivity.
    rewrite insert_at_after. reflexivity.
  - unfold h4. apply getattr_setattr_eq.
    unfold h3, h2, setattr.
    repeat (case_match; rewrite ?lookup_insert_is_Some');
      rewrite ?Hag by done; eauto.
  - unfold h4. rewrite getattr_setattr_ne by auto.
    unfold h3. apply getattr_setattr_eq.
    unfold h2. rewrite lookup_setattr_ne by done. rewrite Hag by eauto. eauto.
  - unfold h4, h3, h2. rewrite !cls_setattr. by rewrite Hy1.
  - unfold h4, h3. rewrite !getattr_setattr_ne by auto.
    unfold h2. apply getattr_setattr_eq. eauto.
  - intros l Hl Hln Hlp. unfold h4, h3, h2.
    rewrite !lookup_setattr_ne by (try done; intros ->; destruct Hl; congruence).
    by apply Hag.
Qed.

Lemma split_import_spec_witness :
  ∃ new_import h' a pre post npre npost,
    split_import example_parents 1 3 example_tree = (Ok new_import, h')
    ∧ example_tree !! new_import = None
    ∧ a ∈ candidates
    ∧ getattr example_tree 0 a = Some (VList (pre ++ (1 :: post)))
    ∧ (1 ∉ pre)
    ∧ getattr h' 0 a = Some (VList (pre ++ (1 :: new_import :: post)))
    ∧ [2; 3; 4] = npre ++ (3 :: npost)
    ∧ (3 ∉ npre)
    ∧ getattr h' 1 "names" = Some (VList (npre ++ npost))
    ∧ cls <$> h' !! new_import = Some (cls import_obj)
    ∧ getattr h' new_import "names" = Some (VList [3])
    ∧ ∀ l, is_Some (example_tree !! l) → l ≠ 1 → l ≠ 0 →
           h' !! l = example_tree !! l.
Proof.
  apply (split_import_spec example_parents 1 3 example_tree 0 import_obj
           [2; 3; 4]); try (vm_compute; reflexivity).
  apply list_elem_of_further, list_elem_of_here.
Defined.

(** C7: when the node is in none of the [body], [orelse], [finalbody] lists
    of the parent the index gives for it, [split_import] raises
    [InvalidAstError], the structural lookup error, and returns nothing. *)
Theorem split_import_not_found sc node alias h p :
  sc !! node = Some p →
  list_valued h p = true →
  existsb (in_block h p node) candidates = false →
  split_import sc node alias h = (Raise InvalidAstError, h).
Proof.
  intros Hsc Hlists Hnot. unfold split_import.
  erewrite bind_Ok by (unfold parent; rewrite Hsc; reflexivity).
  erewrite bind_Ok by reflexivity.
  erewrite bind_Raise; [reflexivity|].
  unfold lift. by rewrite (find_parent_list_not_found h p node candidates).
Qed.

Lemma split_import_not_found_witness :
  split_import example_parents 1 3 example_stale_tree
  = (Raise InvalidAstError, example_stale_tree).
Proof.
  apply (split_import_not_found example_parents 1 3 example_stale_tree (Some 0));
    vm_compute; reflexivity.
Defined.

(** C10: when [split_import] raises [InvalidAstError], the store of objects
    is the one it was called with: nothing was mutated or allocated. *)
Theorem split_import_error_unmodified sc node alias h h' :
  split_import sc node alias h = (Raise InvalidAstError, h') → h' = h.
Proof.
  unfold split_import, parent.
  destruct (sc !! node) as [p|]; [|by intros [=]].
  erewrite bind_Ok by reflexivity. erewrite bind_Ok by reflexivity.
  destruct (find_parent_list h p node candidates) as [a|e] eqn:Hfind.
  2:{ erewrite bind_Raise by reflexivity. by intros [= _ <-]. }
  erewrite bind_Ok by reflexivity.
  destruct (find_parent_list_Ok _ _ _ _ _ Hfind) as (ls & Hls & Hin).
  erewrite bind_Ok by (rewrite Hls; reflexivity).
  destruct (index_spec node ls Hin) as (pre & post & -> & Hpre & Hidx).
  erewrite bind_Ok by (rewrite Hidx; reflexivity).
  destruct (deepcopy node h) as [[y|e] h1] eqn:Hcopy.
  2:{ erewrite bind_Raise by exact Hcopy. intros [= -> _].
      by destruct (deepcopy_raises _ _ _ _ Hcopy). }
  erewrite bind_Ok by exact Hcopy.
  erewrite bind_Ok by reflexivity. erewrite bind_Ok by reflexivity.
  set (h2 := setattr y "names" (VList [alias]) h1).
  destruct (getattr h2 node "names") as [v|]; [|by intros [=]].
  destruct v as [| | | |names]; try by intros [=].
  erewrite bind_Ok by reflexivity.
  destruct (remove alias names) as [names'|] eqn:Hrem; by intros [=].
Qed.

Lemma split_import_error_unmodified_witness :
  (split_import example_parents 1 3 example_stale_tree).2 = example_stale_tree.
Proof.
  apply (split_import_error_unmodified example_parents 1 3).
  vm_compute. reflexivity.
Defined.

(** ** More of [split_import] *)

(** The tree of [from aaa import bbb, ccc, ddd] and its parent index
    ([import_utils_test.py], [test_split_from_import]). *)
Definition import_from_obj : obj :=
  Obj "ImportFrom" [("module", VStr "aaa"); ("names", VList [2; 3; 4]);
                    ("level", VInt 0)].

Definition example_from_tree : heap :=
  <[0 := Obj "Module" [("body", VList [1])]]>
  (<[1 := import_from_obj]>
  (<[2 := alias_obj "bbb"]>
  (<[3 := alias_obj "ccc"]>
  (<[4 := alias_obj "ddd"]> ∅)))).

(** A tree in which the parent the index gives for node 1 holds one node,
    not a list, in [body], as a [Lambda] does. *)
Definition example_lambda_tree : heap :=
  <[0 := Obj "Lambda" [("args", VRef 2); ("body", VRef 1)]]>
  (<[1 := Obj "Num" [("n", VInt 1)]]>
  (<[2 := Obj "arguments" []]> ∅)).

Definition example_lambda_parents : gmap loc (option loc) :=
  <[0 := None]> (<[1 := Some 0]> (<[2 := Some 0]> ∅)).

(** *** What a failed call leaves *)

Section copy_agree.
Variable h0 : heap.
Variable copy : loc → M (heap * memo) loc.
Hypothesis copy_agree : ∀ c h m r h' m',
  agree h0 h → copy c (h, m) = (r, (h', m')) → agree h0 h'.

Lemma copy_list_agree cs h m r h' m' :
  agree h0 h → copy_list copy cs (h, m) = (r, (h', m')) → agree h0 h'.
Proof.
  revert h m r. induction cs as [|c cs IH]; intros h m r Hag; simpl.
  - by intros [= _ <- <-].
  - unfold mbind, M_bind, bind.
    destruct (copy c (h, m)) as [[c'|e] [h1 m1]] eqn:Hc.
    + destruct (copy_list copy cs (h1, m1)) as [[r'|e] [h2 m2]] eqn:Hr.
      * intros [= _ <- <-]. eauto.
      * intros [= _ <- <-]. eauto.
    + intros [= _ <- <-]. eauto.
Qed.

Lemma copy_value_agree v h m r h' m' :
  agree h0 h → copy_value copy v (h, m) = (r, (h', m')) → agree h0 h'.
Proof.
  intros Hag. destruct v as [| | |c|cs]; simpl;
    try by intros [= _ <- <-].
  - unfold mbind, M_bind, bind.
    destruct (copy c (h, m)) as [[c'|e] [h1 m1]] eqn:Hc;
      intros [= _ <- <-]; eauto.
  - unfold mbind, M_bind, bind.
    destruct (copy_list copy cs (h, m)) as [[c'|e] [h1 m1]] eqn:Hc;
      intros [= _ <- <-]; eauto using copy_list_agree.
Qed.

Lemma copy_dict_agree d h m r h' m' :
  agree h0 h → copy_dict copy d (h, m) = (r, (h', m')) → agree h0 h'.
Proof.
  revert h m r. induction d as [|[k v] d IH]; intros h m r Hag; simpl.
  - by intros [= _ <- <-].
  - unfold mbind, M_bind, bind.
    destruct (copy_value copy v (h, m)) as [[c'|e] [h1 m1]] eqn:Hc.
    + destruct (copy_dict copy d (h1, m1)) as [[r'|e] [h2 m2]] eqn:Hr.
      * intros [= _ <- <-]. eauto using copy_value_agree.
      * intros [= _ <- <-]. eauto using copy_value_agree.
    + intros [= _ <- <-]. eauto using copy_value_agree.
Qed.
End copy_agree.

Lemma deepcopy_memo_agree h0 depth x h m r h' m' :
  agree h0 h → deepcopy_memo depth x (h, m) = (r, (h', m')) → agree h0 h'.
Proof.
  revert x h m r h' m'. induction depth as [|depth IH];
    intros x h m r h' m' Hag; simpl.
  - by intros [= _ <- <-].
  - unfold mbind, M_bind, bind. simpl.
    destruct (m !! x); [by intros [= _ <- <-]|].
    destruct (h !! x) as [o|]; [|by intros [= _ <- <-]].
    simpl.
    pose proof (agree_fresh _ _ Hag) as Hfresh.
    destruct (copy_dict _ _ _) as [[d|e] [h1 m1]] eqn:Hd; simpl.
    + intros [= _ <- <-]. apply agree_insert_fresh; [|done].
      eapply copy_dict_agree; [exact IH| |exact Hd].
      by apply agree_insert_fresh.
    + intros [= _ <- <-].
      eapply copy_dict_agree; [exact IH| |exact Hd].
      by apply agree_insert_fresh.
Qed.

Lemma deepcopy_agree x h r h' : deepcopy x h = (r, h') → agree h h'.
Proof.
  unfold deepcopy.
  destruct (deepcopy_memo _ _ _) as [r' [h1 m1]] eqn:Hd. intros [= _ <-].
  eapply deepcopy_memo_agree; [apply agree_refl|exact Hd].
Qed.

Lemma deepcopy_memo_fresh depth x h y h' m' :
  deepcopy_memo depth x (h, ∅) = (Ok y, (h', m')) → h !! y = None.
Proof.
  destruct depth as [|depth]; simpl; [done|].
  unfold mbind, M_bind, bind. simpl. rewrite lookup_empty.
  destruct (h !! x) as [o|]; [|done]. simpl.
  destruct (copy_dict _ _ _) as [[d|e] [h2 m2]]; simpl; [|done].
  intros [= <- _ _]. apply agree_fresh, agree_refl.
Qed.

Lemma deepcopy_fresh x h y h' : deepcopy x h = (Ok y, h') → h !! y = None.
Proof.
  unfold deepcopy.
  destruct (deepcopy_memo _ _ _) as [r' [h1 m1]] eqn:Hd. intros [= -> <-].
  by eapply deepcopy_memo_fresh.
Qed.

Lemma agree_setattr_fresh h h' y a v :
  agree h h' → h !! y = None → agree h (setattr y a v h').
Proof.
  intros Hag Hy l Hl. rewrite lookup_setattr_ne; [by apply Hag|].
  intros ->. destruct Hl. congruence.
Qed.

(** X1: whatever [split_import] raises, every object that was in the store
    is still there with the same class and attributes: a failed call may
    leave the copy it had made, which nothing refers to, and no other
    trace. *)
Theorem split_import_failure_atomic sc node alias h e h' :
  split_import sc node alias h = (Raise e, h') → agree h h'.
Proof.
  unfold split_import, parent.
  destruct (sc !! node) as [p|]; [|intros [= _ <-]; apply agree_refl].
  erewrite bind_Ok by reflexivity. erewrite bind_Ok by reflexivity.
  destruct (find_parent_list h p node candidates) as [a|e'] eqn:Hfind.
  2:{ erewrite bind_Raise by reflexivity. intros [= _ <-]. apply agree_refl. }
  erewrite bind_Ok by reflexivity.
  destruct (find_parent_list_Ok _ _ _ _ _ Hfind) as (ls & Hls & Hin).
  erewrite bind_Ok by (rewrite Hls; reflexivity).
  destruct (index_spec node ls Hin) as (pre & post & -> & Hpre & Hidx).
  erewrite bind_Ok by (rewrite Hidx; reflexivity).
  destruct (deepcopy node h) as [[y|e'] h1] eqn:Hcopy.
  2:{ erewrite bind_Raise by exact Hcopy. intros [= _ <-].
      by eapply deepcopy_agree. }
  erewrite bind_Ok by exact Hcopy.
  erewrite bind_Ok by reflexivity. erewrite bind_Ok by reflexivity.
  assert (agree h (setattr y "names" (VList [alias]) h1)) as Hag.
  { apply agree_setattr_fresh; [by eapply deepcopy_agree|].
    by eapply deepcopy_fresh. }
  set (h2 := setattr y "names" (VList [alias]) h1) in *.
  destruct (getattr h2 node "names") as [v|]; [|by intros [= _ <-]].
  destruct v as [| | | |names]; try by intros [= _ <-].
  erewrite bind_Ok by reflexivity.
  destruct (remove alias names) as [names'|] eqn:Hrem; [by intros [=]|].
  by intros [= _ <-].
Qed.

Lemma split_import_failure_atomic_witness :
  agree example_tree (split_import example_parents 1 0 example_tree).2.
Proof.
  apply (split_import_failure_atomic example_parents 1 0 example_tree
           ValueError).
  vm_compute. reflexivity.
Defined.

(** *** What a successful call leaves *)

Lemma find_parent_list_candidate h p node names a :
  find_parent_list h p node names = Ok a → a ∈ names.
Proof.
  induction names as [|a' names IH]; simpl; [done|].
  destruct (p ≫= (λ l, getattr h l a')) as [v|] eqn:Hv.
  - destruct (contains v node) as [[|]|]; try done.
    + intros [= ->]. apply elem_of_cons; auto.
    + intros H. apply elem_of_cons; auto.
  - intros H. apply elem_of_cons; auto.
Qed.

Lemma candidates_not_names a : a ∈ candidates → a ≠ "names".
Proof.
  intros Ha ->. revert Ha. unfold candidates.
  rewrite !elem_of_cons, elem_of_nil. intros [?|[?|[?|[]]]]; discriminate.
Qed.

Lemma assoc_primitive k v d :
  forallb (λ kv, primitive kv.2) d = true → assoc k d = Some v →
  primitive v = true.
Proof.
  induction d as [|[k' w] d IH]; simpl; [done|].
  intros [Hw Hd]%andb_prop. destruct (decide (k' = k)); [|by auto].
  by intros [= <-].
Qed.

Lemma assoc_flat h k v d :
  forallb (λ kv, forallb (is_leaf h) (children kv.2)) d = true →
  assoc k d = Some v → forallb (is_leaf h) (children v) = true.
Proof.
  induction d as [|[k' w] d IH]; simpl; [done|].
  intros [Hw Hd]%andb_prop. destruct (decide (k' = k)); [|by auto].
  by intros [= <-].
Qed.

(** A leaf holds no list: it is neither a node with [names] nor a parent
    with a block. *)
Lemma leaf_no_list h c a ls :
  is_leaf h c = true → getattr h c a ≠ Some (VList ls).
Proof.
  unfold is_leaf, getattr. destruct (h !! c) as [oc|]; [|done]. simpl.
  intros Hprim Ha. by pose proof (assoc_primitive _ _ _ Hprim Ha).
Qed.

Lemma split_import_run sc node alias h p o names :
  sc !! node = Some (Some p) →
  h !! node = Some o →
  flat h o = true →
  getattr h node "names" = Some (VList names) →
  alias ∈ names →
  list_valued h (Some p) = true →
  existsb (in_block h (Some p) node) candidates = true →
  ∃ y h1 d a pre post npre npost,
    find_parent_list h (Some p) node candidates = Ok a
    ∧ getattr h p a = Some (VList (pre ++ (node :: post)))
    ∧ (node ∉ pre)
    ∧ names = npre ++ (alias :: npost)
    ∧ remove alias names = Some (npre ++ npost)
    ∧ h !! y = None
    ∧ agree h h1
    ∧ h1 !! y = Some (Obj (cls o) d)
    ∧ (∀ k v, assoc k (attrs o) = Some v → primitive v = true →
              assoc k d = Some v)
    ∧ split_import sc node alias h
      = (Ok y, setattr p a (VList (pre ++ (node :: y :: post)))
                 (setattr node "names" (VList (npre ++ npost))
                    (setattr y "names" (VList [alias]) h1))).
Proof.
  intros Hsc Hnode Hflat Hnames Halias Hlists Hin.
  destruct (find_parent_list_found h (Some p) node candidates Hlists Hin)
    as (a & ls & Hfind & Ha & Hls & Hnode_in).
  simpl in Hls.
  destruct (index_spec node ls Hnode_in) as (pre & post & -> & Hpre & Hidx).
  destruct (remove_spec alias names Halias) as (npre & npost & -> & Hnpre & Hrem).
  destruct (deepcopy_flat h node o Hnode Hflat)
    as (y & h1 & d & Hcopy & Hy & Hag & Hy1 & Hd).
  assert (y ≠ node) as Hyn by (intros ->; congruence).
  set (h2 := setattr y "names" (VList [alias]) h1).
  assert (getattr h2 node "names" = Some (VList (npre ++ (alias :: npost)))) as Hn2.
  { unfold h2. rewrite getattr_setattr_ne by auto.
    unfold getattr in *. rewrite Hag by eauto. done. }
  exists y, h1, d, a, pre, post, npre, npost.
  split_and!; try done.
  unfold split_import.
  erewrite bind_Ok by (unfold parent; rewrite Hsc; reflexivity).
  erewrite bind_Ok by reflexivity.
  erewrite bind_Ok by (unfold lift; rewrite Hfind; reflexivity).
  erewrite bind_Ok by (cbn [mbind option_bind]; rewrite Hls; reflexivity).
  erewrite bind_Ok by (rewrite Hidx; reflexivity).
  erewrite bind_Ok by exact Hcopy.
  erewrite bind_Ok by reflexivity.
  erewrite bind_Ok by reflexivity.
  erewrite bind_Ok by (fold h2; rewrite Hn2; reflexivity).
  erewrite bind_Ok by (rewrite Hrem; reflexivity).
  erewrite bind_Ok by reflexivity.
  erewrite bind_Ok by reflexivity.
  rewrite insert_at_after. reflexivity.
Qed.

(** The parent of a flat node is another object: a node in its own block
    would be one of its own leaves. *)
Lemma parent_not_node h node o p a ls :
  h !! node = Some o → flat h o = true →
  getattr h p a = Some (VList ls) → node ∈ ls → p ≠ node.
Proof.
  intros Hnode Hflat Hls Hin ->.
  unfold getattr in Hls. rewrite Hnode in Hls. simpl in Hls.
  pose proof (assoc_flat _ _ _ _ Hflat Hls) as Hleaves. simpl in Hleaves.
  rewrite forallb_forall in Hleaves.
  apply list_elem_of_In, Hleaves in Hin.
  eapply leaf_no_list; [exact Hin|].
  unfold getattr. rewrite Hnode. exact Hls.
Qed.

(** X2: after a successful [split_import], the new node has every
    attribute of [node] other than [names] whose value is a string, a number
    or [None] ([module], [level], [lineno], ...), and [node] keeps
    them. *)
Theorem split_import_keeps_fields sc node alias h p o names :
  sc !! node = Some (Some p) →
  h !! node = Some o →
  flat h o = true →
  getattr h node "names" = Some (VList names) →
  alias ∈ names →
  list_valued h (Some p) = true →
  existsb (in_block h (Some p) node) candidates = true →
  ∃ new_import h',
    split_import sc node alias h = (Ok new_import, h')
    ∧ ∀ k v, k ≠ "names" → getattr h node k = Some v → primitive v = true →
        getattr h' new_import k = Some v ∧ getattr h' node k = Some v.
Proof.
  intros Hsc Hnode Hflat Hnames Halias Hlists Hin.
  destruct (split_import_run _ _ _ _ _ _ _ Hsc Hnode Hflat Hnames Halias Hlists Hin)
    as (y & h1 & d & a & pre & post & npre & npost
        & Hfind & Hls & Hpre & -> & Hrem & Hy & Hag & Hy1 & Hd & Hrun).
  exists y. eexists. split; [exact Hrun|].
  intros k v Hk Hv Hprim.
  assert (p ≠ node) as Hpn.
  { eapply parent_not_node; [done..|]. apply elem_of_app. right.
    apply elem_of_cons; auto. }
  assert (y ≠ node) as Hyn by (intros ->; congruence).
  assert (y ≠ p) as Hyp.
  { intros ->. unfold getattr in Hls. by rewrite Hy in Hls. }
  split.
  - rewrite !getattr_setattr_ne by auto.
    unfold getattr. rewrite Hy1. simpl. apply Hd; [|done].
    unfold getattr in Hv. by rewrite Hnode in Hv.
  - rewrite !getattr_setattr_ne by auto.
    unfold getattr in *. by rewrite Hag by eauto.
Qed.

Lemma split_import_keeps_fields_witness :
  ∃ new_import h',
    split_import example_parents 1 3 example_from_tree = (Ok new_import, h')
    ∧ ∀ k v, k ≠ "names" → getattr example_from_tree 1 k = Some v →
        primitive v = true →
        getattr h' new_import k = Some v ∧ getattr h' 1 k = Some v.
Proof.
  apply (split_import_keeps_fields example_parents 1 3 example_from_tree 0
           import_from_obj [2; 3; 4]); try (vm_compute; reflexivity).
  apply list_elem_of_further, list_elem_of_here.
Defined.

(** X3: the alias is moved, not copied: the [names] of the new node hold
    the alias object itself, and this object is unchanged. *)
Theorem split_import_shares_alias sc node alias h p o names :
  sc !! node = Some (Some p) →
  h !! node = Some o →
  flat h o = true →
  getattr h node "names" = Some (VList names) →
  alias ∈ names →
  list_valued h (Some p) = true →
  existsb (in_block h (Some p) node) candidates = true →
  ∃ new_import h',
    split_import sc node alias h = (Ok new_import, h')
    ∧ getattr h' new_import "names" = Some (VList [alias])
    ∧ is_Some (h !! alias)
    ∧ h' !! alias = h !! alias.
Proof.
  intros Hsc Hnode Hflat Hnames Halias Hlists Hin.
  destruct (split_import_run _ _ _ _ _ _ _ Hsc Hnode Hflat Hnames Halias Hlists Hin)
    as (y & h1 & d & a & pre & post & npre & npost
        & Hfind & Hls & Hpre & -> & Hrem & Hy & Hag & Hy1 & Hd & Hrun).
  exists y. eexists. split; [exact Hrun|].
  assert (is_leaf h alias = true) as Hleaf.
  { unfold getattr in Hnames. rewrite Hnode in Hnames. simpl in Hnames.
    pose proof (assoc_flat _ _ _ _ Hflat Hnames) as Hleaves. simpl in Hleaves.
    rewrite forallb_forall in Hleaves. by apply Hleaves, list_elem_of_In. }
  assert (is_Some (h !! alias)) as Halloc.
  { unfold is_leaf in Hleaf. destruct (h !! alias); [eauto|done]. }
  assert (alias ≠ node) as Han.
  { intros ->. by eapply leaf_no_list. }
  assert (alias ≠ p) as Hap.
  { intros ->. by eapply leaf_no_list. }
  assert (alias ≠ y) as Hay.
  { intros ->. destruct Halloc. congruence. }
  assert (y ≠ node) as Hyn by (intros ->; congruence).
  assert (y ≠ p) as Hyp.
  { intros ->. unfold getattr in Hls. by rewrite Hy in Hls. }
  split_and!; [|done|].
  - rewrite !getattr_setattr_ne by auto.
    apply getattr_setattr_eq. eauto.
  - rewrite !lookup_setattr_ne by done. by apply Hag.
Qed.

Lemma split_import_shares_alias_witness :
  ∃ new_import h',
    split_import example_parents 1 3 example_tree = (Ok new_import, h')
    ∧ getattr h' new_import "names" = Some (VList [3])
    ∧ is_Some (example_tree !! 3)
    ∧ h' !! 3 = example_tree !! 3.
Proof.
  apply (split_import_shares_alias example_parents 1 3 example_tree 0
           import_obj [2; 3; 4]); try (vm_compute; reflexivity).
  apply list_elem_of_further, list_elem_of_here.
Defined.

(** X4: when the alias is not in [node.names], [split_import] raises
    [ValueError] (from [list.remove]), after it has copied the node; the
    objects of the tree are unchanged, the parent's list included. *)
Theorem split_import_alias_missing sc node alias h p o names :
  sc !! node = Some (Some p) →
  h !! node = Some o →
  flat h o = true →
  getattr h node "names" = Some (VList names) →
  (alias ∉ names) →
  list_valued h (Some p) = true →
  existsb (in_block h (Some p) node) candidates = true →
  ∃ h', split_import sc node alias h = (Raise ValueError, h') ∧ agree h h'.
Proof.
  intros Hsc Hnode Hflat Hnames Halias Hlists Hin.
  destruct (find_parent_list_found h (Some p) node candidates Hlists Hin)
    as (a & ls & Hfind & Ha & Hls & Hnode_in).
  simpl in Hls.
  destruct (index_spec node ls Hnode_in) as (pre & post & -> & Hpre & Hidx).
  destruct (deepcopy_flat h node o Hnode Hflat)
    as (y & h1 & d & Hcopy & Hy & Hag & Hy1 & Hd).
  assert (y ≠ node) as Hyn by (intros ->; congruence).
  set (h2 := setattr y "names" (VList [alias]) h1).
  assert (getattr h2 node "names" = Some (VList names)) as Hn2.
  { unfold h2. rewrite getattr_setattr_ne by auto.
    unfold getattr in *. rewrite Hag by eauto. done. }
  assert (split_import sc node alias h = (Raise ValueError, h2)) as Hrun.
  { unfold split_import.
    erewrite bind_Ok by (unfold parent; rewrite Hsc; reflexivity).
    erewrite bind_Ok by reflexivity.
    erewrite bind_Ok by (unfold lift; rewrite Hfind; reflexivity).
    erewrite bind_Ok by (cbn [mbind option_bind]; rewrite Hls; reflexivity).
    erewrite bind_Ok by (rewrite Hidx; reflexivity).
    erewrite bind_Ok by exact Hcopy.
    erewrite bind_Ok by reflexivity.
    erewrite bind_Ok by reflexivity.
    erewrite bind_Ok by (fold h2; rewrite Hn2; reflexivity).
    erewrite bind_Raise; [reflexivity|].
    by rewrite remove_None. }
  exists h2. split; [exact Hrun|].
  by apply agree_setattr_fresh.
Qed.

Lemma split_import_alias_missing_witness :
  ∃ h', split_import example_parents 1 0 example_tree = (Raise ValueError, h')
        ∧ agree example_tree h'.
Proof.
  apply (split_import_alias_missing example_parents 1 0 example_tree 0
           import_obj [2; 3; 4]); try (vm_compute; reflexivity).
  apply (bool_decide_eq_true_1 (0 ∉ [2; 3; 4])). vm_compute. reflexivity.
Defined.

(** The first of the three attributes that the parent has and that is not a
    list makes the membership test fail. *)
Lemma find_parent_list_not_a_list h p node pre a rest v :
  Forall (λ a', in_block h (Some p) node a' = false
                ∧ match getattr h p a' with
                  | Some (VList _) | None => True
                  | Some _ => False
                  end) pre →
  getattr h p a = Some v →
  (∀ ls, v ≠ VList ls) →
  find_parent_list h (Some p) node (pre ++ a :: rest) = Raise TypeError.
Proof.
  intros Hpre Ha Hv. induction Hpre as [|a' pre [Hout Hlist] _ IH]; simpl.
  - rewrite Ha. destruct v; try done. by destruct (Hv ls).
  - unfold in_block in Hout. simpl in Hout.
    destruct (getattr h p a') as [w|]; [|done].
    destruct w; try done. simpl. by rewrite Hout.
Qed.

(** X5: when the first of [body], [orelse], [finalbody] that the parent
    has and that is not a list without [node] holds something that is not a
    list at all, the membership test raises [TypeError]; the store is
    unchanged. *)
Theorem split_import_block_not_a_list sc node alias h p pre a rest v :
  sc !! node = Some (Some p) →
  candidates = pre ++ (a :: rest) →
  Forall (λ a', in_block h (Some p) node a' = false
                ∧ match getattr h p a' with
                  | Some (VList _) | None => True
                  | Some _ => False
                  end) pre →
  getattr h p a = Some v →
  (∀ ls, v ≠ VList ls) →
  split_import sc node alias h = (Raise TypeError, h).
Proof.
  intros Hsc Hcand Hpre Ha Hv. unfold split_import.
  erewrite bind_Ok by (unfold parent; rewrite Hsc; reflexivity).
  erewrite bind_Ok by reflexivity.
  erewrite bind_Raise; [reflexivity|].
  unfold lift. f_equal. rewrite Hcand.
  by apply (find_parent_list_not_a_list h p node pre a rest v).
Qed.

Lemma split_import_block_not_a_list_witness :
  split_import example_lambda_parents 1 2 example_lambda_tree
  = (Raise TypeError, example_lambda_tree).
Proof.
  apply (split_import_block_not_a_list example_lambda_parents 1 2
           example_lambda_tree 0 [] "body" ["orelse"; "finalbody"] (VRef 1)).
  - reflexivity.
  - reflexivity.
  - constructor.
  - vm_compute. reflexivity.
  - intros ls. discriminate.
Defined.

Lemma split_import_fresh sc node alias h y h' :
  split_import sc node alias h = (Ok y, h') → h !! y = None.
Proof.
  unfold split_import, parent.
  destruct (sc !! node) as [p|]; [|by intros [=]].
  erewrite bind_Ok by reflexivity. erewrite bind_Ok by reflexivity.
  destruct (find_parent_list h p node candidates) as [a|e'] eqn:Hfind.
  2:{ erewrite bind_Raise by reflexivity. by intros [=]. }
  erewrite bind_Ok by reflexivity.
  destruct (find_parent_list_Ok _ _ _ _ _ Hfind) as (ls & Hls & Hin).
  erewrite bind_Ok by (rewrite Hls; reflexivity).
  destruct (index_spec node ls Hin) as (pre & post & -> & Hpre & Hidx).
  erewrite bind_Ok by (rewrite Hidx; reflexivity).
  destruct (deepcopy node h) as [[y'|e'] h1] eqn:Hcopy.
  2:{ erewrite bind_Raise by exact Hcopy. by intros [=]. }
  erewrite bind_Ok by exact Hcopy.
  erewrite bind_Ok by reflexivity. erewrite bind_Ok by reflexivity.
  set (h2 := setattr y' "names" (VList [alias]) h1) in *.
  destruct (getattr h2 node "names") as [v|]; [|by intros [=]].
  destruct v as [| | | |names]; try by intros [=].
  erewrite bind_Ok by reflexivity.
  destruct (remove alias names) as [names'|] eqn:Hrem; [|by intros [=]].
  intros [= <- _]. by eapply deepcopy_fresh.
Qed.

(** X6: [split_import] does not enter the new node in the parent index:
    with an index that knows only nodes of the tree it was computed on, a
    call on the node a first call returned raises [KeyError]. *)
Theorem split_import_index_stale sc node alias h new_import h' alias' :
  (∀ l, is_Some (sc !! l) → is_Some (h !! l)) →
  split_import sc node alias h = (Ok new_import, h') →
  split_import sc new_import alias' h' = (Raise KeyError, h').
Proof.
  intros Hdom Hrun. apply split_import_fresh in Hrun.
  unfold split_import, parent.
  destruct (sc !! new_import) as [p|] eqn:Hsc; [|done].
  destruct (Hdom new_import) as [o Ho]; [eauto|]. congruence.
Qed.

Lemma split_import_index_stale_witness :
  split_import example_parents 5 3
    (split_import example_parents 1 3 example_tree).2
  = (Raise KeyError, (split_import example_parents 1 3 example_tree).2).
Proof.
  apply (split_import_index_stale example_parents 1 3 example_tree 5).
  - assert (dom example_parents ⊆ dom example_tree) as Hsub.
    { apply (bool_decide_eq_true_1 (dom example_parents ⊆ dom example_tree)).
      vm_compute. reflexivity. }
    intros l Hl%elem_of_dom. apply elem_of_dom. exact (Hsub l Hl).
  - vm_compute. reflexivity.
Defined.

(** *** Two calls in a row *)

Lemma first_occurrence_unique (x : loc) pre post pre' post' :
  pre ++ (x :: post) = pre' ++ (x :: post') → (x ∉ pre) → (x ∉ pre') →
  pre = pre' ∧ post = post'.
Proof.
  revert pre'. induction pre as [|y pre IH]; intros [|y' pre']; simpl.
  - by intros [= ->].
  - intros [= <- _] _ Hx. destruct Hx. apply elem_of_cons; auto.
  - intros [= -> _] Hx. destruct Hx. apply elem_of_cons; auto.
  - intros [= -> Heq]. rewrite !not_elem_of_cons. intros [_ Hx] [_ Hx'].
    destruct (IH pre' Heq Hx Hx') as [-> ->]. done.
Qed.

Lemma remove_other (x y : loc) ls ls' :
  remove x ls = Some ls' → y ∈ ls → y ≠ x → y ∈ ls'.
Proof.
  revert ls'. induction ls as [|z ls IH]; intros ls'; simpl; [done|].
  destruct (decide (z = x)) as [->|Hzx].
  - intros [= <-]. rewrite elem_of_cons. intros [->|?]; done.
  - destruct (remove x ls) as [r|]; [|done]. simpl. intros [= <-].
    rewrite !elem_of_cons. intros [->|Hin] Hyx; [auto|]. right. by apply (IH r).
Qed.

Lemma remove_subset (x y : loc) ls ls' :
  remove x ls = Some ls' → y ∈ ls' → y ∈ ls.
Proof.
  revert ls'. induction ls as [|z ls IH]; intros ls'; simpl; [done|].
  destruct (decide (z = x)) as [->|Hzx].
  - intros [= <-] Hy. apply elem_of_cons; auto.
  - destruct (remove x ls) as [r|]; [|done]. simpl. intros [= <-].
    rewrite !elem_of_cons. intros [->|Hin]; [auto|]. right. by apply (IH r).
Qed.

(** Changing the block [a] of the parent to another list with [node] in it
    does not change which block is found. *)
Lemma find_parent_list_stable h h' p node names a ls' :
  find_parent_list h (Some p) node names = Ok a →
  (∀ a', a' ≠ a → getattr h' p a' = getattr h p a') →
  getattr h' p a = Some (VList ls') → node ∈ ls' →
  find_parent_list h' (Some p) node names = Ok a.
Proof.
  intros Hfind Hother Ha Hin. induction names as [|a' names IH]; [done|].
  revert Hfind. simpl. destruct (decide (a' = a)) as [->|Hne].
  - intros _. rewrite Ha. simpl. by rewrite bool_decide_eq_true_2.
  - rewrite Hother by done.
    destruct (getattr h p a') as [v|]; [|done].
    destruct (contains v node) as [[|]|]; done.
Qed.

Lemma flat_assoc_set (P : pyval → bool) k v d :
  forallb (λ kv, P kv.2) d = true → P v = true →
  forallb (λ kv, P kv.2) (assoc_set k v d) = true.
Proof.
  intros Hd Hv. induction d as [|[k' w] d IH]; simpl in *.
  - by rewrite Hv.
  - apply andb_prop in Hd as [Hw Hd].
    destruct (decide (k' = k)); simpl; rewrite ?Hv, ?Hw, ?Hd, ?IH; done.
Qed.

Lemma forallb_impl {A} (P Q : A → bool) xs :
  (∀ x, P x = true → Q x = true) →
  forallb P xs = true → forallb Q xs = true.
Proof.
  intros HPQ. rewrite !forallb_forall. auto.
Qed.

Lemma split_import_again sc node alias h p o names :
  sc !! node = Some (Some p) →
  h !! node = Some o →
  flat h o = true →
  getattr h node "names" = Some (VList names) →
  alias ∈ names →
  list_valued h (Some p) = true →
  existsb (in_block h (Some p) node) candidates = true →
  ∃ y h' o' a pre post names',
    split_import sc node alias h = (Ok y, h')
    ∧ getattr h p a = Some (VList (pre ++ (node :: post)))
    ∧ (node ∉ pre)
    ∧ remove alias names = Some names'
    ∧ h' !! node = Some o'
    ∧ flat h' o' = true
    ∧ getattr h' node "names" = Some (VList names')
    ∧ list_valued h' (Some p) = true
    ∧ in_block h' (Some p) node a = true
    ∧ a ∈ candidates
    ∧ getattr h' p a = Some (VList (pre ++ (node :: y :: post)))
    ∧ getattr h' y "names" = Some (VList [alias])
    ∧ h !! y = None
    ∧ (y ≠ node) ∧ (y ≠ p)
    ∧ (∀ l, is_Some (h !! l) → l ≠ node → l ≠ p → h' !! l = h !! l)
    ∧ find_parent_list h (Some p) node candidates = Ok a
    ∧ find_parent_list h' (Some p) node candidates = Ok a.
Proof.
  intros Hsc Hnode Hflat Hnames Halias Hlists Hin.
  destruct (split_import_run _ _ _ _ _ _ _ Hsc Hnode Hflat Hnames Halias Hlists Hin)
    as (y & h1 & d & a & pre & post & npre & npost
        & Hfind & Hls & Hpre & -> & Hrem & Hy & Hag & Hy1 & Hd & Hrun).
  assert (node ∈ pre ++ (node :: post)) as Hnode_in.
  { apply elem_of_app. right. apply elem_of_cons; auto. }
  assert (p ≠ node) as Hpn by (by eapply parent_not_node).
  assert (y ≠ node) as Hyn by (intros ->; congruence).
  assert (is_Some (h !! p)) as Hp.
  { unfold getattr in Hls. destruct (h !! p); [eauto|done]. }
  assert (y ≠ p) as Hyp by (intros ->; destruct Hp; congruence).
  pose proof (find_parent_list_candidate _ _ _ _ _ Hfind) as Ha.
  pose proof (candidates_not_names _ Ha) as Han.
  set (h2 := setattr y "names" (VList [alias]) h1) in *.
  set (h3 := setattr node "names" (VList (npre ++ npost)) h2) in *.
  set (h4 := setattr p a (VList (pre ++ (node :: y :: post))) h3) in *.
  assert (h2 !! node = Some o) as Hnode2.
  { unfold h2. rewrite lookup_setattr_ne by done. rewrite Hag by eauto. done. }
  assert (∀ l, is_Some (h !! l) → l ≠ node → l ≠ p → h4 !! l = h !! l) as Hframe.
  { intros l Hl Hln Hlp. unfold h4, h3, h2.
    rewrite !lookup_setattr_ne by (try done; intros ->; destruct Hl; congruence).
    by apply Hag. }
  assert (∀ c, is_leaf h c = true → is_leaf h4 c = true) as Hleaf.
  { intros c Hc. unfold is_leaf. rewrite Hframe; [done| | |].
    - unfold is_leaf in Hc. destruct (h !! c); [eauto|done].
    - intros ->. by eapply leaf_no_list.
    - intros ->. by eapply leaf_no_list. }
  assert (getattr h4 p a = Some (VList (pre ++ (node :: y :: post)))) as Hls4.
  { unfold h4. apply getattr_setattr_eq.
    unfold h3, h2, setattr.
    repeat (case_match; rewrite ?lookup_insert_is_Some');
      rewrite ?Hag by done; eauto. }
  assert (∀ a', a' ≠ a → getattr h4 p a' = getattr h p a') as Hother.
  { intros a' Ha'. unfold h4, h3, h2. rewrite !getattr_setattr_ne by auto.
    unfold getattr. by rewrite Hag. }
  exists y, h4, (Obj (cls o) (assoc_set "names" (VList (npre ++ npost)) (attrs o))),
    a, pre, post, (npre ++ npost).
  split_and!; try done.
  - unfold h4. rewrite lookup_setattr_ne by done.
    unfold h3, setattr. rewrite Hnode2. by rewrite lookup_insert_eq.
  - unfold flat. cbn [attrs].
    apply (flat_assoc_set (λ v, forallb (is_leaf h4) (children v))).
    + revert Hflat. unfold flat. apply forallb_impl. intros [k v].
      simpl. by apply forallb_impl.
    + simpl. unfold getattr in Hnames. rewrite Hnode in Hnames. simpl in Hnames.
      pose proof (assoc_flat _ _ _ _ Hflat Hnames) as Hleaves.
      simpl in Hleaves. rewrite forallb_forall in Hleaves.
      apply forallb_forall. intros c Hc. apply Hleaf, Hleaves.
      apply list_elem_of_In in Hc. apply list_elem_of_In.
      by eapply remove_subset.
  - unfold h4. rewrite getattr_setattr_ne by auto.
    unfold h3. apply getattr_setattr_eq. eauto.
  - revert Hlists. unfold list_valued. apply forallb_impl. intros a'. simpl.
    destruct (decide (a' = a)) as [->|Hne]; [by rewrite Hls4|].
    by rewrite Hother.
  - unfold in_block. simpl. rewrite Hls4. apply bool_decide_eq_true_2.
    apply elem_of_app. right. apply elem_of_cons; auto.
  - unfold h4, h3. rewrite !getattr_setattr_ne by auto.
    unfold h2. apply getattr_setattr_eq. eauto.
  - eapply find_parent_list_stable; [exact Hfind|exact Hother|exact Hls4|].
    apply elem_of_app. right. apply elem_of_cons; auto.
Qed.

(** X7: two calls on the same node, for two of its aliases
    ([test_split_imports_multiple]): both return; the second new node is
    inserted right after [node], before the first new node; [node.names]
    loses both aliases; each new node holds its alias. *)
Theorem split_import_twice sc node alias1 alias2 h p o names :
  sc !! node = Some (Some p) →
  h !! node = Some o →
  flat h o = true →
  getattr h node "names" = Some (VList names) →
  alias1 ∈ names →
  alias2 ∈ names →
  alias1 ≠ alias2 →
  list_valued h (Some p) = true →
  existsb (in_block h (Some p) node) candidates = true →
  ∃ new1 h1 new2 h2 a pre post names1 names2,
    split_import sc node alias1 h = (Ok new1, h1)
    ∧ split_import sc node alias2 h1 = (Ok new2, h2)
    ∧ new1 ≠ new2
    ∧ getattr h p a = Some (VList (pre ++ (node :: post)))
    ∧ getattr h2 p a = Some (VList (pre ++ (node :: new2 :: new1 :: post)))
    ∧ remove alias1 names = Some names1
    ∧ remove alias2 names1 = Some names2
    ∧ getattr h2 node "names" = Some (VList names2)
    ∧ getattr h2 new1 "names" = Some (VList [alias1])
    ∧ getattr h2 new2 "names" = Some (VList [alias2]).
Proof.
  intros Hsc Hnode Hflat Hnames Halias1 Halias2 Hne Hlists Hin.
  destruct (split_import_again _ _ _ _ _ _ _ Hsc Hnode Hflat Hnames Halias1 Hlists Hin)
    as (y1 & h1 & o1 & a & pre & post & names1 & Hrun1 & Hls & Hpre & Hrem1
        & Hnode1 & Hflat1 & Hnames1 & Hlists1 & Hblock1 & Ha & Hls1 & Hy1names
        & Hy1 & Hy1n & Hy1p & Hframe1 & Hfind & Hfind1).
  assert (alias2 ∈ names1) as Halias2' by (by eapply remove_other).
  assert (existsb (in_block h1 (Some p) node) candidates = true) as Hin1.
  { apply existsb_exists. exists a. split; [by apply list_elem_of_In|done]. }
  destruct (split_import_again _ _ _ _ _ _ _ Hsc Hnode1 Hflat1 Hnames1 Halias2' Hlists1 Hin1)
    as (y2 & h2 & o2 & a2 & pre2 & post2 & names2 & Hrun2 & Hls2 & Hpre2 & Hrem2
        & Hnode2 & Hflat2 & Hnames2 & Hlists2 & Hblock2 & Ha2 & Hls2' & Hy2names
        & Hy2 & Hy2n & Hy2p & Hframe2 & Hfind1' & Hfind2).
  assert (a2 = a) as -> by congruence.
  rewrite Hls1 in Hls2. injection Hls2 as Hls2.
  destruct (first_occurrence_unique _ _ _ _ _ Hls2 Hpre Hpre2) as [<- <-].
  assert (is_Some (h1 !! y1)) as Hy1alloc.
  { unfold getattr in Hy1names. destruct (h1 !! y1); [eauto|done]. }
  assert (y1 ≠ y2) as Hy12 by (intros ->; destruct Hy1alloc; congruence).
  exists y1, h1, y2, h2, a, pre, post, names1, names2.
  split_and!; try done.
  unfold getattr. rewrite Hframe2 by done. exact Hy1names.
Qed.

Lemma split_import_twice_witness :
  ∃ new1 h1 new2 h2 a pre post names1 names2,
    split_import example_parents 1 3 example_tree = (Ok new1, h1)
    ∧ split_import example_parents 1 4 h1 = (Ok new2, h2)
    ∧ new1 ≠ new2
    ∧ getattr example_tree 0 a = Some (VList (pre ++ (1 :: post)))
    ∧ getattr h2 0 a = Some (VList (pre ++ (1 :: new2 :: new1 :: post)))
    ∧ remove 3 [2; 3; 4] = Some names1
    ∧ remove 4 names1 = Some names2
    ∧ getattr h2 1 "names" = Some (VList names2)
    ∧ getattr h2 new1 "names" = Some (VList [3])
    ∧ getattr h2 new2 "names" = Some (VList [4]).
Proof.
  apply (split_import_twice example_parents 1 3 4 example_tree 0 import_obj
           [2; 3; 4]); try (vm_compute; reflexivity).
  - apply list_elem_of_further, list_elem_of_here.
  - do 2 apply list_elem_of_further. apply list_elem_of_here.
  - lia.
Defined.

End ImportUtils.

(** ** Syntax trees *)

Scheme All for list.

Module ast.

Inductive expr_context := Load | Store | Del | AugLoad | AugStore | Param.

(** A context object; the parser shares one object per kind. *)
Record ctx_node := Ctx { ctx_id : loc; ctx_kind : expr_context }.

Inductive expr :=
| Name (id : loc) (ident : string) (ctx : ctx_node)
| Num (id : loc) (n : Z)
| Str (id : loc) (s : string)
| Repr (id : loc) (value : expr)
| Attribute (id : loc) (value : expr) (attr : string) (ctx : ctx_node).

Record alias := Alias { alias_id : loc; name : string; asname : option string }.

Record arg := Arg { arg_id : loc; arg_name : string; annotation : option expr }.

(** [kwonlyargs] and [kw_defaults] are the keyword-only parameters of
    Python 3 and their defaults. *)
Record arguments := Arguments {
  arguments_id : loc;
  args : list arg;
  vararg : option arg;
  kwarg : option arg;
  defaults : list expr;
  kwonlyargs : list arg;
  kw_defaults : list (option expr) }.

Inductive stmt :=
| Import (id : loc) (names : list alias)
| ImportFrom (id : loc) (module : option string) (names : list alias)
    (level : nat)
| Expr (id : loc) (value : expr)
| Assign (id : loc) (targets : list expr) (value : expr)
| If (id : loc) (test : expr) (body orelse : list stmt)
| While (id : loc) (test : expr) (body orelse : list stmt)
| Pass (id : loc)
| Return (id : loc) (value : option expr)
| FunctionDef (id : loc) (name : string) (args : arguments)
    (body : list stmt) (decorator_list : list expr) (returns : option expr)
| ClassDef (id : loc) (name : string) (bases : list expr)
    (body : list stmt) (decorator_list : list expr).

Record Module := Mod { module_id : loc; body : list stmt }.

End ast.

(** ** scope.py *)

Module Scope.

(** A [Name] object.  [attrs] maps an attribute to another [Name] object,
    given by its index in the store of names. *)
Record Name := mkName {
  id : string;
  definition : option loc;
  reads : list loc;
  attrs : gmap string nat }.

(** The state of a [ScopeVisitor].  The visitor only ever holds the chain
    from its current scope to the root scope, so the chain is kept as a
    stack: [scopes] are the [names] tables of the scopes below the root,
    innermost first; [names], [external_references], [_parents] and
    [_nodes_to_names] are the fields of the [RootScope]; [_parent] is the
    visitor's own field. *)
Record state := mkState {
  name_objs : list Name;
  scopes : list (gmap string nat);
  names : gmap string nat;
  external_references : gmap string (list loc);
  _parents : gmap loc (option loc);
  _nodes_to_names : gmap loc nat;
  _parent : option loc }.

Definition set_name_objs (f : list Name → list Name) (st : state) : state :=
  mkState (f (name_objs st)) (scopes st) (names st) (external_references st)
    (_parents st) (_nodes_to_names st) (_parent st).
Definition set_scopes (f : list (gmap string nat) → list (gmap string nat))
    (st : state) : state :=
  mkState (name_objs st) (f (scopes st)) (names st) (external_references st)
    (_parents st) (_nodes_to_names st) (_parent st).
Definition set_names (f : gmap string nat → gmap string nat) (st : state)
  : state :=
  mkState (name_objs st) (scopes st) (f (names st)) (external_references st)
    (_parents st) (_nodes_to_names st) (_parent st).
Definition set_external_references
    (f : gmap string (list loc) → gmap string (list loc)) (st : state)
  : state :=
  mkState (name_objs st) (scopes st) (names st) (f (external_references st))
    (_parents st) (_nodes_to_names st) (_parent st).
Definition set__parents (f : gmap loc (option loc) → gmap loc (option loc))
    (st : state) : state :=
  mkState (name_objs st) (scopes st) (names st) (external_references st)
    (f (_parents st)) (_nodes_to_names st) (_parent st).
Definition set__nodes_to_names (f : gmap loc nat → gmap loc nat) (st : state)
  : state :=
  mkState (name_objs st) (scopes st) (names st) (external_references st)
    (_parents st) (f (_nodes_to_names st)) (_parent st).
Definition set__parent (p : option loc) (st : state) : state :=
  mkState (name_objs st) (scopes st) (names st) (external_references st)
    (_parents st) (_nodes_to_names st) p.

(** [ScopeVisitor.__init__] *)
Definition init : state := mkState [] [] ∅ ∅ ∅ ∅ None.

(** *** class Name *)

(** [Name(id)]: a new object, returned by its index. *)
Definition new_Name (id : string) : M state nat :=
  st ← get;
  modify (set_name_objs (λ ns, ns ++ [mkName id None [] ∅]));;
  mret (length (name_objs st)).

Definition add_reference (node : loc) (n : Name) : Name :=
  mkName (id n) (definition n) (reads n ++ [node]) (attrs n).

Definition define (node : loc) (n : Name) : Name :=
  match definition n with
  | Some _ => mkName (id n) (definition n) (reads n ++ [node]) (attrs n)
  | None => mkName (id n) (Some node) (reads n) (attrs n)
  end.

Definition Name_add_reference (self : nat) (node : loc) : M state unit :=
  modify (set_name_objs (alter (add_reference node) self)).

Definition Name_define (self : nat) (node : loc) : M state unit :=
  modify (set_name_objs (alter (define node) self)).

Definition Name_lookup_name (self : nat) (name : string) : M state nat :=
  st ← get;
  match name_objs st !! self ≫= (λ n, attrs n !! name) with
  | Some name_obj => mret name_obj
  | None =>
      name_obj ← new_Name name;
      modify (set_name_objs (alter (λ n,
        mkName (id n) (definition n) (reads n) (<[name := name_obj]> (attrs n)))
        self));;
      mret name_obj
  end.

(** *** class Scope, class RootScope *)

(** [self.names[name] = name_obj] on the current scope. *)
Definition bind_current (name : string) (name_obj : nat) (st : state) : state :=
  match scopes st with
  | [] => set_names <[name := name_obj]> st
  | sc :: rest => set_scopes (λ _, <[name := name_obj]> sc :: rest) st
  end.

Definition current_names (st : state) : gmap string nat :=
  match scopes st with
  | [] => names st
  | sc :: _ => sc
  end.

Definition define_name (name : string) (node : loc) : M state nat :=
  st ← get;
  name_obj ← match current_names st !! name with
             | Some name_obj => mret name_obj
             | None =>
                 name_obj ← new_Name name;
                 modify (bind_current name name_obj);;
                 mret name_obj
             end;
  Name_define name_obj node;;
  mret name_obj.

(** [Scope.lookup_name], called on the scope whose chain to the root is
    [chain]; the empty chain is the root scope itself, the one scope whose
    [parent_scope] is [None]. *)
Fixpoint Scope_lookup_name (chain : list (gmap string nat)) (name : string)
  : M state nat :=
  match chain with
  | self :: parent_scope =>
      match self !! name with
      | Some name_obj => mret name_obj
      | None => Scope_lookup_name parent_scope name
      end
  | [] =>
      st ← get;
      match names st !! name with
      | Some name_obj => mret name_obj
      | None =>
          name_obj ← new_Name name;
          modify (set_names <[name := name_obj]>);;
          mret name_obj
      end
  end.

Definition lookup_name (name : string) : M state nat :=
  st ← get; Scope_lookup_name (scopes st) name.

(** [RootScope.add_external_reference]; [Scope.add_external_reference]
    passes the call up to the root. *)
Definition names_to_add (name : string) (packages : bool) : list string :=
  name ::
  (if packages then
     let parts := split "."%char name in
     (λ i, join "." (take i parts)) <$> seq 1 (length parts - 1)
   else []).

Definition append_reference (node : loc) (refs : gmap string (list loc))
    (n : string) : gmap string (list loc) :=
  match refs !! n with
  | Some l => <[n := l ++ [node]]> refs
  | None => <[n := [node]]> refs
  end.

Definition add_external_reference (name : string) (node : loc)
    (packages : bool) : M state unit :=
  modify (set_external_references (λ refs,
    foldl (append_reference node) refs (names_to_add name packages))).

Definition set_parent (node : loc) (parent : option loc) : M state unit :=
  modify (set__parents <[node := parent]>).

Definition get_name_for_node (node : loc) : M state (option nat) :=
  st ← get; mret (_nodes_to_names st !! node).

Definition set_name_for_node (node : loc) (name : nat) : M state unit :=
  modify (set__nodes_to_names <[node := name]>).

(** [RootScope.parent] *)
Definition parent (st : state) (node : loc) : result (option loc) :=
  match _parents st !! node with
  | Some p => Ok p
  | None => Raise KeyError
  end.

(** *** class ScopeVisitor *)

(** [ScopeVisitor.visit] for a node that is not [None]; [dispatch] is the
    method [ast.NodeVisitor.visit] selects for the class of the node. *)
Definition visit (node : loc) (dispatch : M state unit) : M state unit :=
  st ← get;
  set_parent node (_parent st);;
  let tmp := _parent st in
  modify (set__parent (Some node));;
  dispatch;;
  modify (set__parent tmp).

(** Truth value of a string or [None]. *)
Definition truthy (s : option string) : bool :=
  match s with
  | Some s => negb (bool_decide (s = EmptyString))
  | None => false
  end.

(** A context node has no fields: [generic_visit] does nothing. *)
Definition visit_ctx (c : ast.ctx_node) : M state unit :=
  visit (ast.ctx_id c) (mret tt).

Definition visit_Name (node : loc) (ident : string) (ctx : ast.ctx_node)
  : M state unit :=
  match ast.ctx_kind ctx with
  | ast.Store | ast.Param => define_name ident node;; mret tt
  | ast.Load =>
      name ← lookup_name ident;
      Name_add_reference name node;;
      name ← lookup_name ident;
      set_name_for_node node name
  | _ => mret tt
  end;;
  visit_ctx ctx.

Definition expr_id (e : ast.expr) : loc :=
  match e with
  | ast.Name i _ _ | ast.Num i _ | ast.Str i _ | ast.Repr i _
  | ast.Attribute i _ _ _ => i
  end.

Section visit_expr.
Variable visit_expr : ast.expr → M state unit.

Definition visit_Attribute (node : loc) (value : ast.expr) (attr : string)
    (ctx : ast.ctx_node) : M state unit :=
  (visit_expr value;; visit_ctx ctx);;
  node_value_name ← get_name_for_node (expr_id value);
  match node_value_name with
  | Some node_value_name =>
      node_name ← Name_lookup_name node_value_name attr;
      set_name_for_node node node_name;;
      Name_add_reference node_name node
  | None => mret tt
  end.
End visit_expr.

Fixpoint visit_expr (e : ast.expr) : M state unit :=
  match e with
  | ast.Name i ident ctx => visit i (visit_Name i ident ctx)
  | ast.Num i _ => visit i (mret tt)
  | ast.Str i _ => visit i (mret tt)
  | ast.Repr i value => visit i (visit_expr value)
  | ast.Attribute i value attr ctx =>
      visit i (visit_Attribute visit_expr i value attr ctx)
  end.

(** [self.visit(val)] for a field that holds a node or [None]. *)
Definition visit_opt {A} (visit_A : A → M state unit) (val : option A)
  : M state unit :=
  match val with
  | Some node => visit_A node
  | None => mret tt
  end.

Definition visit_alias (alias : ast.alias) : M state unit :=
  visit (ast.alias_id alias) (mret tt).

Definition visit_arg (node : ast.arg) : M state unit :=
  visit (ast.arg_id node)
    (define_name (ast.arg_name node) (ast.arg_id node);;
     visit_opt visit_expr (ast.annotation node)).

(** [visit_in_order] runs each attribute under [try ... except
    AttributeError: pass]. *)
Definition visit_arguments (node : ast.arguments) : M state unit :=
  visit (ast.arguments_id node)
    (try_except_pass AttributeError (for_each visit_expr (ast.defaults node));;
     try_except_pass AttributeError (for_each visit_arg (ast.args node));;
     try_except_pass AttributeError (visit_opt visit_arg (ast.vararg node));;
     try_except_pass AttributeError (visit_opt visit_arg (ast.kwarg node))).

(** The loop over [name_parts[1:]] of [visit_Import]. *)
Fixpoint define_submodules (cur_name : nat) (parts : list string) (alias : loc)
  : M state unit :=
  match parts with
  | [] => mret tt
  | part :: parts' =>
      cur_name ← Name_lookup_name cur_name part;
      Name_define cur_name alias;;
      define_submodules cur_name parts' alias
  end.

Definition visit_Import (node : loc) (names : list ast.alias) : M state unit :=
  for_each (λ alias,
    let name_parts := split "."%char (ast.name alias) in
    add_external_reference (ast.name alias) (ast.alias_id alias) true;;
    if negb (truthy (ast.asname alias)) then
      cur_name ← define_name (hd EmptyString name_parts) (ast.alias_id alias);
      define_submodules cur_name (tl name_parts) (ast.alias_id alias)
    else
      define_name (default EmptyString (ast.asname alias)) (ast.alias_id alias);;
      mret tt) names;;
  for_each visit_alias names.

Definition visit_ImportFrom (node : loc) (module : option string)
    (names : list ast.alias) : M state unit :=
  (if truthy module
   then add_external_reference (default EmptyString module) node true
   else mret tt);;
  for_each (λ alias,
    define_name (if truthy (ast.asname alias)
                 then default EmptyString (ast.asname alias)
                 else ast.name alias) (ast.alias_id alias);;
    if truthy module
    then add_external_reference
           (default EmptyString module +:+ "." +:+ ast.name alias)
           (ast.alias_id alias) false
    else mret tt) names;;
  for_each visit_alias names.

(** [self.scope = Scope(self.scope)] and
    [self.scope = self.scope.parent_scope]. *)
Definition push_scope : M state unit := modify (set_scopes (λ ss, ∅ :: ss)).
Definition pop_scope : M state unit := modify (set_scopes tail).

Section visit_stmt.
Variable visit_stmt : ast.stmt → M state unit.

Definition visit_FunctionDef (node : loc) (name : string)
    (args : ast.arguments) (body : list ast.stmt)
    (decorator_list : list ast.expr) (returns : option ast.expr)
  : M state unit :=
  try_finally
    (define_name name node;;
     push_scope;;
     try_except_pass AttributeError (for_each visit_expr decorator_list);;
     try_except_pass AttributeError (visit_arguments args);;
     try_except_pass AttributeError (visit_opt visit_expr returns);;
     try_except_pass AttributeError (for_each visit_stmt body))
    pop_scope.

Definition visit_ClassDef (node : loc) (name : string)
    (bases : list ast.expr) (body : list ast.stmt)
    (decorator_list : list ast.expr) : M state unit :=
  try_finally
    (define_name name node;;
     push_scope;;
     for_each visit_expr bases;;
     for_each visit_stmt body;;
     for_each visit_expr decorator_list)
    pop_scope.
End visit_stmt.

(** [ast.NodeVisitor.visit]: the [visit_<class>] method when the visitor
    has one, else [generic_visit], which visits the fields in the order of
    [_fields]. *)
Fixpoint visit_stmt (s : ast.stmt) : M state unit :=
  match s with
  | ast.Import i names => visit i (visit_Import i names)
  | ast.ImportFrom i module names _ => visit i (visit_ImportFrom i module names)
  | ast.Expr i value => visit i (visit_expr value)
  | ast.Assign i targets value =>
      visit i (for_each visit_expr targets;; visit_expr value)
  | ast.If i test body orelse =>
      visit i (visit_expr test;; for_each visit_stmt body;;
               for_each visit_stmt orelse)
  | ast.While i test body orelse =>
      visit i (visit_expr test;; for_each visit_stmt body;;
               for_each visit_stmt orelse)
  | ast.Pass i => visit i (mret tt)
  | ast.Return i value => visit i (visit_opt visit_expr value)
  | ast.FunctionDef i name args body decorator_list returns =>
      visit i (visit_FunctionDef visit_stmt i name args body decorator_list
                 returns)
  | ast.ClassDef i name bases body decorator_list =>
      visit i (visit_ClassDef visit_stmt i name bases body decorator_list)
  end.

Definition visit_Module (tree : ast.Module) : M state unit :=
  visit (ast.module_id tree) (for_each visit_stmt (ast.body tree)).

(** [analyze(tree)]: the visitor's scope after the visit, the root scope. *)
Definition analyze (tree : ast.Module) : result state :=
  match visit_Module tree init with
  | (Ok _, st) => Ok st
  | (Raise e, _) => Raise e
  end.

(** The tree of [import aaa.bbb]: the module is node 0, the [Import]
    statement node 1 and its one alias node 2. *)
Definition import_aaa_bbb : ast.Module :=
  ast.Mod 0 [ast.Import 1 [ast.Alias 2 "aaa.bbb" None]].

(** The external-reference table only grows: a key keeps its list, with
    nodes appended at most. *)
Definition refs_grow (st st' : state) : Prop :=
  ∀ k l, external_references st !! k = Some l →
         ∃ l', external_references st' !! k = Some (l ++ l').

#[local] Instance refs_grow_preorder : PreOrder refs_grow.
Proof.
  split.
  - intros st k l Hk. exists []. by rewrite app_nil_r.
  - intros st1 st2 st3 H12 H23 k l Hk.
    destruct (H12 k l Hk) as [l' Hk2]. destruct (H23 _ _ Hk2) as [l'' Hk3].
    exists (l' ++ l''). by rewrite app_assoc.
Qed.

Lemma refs_grow_same st st' :
  external_references st' = external_references st → refs_grow st st'.
Proof. intros Heq k l Hk. exists []. by rewrite Heq, app_nil_r. Qed.

Lemma append_reference_grows node refs n k l :
  refs !! k = Some l → ∃ l', append_reference node refs n !! k = Some (l ++ l').
Proof.
  intros Hk. unfold append_reference.
  destruct (decide (n = k)) as [->|Hne].
  - rewrite Hk, lookup_insert_eq. eauto.
  - exists []. rewrite app_nil_r.
    destruct (refs !! n); by rewrite lookup_insert_ne.
Qed.

Lemma foldl_append_reference_grows node ns refs k l :
  refs !! k = Some l →
  ∃ l', foldl (append_reference node) refs ns !! k = Some (l ++ l').
Proof.
  revert refs l. induction ns as [|n ns IH]; intros refs l Hk; simpl.
  - exists []. by rewrite app_nil_r.
  - destruct (append_reference_grows node refs n k l Hk) as [l1 H1].
    destruct (IH _ _ H1) as [l2 H2]. exists (l1 ++ l2). by rewrite app_assoc.
Qed.

Lemma append_reference_adds node refs n :
  ∃ l, append_reference node refs n !! n = Some l ∧ node ∈ l.
Proof.
  unfold append_reference. destruct (refs !! n) as [l|].
  - exists (l ++ [node]). rewrite lookup_insert_eq. split; [done|].
    apply elem_of_app. right. apply list_elem_of_here.
  - exists [node]. rewrite lookup_insert_eq. split; [done|].
    apply list_elem_of_here.
Qed.

Lemma foldl_append_reference_adds node ns refs n :
  n ∈ ns →
  ∃ l, foldl (append_reference node) refs ns !! n = Some l ∧ node ∈ l.
Proof.
  intros Hin. revert refs.
  induction Hin as [n ns|n m ns _ IH]; intros refs; simpl; [|apply IH].
  destruct (append_reference_adds node refs n) as (l & Hl & Hnode).
  destruct (foldl_append_reference_grows node ns _ n l Hl) as [l' Hl'].
  exists (l ++ l'). split; [done|]. apply elem_of_app. by left.
Qed.

(** A node is recorded under a key of the table. *)
Definition referenced (key : string) (node : loc) (st : state) : Prop :=
  ∃ l, external_references st !! key = Some l ∧ node ∈ l.

Lemma referenced_grow key node st st' :
  referenced key node st → refs_grow st st' → referenced key node st'.
Proof.
  intros (l & Hl & Hin) Hgrow. destruct (Hgrow _ _ Hl) as [l' Hl'].
  exists (l ++ l'). split; [done|]. apply elem_of_app. by left.
Qed.

Create HintDb preserves.

Ltac preserves_step :=
  first
    [ solve [auto 2 with preserves]
    | apply preserves_ret; tc_solve
    | apply preserves_get; tc_solve
    | apply preserves_bind; [tc_solve| |intros ?]
    | apply preserves_modify; intros ?; apply refs_grow_same; reflexivity
    | apply preserves_try_except_pass
    | apply preserves_try_finally; [tc_solve|..]
    | match goal with
      | |- preserves _ (match ?x with _ => _ end) => destruct x
      end ].

Ltac preserves := repeat preserves_step.

Lemma new_Name_preserves id : preserves refs_grow (new_Name id).
Proof. unfold new_Name. preserves. Qed.
#[local] Hint Resolve new_Name_preserves : preserves.

Lemma Name_add_reference_preserves self node :
  preserves refs_grow (Name_add_reference self node).
Proof. unfold Name_add_reference. preserves. Qed.
#[local] Hint Resolve Name_add_reference_preserves : preserves.

Lemma Name_define_preserves self node :
  preserves refs_grow (Name_define self node).
Proof. unfold Name_define. preserves. Qed.
#[local] Hint Resolve Name_define_preserves : preserves.

Lemma Name_lookup_name_preserves self name :
  preserves refs_grow (Name_lookup_name self name).
Proof. unfold Name_lookup_name. preserves. Qed.
#[local] Hint Resolve Name_lookup_name_preserves : preserves.

Lemma define_name_preserves name node :
  preserves refs_grow (define_name name node).
Proof.
  unfold define_name. preserves.
  apply preserves_modify. intros s. apply refs_grow_same.
  unfold bind_current. by destruct (scopes s).
Qed.
#[local] Hint Resolve define_name_preserves : preserves.

Lemma Scope_lookup_name_preserves chain name :
  preserves refs_grow (Scope_lookup_name chain name).
Proof. induction chain as [|self chain IH]; simpl; preserves. Qed.
#[local] Hint Resolve Scope_lookup_name_preserves : preserves.

Lemma lookup_name_preserves name : preserves refs_grow (lookup_name name).
Proof. unfold lookup_name. preserves. Qed.
#[local] Hint Resolve lookup_name_preserves : preserves.

Lemma add_external_reference_preserves name node packages :
  preserves refs_grow (add_external_reference name node packages).
Proof.
  unfold add_external_reference. apply preserves_modify.
  intros s k l Hk. exact (foldl_append_reference_grows node _ _ k l Hk).
Qed.
#[local] Hint Resolve add_external_reference_preserves : preserves.

Lemma visit_preserves node dispatch :
  preserves refs_grow dispatch → preserves refs_grow (visit node dispatch).
Proof. intros Hd. unfold visit. preserves. Qed.
#[local] Hint Resolve visit_preserves : preserves.

Lemma visit_ctx_preserves c : preserves refs_grow (visit_ctx c).
Proof. apply visit_preserves. preserves. Qed.
#[local] Hint Resolve visit_ctx_preserves : preserves.

Lemma visit_Name_preserves node ident ctx :
  preserves refs_grow (visit_Name node ident ctx).
Proof. unfold visit_Name. preserves. Qed.
#[local] Hint Resolve visit_Name_preserves : preserves.

Lemma visit_expr_preserves e : preserves refs_grow (visit_expr e).
Proof.
  induction e; simpl; apply visit_preserves; try done; preserves.
Qed.
#[local] Hint Resolve visit_expr_preserves : preserves.

Lemma visit_opt_preserves {A} (visit_A : A → M state unit) val :
  (∀ a, preserves refs_grow (visit_A a)) →
  preserves refs_grow (visit_opt visit_A val).
Proof. intros H. destruct val; simpl; [apply H|preserves]. Qed.
#[local] Hint Resolve visit_opt_preserves : preserves.

Lemma for_each_preserves {A} (body : A → M state unit) xs :
  (∀ x, preserves refs_grow (body x)) →
  preserves refs_grow (for_each body xs).
Proof. intros H. apply preserves_for_each; [tc_solve|]. by apply Forall_forall. Qed.
#[local] Hint Resolve for_each_preserves : preserves.

Lemma visit_alias_preserves alias : preserves refs_grow (visit_alias alias).
Proof. apply visit_preserves. preserves. Qed.
#[local] Hint Resolve visit_alias_preserves : preserves.

Lemma visit_arg_preserves node : preserves refs_grow (visit_arg node).
Proof. apply visit_preserves. preserves. Qed.
#[local] Hint Resolve visit_arg_preserves : preserves.

Lemma visit_arguments_preserves node :
  preserves refs_grow (visit_arguments node).
Proof. apply visit_preserves. preserves. Qed.
#[local] Hint Resolve visit_arguments_preserves : preserves.

Lemma define_submodules_preserves cur parts alias :
  preserves refs_grow (define_submodules cur parts alias).
Proof.
  revert cur. induction parts as [|part parts IH]; intros cur; simpl; preserves.
Qed.
#[local] Hint Resolve define_submodules_preserves : preserves.

Lemma visit_Import_preserves node names :
  preserves refs_grow (visit_Import node names).
Proof.
  unfold visit_Import. preserves. apply for_each_preserves. intros alias.
  preserves.
Qed.
#[local] Hint Resolve visit_Import_preserves : preserves.

Lemma visit_ImportFrom_preserves node module names :
  preserves refs_grow (visit_ImportFrom node module names).
Proof.
  unfold visit_ImportFrom. preserves; apply for_each_preserves; intros alias;
    preserves.
Qed.
#[local] Hint Resolve visit_ImportFrom_preserves : preserves.

Lemma list_all_Forall {A} (P : A → Prop) l : list_all A P l → Forall P l.
Proof. induction 1; constructor; auto. Qed.

Lemma visit_stmt_preserves s : preserves refs_grow (visit_stmt s).
Proof.
  induction s;
    repeat match goal with
           | H : list_all _ _ _ |- _ => apply list_all_Forall in H
           end;
    simpl; apply visit_preserves;
    unfold visit_FunctionDef, visit_ClassDef, push_scope, pop_scope; preserves;
    by apply preserves_for_each; [tc_solve|].
Qed.
#[local] Hint Resolve visit_stmt_preserves : preserves.

Lemma visit_Module_preserves tree : preserves refs_grow (visit_Module tree).
Proof. unfold visit_Module. preserves. Qed.

(** *** The names found without creating one *)

Fixpoint lookup_chain (chain : list (gmap string nat)) (name : string)
  : option nat :=
  match chain with
  | [] => None
  | self :: parent_scope =>
      match self !! name with
      | Some name_obj => Some name_obj
      | None => lookup_chain parent_scope name
      end
  end.

Definition resolve (st : state) (name : string) : option nat :=
  match lookup_chain (scopes st) name with
  | Some name_obj => Some name_obj
  | None => names st !! name
  end.

Definition define_at_root (name : string) (st : state) : state :=
  set_names <[name := length (name_objs st)]>
    (set_name_objs (λ ns, ns ++ [mkName name None [] ∅]) st).

Lemma Scope_lookup_name_spec chain name st :
  Scope_lookup_name chain name st =
  match lookup_chain chain name with
  | Some name_obj => (Ok name_obj, st)
  | None =>
      match names st !! name with
      | Some name_obj => (Ok name_obj, st)
      | None => (Ok (length (name_objs st)), define_at_root name st)
      end
  end.
Proof.
  induction chain as [|self chain IH]; simpl.
  - unfold mbind, M_bind, bind, get. simpl. by destruct (names st !! name).
  - by destruct (self !! name).
Qed.

Lemma lookup_name_spec name st :
  lookup_name name st =
  match resolve st name with
  | Some name_obj => (Ok name_obj, st)
  | None => (Ok (length (name_objs st)), define_at_root name st)
  end.
Proof.
  unfold lookup_name, resolve. unfold mbind at 1, M_bind, bind, get. simpl.
  rewrite Scope_lookup_name_spec. by destruct (lookup_chain _ _).
Qed.

Lemma resolve_define_at_root name st :
  resolve st name = None →
  resolve (define_at_root name st) name = Some (length (name_objs st)).
Proof.
  unfold resolve. destruct (lookup_chain (scopes st) name) eqn:Hc; [done|].
  intros _. simpl. rewrite Hc. by rewrite lookup_insert_eq.
Qed.

(** C3: the scope analysis of a tree always returns; [lookup_name] always
    returns a Name: the one the current scope or an enclosing scope (the
    root included) has for the identifier, else a new Name that it defines in
    the root scope; a second lookup returns the same Name and changes
    nothing. *)
Theorem lookup_name_never_fails (tree : ast.Module) (st : state)
    (name : string) :
  (∃ root, analyze tree = Ok root)
  ∧ ∃ name_obj st1,
      lookup_name name st = (Ok name_obj, st1)
      ∧ lookup_name name st1 = (Ok name_obj, st1)
      ∧ match resolve st name with
        | Some found => name_obj = found ∧ st1 = st
        | None =>
            name_obj = length (name_objs st)
            ∧ st1 = define_at_root name st
            ∧ names st1 !! name = Some name_obj
            ∧ name_objs st1 !! name_obj = Some (mkName name None [] ∅)
        end.
Proof.
  split.
  - destruct (visit_Module_preserves tree init) as ([] & root & Hv & _).
    exists root. unfold analyze. by rewrite Hv.
  - rewrite lookup_name_spec. destruct (resolve st name) as [found|] eqn:Hres.
    + exists found, st. rewrite lookup_name_spec, Hres. done.
    + exists (length (name_objs st)), (define_at_root name st).
      rewrite lookup_name_spec, resolve_define_at_root by done.
      split_and!; try done.
      * simpl. by rewrite lookup_insert_eq.
      * simpl. by rewrite lookup_app_r, Nat.sub_diag.
Qed.

(** *** External references of import statements *)

(** The aliases of the [import] statements of a tree, at any depth. *)
Fixpoint import_aliases (s : ast.stmt) : list ast.alias :=
  match s with
  | ast.Import _ names => names
  | ast.If _ _ body orelse | ast.While _ _ body orelse =>
      flat_map import_aliases body ++ flat_map import_aliases orelse
  | ast.FunctionDef _ _ _ body _ _ | ast.ClassDef _ _ _ body _ =>
      flat_map import_aliases body
  | _ => []
  end.

Definition module_import_aliases (tree : ast.Module) : list ast.alias :=
  flat_map import_aliases (ast.body tree).

Lemma referenced_stable key node : stable refs_grow (referenced key node).
Proof. intros s s'. apply referenced_grow. Qed.

Lemma add_external_reference_establishes name node packages key :
  key ∈ names_to_add name packages →
  establishes (referenced key node) (add_external_reference name node packages).
Proof.
  intros Hkey st. apply returns_modify.
  exact (foldl_append_reference_adds node _ _ key Hkey).
Qed.

Lemma visit_establishes P node dispatch :
  stable refs_grow P → establishes P dispatch →
  establishes P (visit node dispatch).
Proof.
  intros HP Hd. unfold visit.
  apply (establishes_bind_r refs_grow); [preserves|intros st].
  apply (establishes_bind_r refs_grow); [preserves|intros _].
  apply (establishes_bind_r refs_grow); [preserves|intros _].
  apply (establishes_bind_l refs_grow); [done|done|intros _; preserves].
Qed.

Lemma visit_Import_establishes node names alias key :
  alias ∈ names → key ∈ names_to_add (ast.name alias) true →
  establishes (referenced key (ast.alias_id alias)) (visit_Import node names).
Proof.
  intros Hin Hkey. unfold visit_Import.
  apply (establishes_bind_l refs_grow);
    [apply referenced_stable| |intros _; preserves].
  eapply (for_each_establishes refs_grow); [apply referenced_stable| | |exact Hin].
  - intros y. preserves.
  - apply (establishes_bind_l refs_grow);
      [apply referenced_stable| |intros _; preserves].
    by apply add_external_reference_establishes.
Qed.

Lemma for_each_visit_stmt_establishes P (visit_s : ast.stmt → M state unit)
    (aliases : ast.stmt → list ast.alias) alias body :
  stable refs_grow P →
  (∀ s, preserves refs_grow (visit_s s)) →
  Forall (λ s, alias ∈ aliases s → establishes P (visit_s s)) body →
  alias ∈ flat_map aliases body →
  establishes P (for_each visit_s body).
Proof.
  intros HP Hpres Hbody Hin.
  apply list_elem_of_In, in_flat_map in Hin as (s & Hs & Hin).
  apply list_elem_of_In in Hs, Hin.
  eapply (for_each_establishes refs_grow); [done|done| |exact Hs].
  rewrite Forall_forall in Hbody. by apply Hbody.
Qed.

Lemma visit_stmt_establishes s alias key :
  alias ∈ import_aliases s → key ∈ names_to_add (ast.name alias) true →
  establishes (referenced key (ast.alias_id alias)) (visit_stmt s).
Proof.
  intros Hin Hkey. revert Hin.
  pose proof (referenced_stable key (ast.alias_id alias)) as HP.
  induction s;
    repeat match goal with
           | H : list_all _ _ _ |- _ => apply list_all_Forall in H
           end;
    simpl; intros Hin; try (by apply elem_of_nil in Hin);
    apply visit_establishes; try done.
  - by apply visit_Import_establishes.
  - apply elem_of_app in Hin as [Hin|Hin].
    + apply (establishes_bind_r refs_grow); [preserves|intros _].
      apply (establishes_bind_l refs_grow); [done| |intros _; preserves].
      eapply for_each_visit_stmt_establishes;
        [done|apply visit_stmt_preserves|eassumption|done].
    + apply (establishes_bind_r refs_grow); [preserves|intros _].
      apply (establishes_bind_r refs_grow); [preserves|intros _].
      eapply for_each_visit_stmt_establishes;
        [done|apply visit_stmt_preserves|eassumption|done].
  - apply elem_of_app in Hin as [Hin|Hin].
    + apply (establishes_bind_r refs_grow); [preserves|intros _].
      apply (establishes_bind_l refs_grow); [done| |intros _; preserves].
      eapply for_each_visit_stmt_establishes;
        [done|apply visit_stmt_preserves|eassumption|done].
    + apply (establishes_bind_r refs_grow); [preserves|intros _].
      apply (establishes_bind_r refs_grow); [preserves|intros _].
      eapply for_each_visit_stmt_establishes;
        [done|apply visit_stmt_preserves|eassumption|done].
  - unfold visit_FunctionDef.
    apply (establishes_try_finally refs_grow);
      [done| |unfold pop_scope; preserves].
    do 5 (apply (establishes_bind_r refs_grow); [unfold push_scope; preserves|intros _]).
    apply establishes_try_except_pass.
    eapply for_each_visit_stmt_establishes;
        [done|apply visit_stmt_preserves|eassumption|done].
  - unfold visit_ClassDef.
    apply (establishes_try_finally refs_grow);
      [done| |unfold pop_scope; preserves].
    do 3 (apply (establishes_bind_r refs_grow); [unfold push_scope; preserves|intros _]).
    apply (establishes_bind_l refs_grow); [done| |intros _; preserves].
    eapply for_each_visit_stmt_establishes;
        [done|apply visit_stmt_preserves|eassumption|done].
Qed.

(** C5, as the code has it: after the analysis of a tree that contains the
    statement [import aaa.bbb], the external-reference table has the keys
    [aaa] and [aaa.bbb], and the list under each holds the alias node of
    the statement (the element of its [names]), not the [Import] node. *)
Theorem import_external_references (tree : ast.Module) (alias : ast.alias) :
  alias ∈ module_import_aliases tree →
  ast.name alias = "aaa.bbb" →
  ∃ root l1 l2,
    analyze tree = Ok root
    ∧ external_references root !! "aaa" = Some l1
    ∧ ast.alias_id alias ∈ l1
    ∧ external_references root !! "aaa.bbb" = Some l2
    ∧ ast.alias_id alias ∈ l2.
Proof.
  intros Hin Hname.
  assert (∀ key, key ∈ names_to_add (ast.name alias) true →
                 establishes (referenced key (ast.alias_id alias))
                   (visit_Module tree)) as Hest.
  { intros key Hkey. unfold visit_Module.
    apply visit_establishes; [apply referenced_stable|].
    eapply for_each_visit_stmt_establishes;
      [apply referenced_stable|apply visit_stmt_preserves| |exact Hin].
    apply Forall_forall. intros s _ Hs. by apply visit_stmt_establishes. }
  destruct (Hest "aaa" ltac:(rewrite Hname; vm_compute; repeat constructor) init)
    as ([] & root & Hv & l1 & Hl1 & Hin1).
  destruct (Hest "aaa.bbb" ltac:(rewrite Hname; vm_compute; repeat constructor) init)
    as ([] & root' & Hv' & l2 & Hl2 & Hin2).
  rewrite Hv in Hv'. injection Hv' as <-.
  exists root, l1, l2. unfold analyze. rewrite Hv. done.
Qed.

Definition shadowing_tree (x fname : string) (m a t cs k f g p e1 r1 cl e2 r2 : loc) (n : Z) : ast.Module :=
  ast.Mod m
    [ast.Assign a [ast.Name t x (ast.Ctx cs ast.Store)] (ast.Num k n);
     ast.FunctionDef f fname
       (ast.Arguments g [ast.Arg p x None] None None [] [] [])
       [ast.Expr e1 (ast.Name r1 x (ast.Ctx cl ast.Load))] [] None;
     ast.Expr e2 (ast.Name r2 x (ast.Ctx cl ast.Load))].

Lemma import_external_references_witness :
  ∃ root l1 l2,
    analyze import_aaa_bbb = Ok root
    ∧ external_references root !! "aaa" = Some l1
    ∧ 2 ∈ l1
    ∧ external_references root !! "aaa.bbb" = Some l2
    ∧ 2 ∈ l2.
Proof.
  apply (import_external_references import_aaa_bbb (ast.Alias 2 "aaa.bbb" None)).
  - vm_compute. apply list_elem_of_here.
  - reflexivity.
Defined.

(** For [import aaa.bbb] the lists under [aaa] and [aaa.bbb] hold the alias
    (node 2) only: the [Import] node (node 1) is in neither. *)
Lemma import_node_not_referenced :
  ∃ root,
    analyze import_aaa_bbb = Ok root
    ∧ ¬ referenced "aaa" 1 root
    ∧ ¬ referenced "aaa.bbb" 1 root.
Proof.
  eexists. split; [vm_compute; reflexivity|].
  split; intros (l & Hl & Hin); vm_compute in Hl; injection Hl as <-;
    apply list_elem_of_singleton in Hin; discriminate.
Qed.

Lemma alter_length_app {A} (f : A → A) (l : list A) (x : A) :
  alter f (length l) (l ++ [x]) = l ++ [f x].
Proof. induction l; simpl; [done|]. by f_equal. Qed.

Lemma returns_define_name name node st (Q : nat → state → Prop) :
  match current_names st !! name with
  | Some r => Q r (set_name_objs (alter (define node) r) st)
  | None =>
      Q (length (name_objs st))
        (bind_current name (length (name_objs st))
           (set_name_objs (λ ns, ns ++ [mkName name (Some node) [] ∅]) st))
  end →
  returns (define_name name node) st Q.
Proof.
  intros HQ. unfold define_name.
  apply returns_bind, returns_get. apply returns_bind.
  destruct (current_names st !! name) as [r|].
  - apply returns_ret. apply returns_bind, returns_modify, returns_ret. done.
  - apply returns_bind. unfold new_Name.
    apply returns_bind, returns_get. apply returns_bind, returns_modify.
    apply returns_ret. apply returns_bind, returns_modify. apply returns_ret.
    apply returns_bind, returns_modify, returns_ret.
    destruct st as [objs ss ns ext ps nn p]. unfold bind_current in *.
    cbn [scopes name_objs set_name_objs set_names set_scopes] in *.
    destruct ss; cbv [scopes name_objs set_name_objs set_names set_scopes] in *;
      rewrite alter_length_app; exact HQ.
Qed.

Lemma returns_lookup_name name st (Q : nat → state → Prop) :
  match resolve st name with
  | Some r => Q r st
  | None => Q (length (name_objs st)) (define_at_root name st)
  end →
  returns (lookup_name name) st Q.
Proof.
  intros HQ. unfold returns. rewrite lookup_name_spec.
  destruct (resolve st name); eauto.
Qed.

Ltac norm :=
  cbv [set_name_objs set_scopes set_names set__parents set__nodes_to_names
       set__parent set_external_references name_objs scopes names
       external_references _parents _nodes_to_names _parent bind_current
       current_names resolve lookup_chain define_at_root init
       ast.ctx_kind ast.ctx_id ast.module_id ast.body ast.arguments_id
       ast.args ast.vararg ast.kwarg ast.defaults ast.arg_id ast.arg_name
       ast.annotation visit_opt for_each visit_stmt visit_expr
       visit_Module visit visit_FunctionDef visit_arguments visit_arg
       visit_Name visit_ctx set_parent Name_add_reference Name_define
       set_name_for_node push_scope pop_scope
       length app alter list_alter tail define add_reference
       definition id reads attrs];
  repeat first
    [ rewrite lookup_empty
    | rewrite lookup_insert_eq
    | rewrite lookup_insert_ne by congruence ].

Ltac step :=
  first
    [ apply returns_define_name
    | apply returns_lookup_name
    | apply returns_ret
    | apply returns_get
    | apply returns_modify
    | apply returns_try_except_pass
    | apply returns_try_finally
    | apply returns_bind ]; norm.

(** Where a read of an identifier resolves after the analysis, and the node
    that defined the Name it resolves to. *)
Definition resolves_to (root : state) (read : loc) (def : loc) : Prop :=
  ∃ name_obj n,
    _nodes_to_names root !! read = Some name_obj
    ∧ name_objs root !! name_obj = Some n
    ∧ definition n = Some def.

Lemma analyze_returns tree (Q : state → Prop) :
  returns (visit_Module tree) init (λ _ root, Q root) →
  ∃ root, analyze tree = Ok root ∧ Q root.
Proof.
  intros ([] & root & Hv & HQ). exists root. unfold analyze. by rewrite Hv.
Qed.

(** The analysis of a whole module: [x = n], then [def fname(x): x], then
    [x].  The read in the function body resolves to the Name the parameter
    defined, the read after the function to the Name the assignment
    defined, and these are two Names. *)
Theorem scope_shadowing x fname m a t cs k f g p e1 r1 cl e2 r2 n :
  r1 ≠ r2 →
  ∃ root,
    analyze (shadowing_tree x fname m a t cs k f g p e1 r1 cl e2 r2 n) = Ok root
    ∧ resolves_to root r1 p
    ∧ resolves_to root r2 t
    ∧ _nodes_to_names root !! r1 ≠ _nodes_to_names root !! r2.
Proof.
  intros Hr. apply analyze_returns. unfold shadowing_tree. norm.
  repeat step.
  destruct (decide (x = fname)) as [<-|Hne]; norm; repeat step;
    unfold resolves_to; norm;
    (split_and!; [by eexists _, _|by eexists _, _|congruence]).
Qed.

Lemma scope_shadowing_witness :
  ∃ root,
    analyze (shadowing_tree "x" "f" 0 1 2 3 4 5 6 7 8 9 10 11 12 1) = Ok root
    ∧ resolves_to root 9 7
    ∧ resolves_to root 12 2
    ∧ _nodes_to_names root !! 9 ≠ _nodes_to_names root !! 12.
Proof. apply scope_shadowing. lia. Defined.

(** ** More of the scope analysis *)

(** *** Relations between the state before and after a visit *)

Definition balanced (st st' : state) : Prop :=
  length (scopes st') = length (scopes st) ∧ _parent st' = _parent st.

(** A Name object later in the analysis: the same identifier, the same
    definition once it has one, reads appended, attributes added. *)
Definition Name_extends (n n' : Name) : Prop :=
  id n' = id n
  ∧ (∀ d, definition n = Some d → definition n' = Some d)
  ∧ reads n `prefix_of` reads n'
  ∧ attrs n ⊆ attrs n'.

Definition accumulates (st st' : state) : Prop :=
  (∀ r n, name_objs st !! r = Some n →
          ∃ n', name_objs st' !! r = Some n' ∧ Name_extends n n')
  ∧ names st ⊆ names st'
  ∧ dom (_parents st) ⊆ dom (_parents st').

Definition indexed (node : loc) (st : state) : Prop :=
  is_Some (_parents st !! node).

(** The statements of a tree, at any depth. *)
Fixpoint stmt_nodes (s : ast.stmt) : list loc :=
  match s with
  | ast.Import i _ | ast.ImportFrom i _ _ _ | ast.Expr i _ | ast.Assign i _ _
  | ast.Pass i | ast.Return i _ => [i]
  | ast.If i _ body orelse | ast.While i _ body orelse =>
      i :: flat_map stmt_nodes body ++ flat_map stmt_nodes orelse
  | ast.FunctionDef i _ _ body _ _ | ast.ClassDef i _ _ body _ =>
      i :: flat_map stmt_nodes body
  end.

Definition ext_same (st st' : state) : Prop :=
  external_references st' = external_references st.

(** No [import] statement, and no [from ... import] with a module name, at
    any depth. *)
Fixpoint imports_nothing (s : ast.stmt) : bool :=
  match s with
  | ast.Import _ _ => false
  | ast.ImportFrom _ module _ _ => negb (truthy module)
  | ast.If _ _ body orelse | ast.While _ _ body orelse =>
      forallb imports_nothing body && forallb imports_nothing orelse
  | ast.FunctionDef _ _ _ body _ _ | ast.ClassDef _ _ _ body _ =>
      forallb imports_nothing body
  | _ => true
  end.

(** The Name reached from [r] through the attributes [parts]. *)
Fixpoint follow (objs : list Name) (r : nat) (parts : list string)
  : option nat :=
  match parts with
  | [] => Some r
  | part :: parts' =>
      n ← objs !! r; r' ← attrs n !! part; follow objs r' parts'
  end.

(** Every attribute of a Name object is a Name object of the store. *)
Definition attrs_closed (objs : list Name) : Prop :=
  ∀ r n k r', objs !! r = Some n → attrs n !! k = Some r' →
              (r' < length objs)%nat.

Definition defined (objs : list Name) (r : nat) : Prop :=
  ∃ n d, objs !! r = Some n ∧ definition n = Some d.

(** The tables of the scopes, which only [define_name] and [lookup_name]
    change. *)
Definition tables_same (st st' : state) : Prop :=
  scopes st' = scopes st ∧ names st' = names st.

(** The scopes that enclose the current one. *)
Definition enclosing_same (st st' : state) : Prop :=
  tail (scopes st') = tail (scopes st).

(** The chain of scopes after [define_name name] in the current scope. *)
Definition scopes_with (name : string) (st : state) : list (gmap string nat) :=
  match current_names st !! name with
  | Some _ => scopes st
  | None => scopes (bind_current name (length (name_objs st)) st)
  end.


(** A state in which [x] is bound at the root to a Name that node 5
    defined, and a few trees to visit from it. *)
Definition example_Name : Name := mkName "x" (Some 5) [] ∅.

Definition example_state : state :=
  mkState [example_Name] [] {["x" := 0]} ∅ ∅ ∅ None.

Definition assign_x : ast.stmt :=
  ast.Assign 1 [ast.Name 2 "x" (ast.Ctx 3 ast.Store)] (ast.Num 4 7).

Definition from_aaa_import_bbb : ast.stmt :=
  ast.ImportFrom 1 (Some "aaa") [ast.Alias 2 "bbb" None] 0.

Definition from_dot_import_bbb : ast.stmt :=
  ast.ImportFrom 1 None [ast.Alias 2 "bbb" None] 1.

(** [def f(a): b = 1], and a state inside one function scope. *)
Definition def_f : ast.stmt :=
  ast.FunctionDef 1 "f"
    (ast.Arguments 2 [ast.Arg 3 "a" None] None None [] [] [])
    [ast.Assign 4 [ast.Name 5 "b" (ast.Ctx 6 ast.Store)] (ast.Num 7 1)]
    [] None.

Definition example_inner_state : state :=
  mkState [example_Name] [∅] {["x" := 0]} ∅ ∅ ∅ None.

(** The parameters [visit_arguments] visits, in the order it visits them:
    the positional ones, [*vararg] and [**kwarg]. *)
Definition visited_params (a : ast.arguments) : list ast.arg :=
  ast.args a ++ option_list (ast.vararg a) ++ option_list (ast.kwarg a).

(** The expression holds a [Name] node for [x] in a context that binds it. *)
Fixpoint expr_binds (x : string) (e : ast.expr) : bool :=
  match e with
  | ast.Name _ ident ctx =>
      bool_decide (ident = x)
      && match ast.ctx_kind ctx with
         | ast.Store | ast.Param => true
         | _ => false
         end
  | ast.Repr _ value | ast.Attribute _ value _ _ => expr_binds x value
  | _ => false
  end.

(** [node] is a [Name] node of the expression that reads [x]. *)
Fixpoint expr_reads (x : string) (node : loc) (e : ast.expr) : bool :=
  match e with
  | ast.Name i ident ctx =>
      bool_decide (i = node) && bool_decide (ident = x)
      && match ast.ctx_kind ctx with
         | ast.Load => true
         | _ => false
         end
  | ast.Repr _ value | ast.Attribute _ value _ _ => expr_reads x node value
  | _ => false
  end.

(** The identifier an alias binds in [import ...]: the [as] name, or else
    the first part of the dotted name. *)
Definition import_binds (x : string) (alias : ast.alias) : bool :=
  bool_decide
    ((if negb (truthy (ast.asname alias))
      then hd EmptyString (split "."%char (ast.name alias))
      else default EmptyString (ast.asname alias)) = x).

(** The identifier an alias binds in [from ... import ...]. *)
Definition from_binds (x : string) (alias : ast.alias) : bool :=
  bool_decide
    ((if truthy (ast.asname alias)
      then default EmptyString (ast.asname alias)
      else ast.name alias) = x).

(** The statement binds [x] in the scope it is visited in.  Of a function
    or class definition only the name is bound there. *)
Fixpoint stmt_binds (x : string) (s : ast.stmt) : bool :=
  match s with
  | ast.Import _ names => existsb (import_binds x) names
  | ast.ImportFrom _ _ names _ => existsb (from_binds x) names
  | ast.Expr _ value => expr_binds x value
  | ast.Assign _ targets value =>
      existsb (expr_binds x) targets || expr_binds x value
  | ast.If _ test body orelse | ast.While _ test body orelse =>
      expr_binds x test
      || existsb (stmt_binds x) body
      || existsb (stmt_binds x) orelse
  | ast.Pass _ => false
  | ast.Return _ value => from_option (expr_binds x) false value
  | ast.FunctionDef _ name _ _ _ _ | ast.ClassDef _ name _ _ _ =>
      bool_decide (name = x)
  end.

(** The parameter is called [x], or its annotation binds [x]. *)
Definition arg_binds (x : string) (q : ast.arg) : bool :=
  bool_decide (ast.arg_name q = x)
  || from_option (expr_binds x) false (ast.annotation q).

Definition params_bind (x : string) (a : ast.arguments) : bool :=
  existsb (expr_binds x) (ast.defaults a)
  || existsb (arg_binds x) (visited_params a).

(** Something that is visited in the scope of the function binds [x]: the
    visitor enters the scope before the decorators. *)
Definition def_binds (x : string) (a : ast.arguments) (body : list ast.stmt)
    (decorator_list : list ast.expr) (returns : option ast.expr) : bool :=
  existsb (expr_binds x) decorator_list
  || params_bind x a
  || from_option (expr_binds x) false returns
  || existsb (stmt_binds x) body.

Definition class_binds (x : string) (bases : list ast.expr)
    (body : list ast.stmt) (decorator_list : list ast.expr) : bool :=
  existsb (expr_binds x) bases
  || existsb (stmt_binds x) body
  || existsb (expr_binds x) decorator_list.

(** [node] reads [x] in a default or in the annotation of a parameter. *)
Definition args_read (x : string) (node : loc) (a : ast.arguments) : bool :=
  existsb (expr_reads x node) (ast.defaults a)
  || existsb (λ q, from_option (expr_reads x node) false (ast.annotation q))
       (visited_params a).

(** [node] reads [x] in the statement: outside every function or class
    definition the statement holds, or inside definitions none of which
    binds [x] in its own scope. *)
Fixpoint stmt_reads (x : string) (node : loc) (s : ast.stmt) : bool :=
  match s with
  | ast.Expr _ value => expr_reads x node value
  | ast.Assign _ targets value =>
      existsb (expr_reads x node) targets || expr_reads x node value
  | ast.If _ test body orelse | ast.While _ test body orelse =>
      expr_reads x node test
      || existsb (stmt_reads x node) body
      || existsb (stmt_reads x node) orelse
  | ast.Return _ (Some value) => expr_reads x node value
  | ast.FunctionDef _ _ a body decorator_list returns =>
      negb (def_binds x a body decorator_list returns)
      && (existsb (expr_reads x node) decorator_list
          || args_read x node a
          || from_option (expr_reads x node) false returns
          || existsb (stmt_reads x node) body)
  | ast.ClassDef _ _ bases body decorator_list =>
      negb (class_binds x bases body decorator_list)
      && (existsb (expr_reads x node) bases
          || existsb (stmt_reads x node) body
          || existsb (expr_reads x node) decorator_list)
  | _ => false
  end.

(** What a visit that binds [x] nowhere in the scopes it works in leaves:
    Names accumulate, and [x] still resolves to the Name it resolved to. *)
Definition resolves_kept (x : string) (s s' : state) : Prop :=
  accumulates s s' ∧ ∀ r, resolve s x = Some r → resolve s' x = Some r.

(** [x] resolves to the Name [r]. *)
Definition resolves_name (x : string) (r : nat) (s : state) : Prop :=
  resolve s x = Some r ∧ is_Some (name_objs s !! r).

(** What a visit leaves of the scopes it started in: Names accumulate, the
    chain is as deep, the enclosing scopes are the same and the current
    scope has kept its entries. *)
Definition scope_extends (st st' : state) : Prop :=
  accumulates st st'
  ∧ length (scopes st') = length (scopes st)
  ∧ tail (scopes st') = tail (scopes st)
  ∧ current_names st ⊆ current_names st'.

(** The fields the scopes are made of. *)
Definition same_scopes (st st' : state) : Prop :=
  name_objs st' = name_objs st ∧ scopes st' = scopes st ∧ names st' = names st.

(** [triple P m Q]: from a state where [P] holds, [m] returns, in a state
    where [Q] holds. *)
Definition triple {A} (P : state → Prop) (m : M state A) (Q : state → Prop)
  : Prop :=
  ∀ s, P s → returns m s (λ _ s', Q s').

(** The current scope is not the root scope and has no Name for [x]; the
    first [N0] Names are older than that. *)
Definition unbound (x : string) (N0 : nat) (s : state) : Prop :=
  scopes s ≠ []
  ∧ current_names s !! x = None
  ∧ (N0 ≤ length (name_objs s))%nat.

(** The current scope has the Name [r] for [x]; the node [p] defined it, and
    it is none of the first [N0] Names. *)
Definition bound_to_param (x : string) (p : loc) (N0 : nat) (r : nat)
    (s : state) : Prop :=
  current_names s !! x = Some r
  ∧ (N0 ≤ r)%nat
  ∧ ∃ n, name_objs s !! r = Some n ∧ definition n = Some p.

(** The current scope has a Name for [x] that the node [p] defined. *)
Definition param_bound (x : string) (p : loc) (N0 : nat) (s : state) : Prop :=
  ∃ r, bound_to_param x p N0 r s.

(** The state while the parameters are visited: before the parameter
    [p], or after it. *)
Definition param_pending (x : string) (p : loc) (N0 : nat) (s : state)
  : Prop :=
  unbound x N0 s ∨ param_bound x p N0 s.

(** The node is among the reads of the Name [r]. *)
Definition read_by (r : nat) (node : loc) (s : state) : Prop :=
  ∃ n, name_objs s !! r = Some n ∧ node ∈ reads n.

(** The parameter's Name is bound and has the read. *)
Definition param_read (x : string) (p : loc) (N0 : nat) (r : nat) (node : loc)
    (s : state) : Prop :=
  bound_to_param x p N0 r s ∧ read_by r node s.

(** [x = 1] and then [def f( *, x): x], a function whose parameter [x] is
    keyword-only. *)
Definition keyword_only_tree : ast.Module :=
  ast.Mod 0
    [ast.Assign 1 [ast.Name 2 "x" (ast.Ctx 3 ast.Store)] (ast.Num 4 1);
     ast.FunctionDef 5 "f"
       (ast.Arguments 6 [] None None [] [ast.Arg 7 "x" None] [None])
       [ast.Expr 8 (ast.Name 9 "x" (ast.Ctx 10 ast.Load))] [] None].

(** [def f(x):] with the body [def g(): return x]. *)
Definition def_f_x : ast.stmt :=
  ast.FunctionDef 6 "f"
    (ast.Arguments 7 [ast.Arg 8 "x" None] None None [] [] [])
    [ast.FunctionDef 9 "g" (ast.Arguments 10 [] None None [] [] [])
       [ast.Return 11 (Some (ast.Name 12 "x" (ast.Ctx 13 ast.Load)))]
       [] None]
    [] None.

(** The root table after [define_name name] in the current scope. *)
Definition names_with (name : string) (st : state) : gmap string nat :=
  match current_names st !! name with
  | Some _ => names st
  | None => names (bind_current name (length (name_objs st)) st)
  end.

(** Every entry of a table of the chain is a Name of the store. *)
Definition tables_closed (s : state) : Prop :=
  ∀ tbl k r, tbl ∈ names s :: scopes s → tbl !! k = Some r →
             (r < length (name_objs s))%nat.

(** The tables and the attributes only hold Names of the store, as in
    every state the analysis reaches. *)
Definition well_formed (s : state) : Prop :=
  tables_closed s ∧ attrs_closed (name_objs s).

(** A Name that nothing but the root table can hold: it has no definition,
    and no scope below the root and no attribute leads to it. *)
Definition root_only (r : nat) (s : state) : Prop :=
  (∃ n, name_objs s !! r = Some n ∧ definition n = None)
  ∧ (∀ tbl k, tbl ∈ scopes s → tbl !! k ≠ Some r)
  ∧ (∀ r0 n0 k, name_objs s !! r0 = Some n0 → attrs n0 !! k ≠ Some r).

(** Inside a function or class whose visit started with the root table
    [T]: what the root table has gained since are Names that only it
    holds. *)
Definition local_scope (T : gmap string nat) (s : state) : Prop :=
  scopes s ≠ []
  ∧ well_formed s
  ∧ ∀ k r, names s !! k = Some r → T !! k = Some r ∨ root_only r s.

(** [P] is kept from one state to the other. *)
Definition keeps (P : state → Prop) (s s' : state) : Prop := P s → P s'.

(** A step of the visit inside a function or class. *)
Definition local_step (T : gmap string nat) (s s' : state) : Prop :=
  length (scopes s') = length (scopes s) ∧ keeps (local_scope T) s s'.

(** *** Relations every visit keeps *)

Section traversal.
Variable R : relation state.
Context `{!PreOrder R}.
Hypothesis Name_add_reference_R : ∀ self node, preserves R (Name_add_reference self node).
Hypothesis Name_define_R : ∀ self node, preserves R (Name_define self node).
Hypothesis Name_lookup_name_R : ∀ self name, preserves R (Name_lookup_name self name).
Hypothesis define_name_R : ∀ name node, preserves R (define_name name node).
Hypothesis lookup_name_R : ∀ name, preserves R (lookup_name name).
Hypothesis add_external_reference_R :
  ∀ name node packages, preserves R (add_external_reference name node packages).
Hypothesis set_name_for_node_R : ∀ node name, preserves R (set_name_for_node node name).
Hypothesis visit_R : ∀ node dispatch, preserves R dispatch → preserves R (visit node dispatch).
Hypothesis scoped_R : ∀ A (m1 : M state A) (m2 : M state unit),
  preserves R m1 → preserves R m2 →
  preserves R (try_finally (m1;; push_scope;; m2) pop_scope).

Ltac keeps_step :=
  first
    [ assumption
    | solve [auto 2]
    | apply visit_R
    | apply scoped_R
    | apply preserves_ret; tc_solve
    | apply preserves_get; tc_solve
    | apply preserves_bind; [tc_solve| |intros ?]
    | apply preserves_try_except_pass
    | match goal with
      | |- preserves _ (match ?x with _ => _ end) => destruct x
      end ].

Ltac keeps := repeat keeps_step.

Lemma get_name_for_node_keeps node : preserves R (get_name_for_node node).
Proof. unfold get_name_for_node. keeps. Qed.

Lemma visit_ctx_keeps c : preserves R (visit_ctx c).
Proof. unfold visit_ctx. keeps. Qed.

Lemma visit_Name_keeps node ident ctx : preserves R (visit_Name node ident ctx).
Proof. pose proof visit_ctx_keeps. unfold visit_Name. keeps. Qed.

Lemma visit_expr_keeps e : preserves R (visit_expr e).
Proof.
  pose proof visit_ctx_keeps. pose proof visit_Name_keeps.
  pose proof get_name_for_node_keeps.
  induction e; simpl; apply visit_R; try done; unfold visit_Attribute; keeps.
Qed.

Lemma visit_opt_keeps {A} (visit_A : A → M state unit) val :
  (∀ a, preserves R (visit_A a)) → preserves R (visit_opt visit_A val).
Proof. intros H. destruct val; simpl; [apply H|keeps]. Qed.

Lemma for_each_keeps {A} (body : A → M state unit) xs :
  (∀ x, preserves R (body x)) → preserves R (for_each body xs).
Proof. intros H. apply preserves_for_each; [tc_solve|]. by apply Forall_forall. Qed.

Lemma visit_alias_keeps alias : preserves R (visit_alias alias).
Proof. unfold visit_alias. keeps. Qed.

Lemma visit_arg_keeps node : preserves R (visit_arg node).
Proof.
  unfold visit_arg. keeps. apply visit_opt_keeps, visit_expr_keeps.
Qed.

Lemma visit_arguments_keeps node : preserves R (visit_arguments node).
Proof.
  unfold visit_arguments. keeps;
    first [apply for_each_keeps|apply visit_opt_keeps];
    auto using visit_expr_keeps, visit_arg_keeps.
Qed.

Lemma define_submodules_keeps cur parts alias :
  preserves R (define_submodules cur parts alias).
Proof.
  revert cur. induction parts as [|part parts IH]; intros cur; simpl; keeps.
Qed.

Lemma visit_Import_keeps node names : preserves R (visit_Import node names).
Proof.
  pose proof define_submodules_keeps. pose proof visit_alias_keeps.
  unfold visit_Import. keeps; apply for_each_keeps; try done.
  intros alias. keeps.
Qed.

Lemma visit_ImportFrom_keeps node module names :
  preserves R (visit_ImportFrom node module names).
Proof.
  pose proof visit_alias_keeps.
  unfold visit_ImportFrom. keeps; apply for_each_keeps; try done;
    intros alias; keeps.
Qed.

Lemma visit_stmt_keeps s : preserves R (visit_stmt s).
Proof.
  pose proof visit_expr_keeps. pose proof visit_arguments_keeps.
  pose proof visit_Import_keeps. pose proof visit_ImportFrom_keeps.
  induction s;
    repeat match goal with
           | H : list_all _ _ _ |- _ => apply Scope.list_all_Forall in H
           end;
    simpl; apply visit_R;
    unfold visit_FunctionDef, visit_ClassDef; keeps;
    first [ by apply preserves_for_each; [tc_solve|]
          | apply for_each_keeps; done
          | apply visit_opt_keeps; done ].
Qed.

Lemma visit_Module_keeps tree : preserves R (visit_Module tree).
Proof.
  unfold visit_Module. apply visit_R, for_each_keeps, visit_stmt_keeps.
Qed.
End traversal.

(** *** The visitor's own fields after a visit *)


#[local] Instance balanced_preorder : PreOrder balanced.
Proof.
  split.
  - by intros st.
  - intros st1 st2 st3 [H1 H2] [H3 H4]. split; etrans; eauto.
Qed.

Lemma balanced_name_objs f st : balanced st (set_name_objs f st).
Proof. done. Qed.

Lemma bind_current_length name name_obj st :
  length (scopes (bind_current name name_obj st)) = length (scopes st).
Proof.
  unfold bind_current. destruct (scopes st) eqn:E; simpl; by rewrite ?E.
Qed.

Lemma bind_current__parent name name_obj st :
  _parent (bind_current name name_obj st) = _parent st.
Proof. unfold bind_current. by destruct (scopes st). Qed.

Lemma define_name_balanced name node : preserves balanced (define_name name node).
Proof.
  intros st. apply returns_define_name.
  destruct (current_names st !! name); [done|].
  split; [by rewrite bind_current_length|by rewrite bind_current__parent].
Qed.

Lemma lookup_name_balanced name : preserves balanced (lookup_name name).
Proof.
  intros st. apply returns_lookup_name. by destruct (resolve st name).
Qed.

Lemma Name_lookup_name_balanced self name :
  preserves balanced (Name_lookup_name self name).
Proof.
  intros st. unfold Name_lookup_name. apply returns_bind, returns_get.
  destruct (name_objs st !! self ≫= _).
  - by apply returns_ret.
  - unfold new_Name. repeat first [apply returns_bind|apply returns_get
      |apply returns_modify|apply returns_ret]. done.
Qed.

Lemma visit_balanced node dispatch :
  preserves balanced dispatch → preserves balanced (visit node dispatch).
Proof.
  intros Hd st. unfold visit, set_parent.
  apply returns_bind, returns_get.
  apply returns_bind, returns_modify.
  apply returns_bind, returns_modify.
  apply returns_bind. eapply returns_mono; [apply Hd|].
  intros [] st' [Hlen _]. simpl in *. apply returns_modify. done.
Qed.

Lemma scoped_balanced A (m1 : M state A) (m2 : M state unit) :
  preserves balanced m1 → preserves balanced m2 →
  preserves balanced (try_finally (m1;; push_scope;; m2) pop_scope).
Proof.
  intros H1 H2 st. apply returns_try_finally.
  apply returns_bind. eapply returns_mono; [apply H1|].
  intros a st1 [Hlen1 Hp1]. simpl in *.
  apply returns_bind, returns_modify.
  eapply returns_mono; [apply H2|].
  intros [] st2 [Hlen2 Hp2]. simpl in *. apply returns_modify.
  split; simpl; [|congruence].
  destruct (scopes st2); simpl in *; [done|]. lia.
Qed.

Lemma visit_stmt_balanced s : preserves balanced (visit_stmt s).
Proof.
  apply visit_stmt_keeps; try tc_solve;
    auto using define_name_balanced, lookup_name_balanced,
      Name_lookup_name_balanced, visit_balanced, scoped_balanced;
    intros; by apply preserves_modify.
Qed.

(** X8: the analysis of any tree returns, and it returns the root scope:
    every scope entered for a function or a class has been left again, and
    the visitor's [_parent] is [None] as before the visit. *)
Theorem analyze_root_scope (tree : ast.Module) :
  ∃ root, analyze tree = Ok root ∧ scopes root = [] ∧ _parent root = None.
Proof.
  apply analyze_returns.
  eapply returns_mono.
  - apply (visit_Module_keeps balanced); try tc_solve;
    auto using define_name_balanced, lookup_name_balanced,
      Name_lookup_name_balanced, visit_balanced, scoped_balanced;
    intros; by apply preserves_modify.
  - intros [] root [Hlen Hp]. simpl in *. split; [|done].
    by destruct (scopes root).
Qed.

(** *** What the analysis only ever adds to *)





#[local] Instance Name_extends_preorder : PreOrder Name_extends.
Proof.
  split.
  - intros n. by split_and!.
  - intros n1 n2 n3 (Hid & Hdef & Hreads & Hattrs) (Hid' & Hdef' & Hreads' & Hattrs').
    split_and!; [congruence|auto|by etrans|by etrans].
Qed.

#[local] Instance accumulates_preorder : PreOrder accumulates.
Proof.
  split.
  - intros st. split_and!; [|done|done]. intros r n Hr. by exists n.
  - intros st1 st2 st3 (Hobjs & Hnames & Hparents) (Hobjs' & Hnames' & Hparents').
    split_and!; [|by etrans|by etrans].
    intros r n Hr. destruct (Hobjs r n Hr) as (n2 & Hr2 & Hext).
    destruct (Hobjs' r n2 Hr2) as (n3 & Hr3 & Hext').
    exists n3. split; [done|]. by etrans.
Qed.

Lemma accumulates_alter f self st :
  (∀ n, Name_extends n (f n)) →
  accumulates st (set_name_objs (alter f self) st).
Proof.
  intros Hf. split_and!; [|done|done]. intros r n Hr. simpl.
  destruct (decide (r = self)) as [->|Hne].
  - exists (f n). split; [|done]. by rewrite list_lookup_alter_eq, Hr.
  - exists n. split; [|done]. by rewrite list_lookup_alter_ne.
Qed.

Lemma accumulates_new id st :
  accumulates st (set_name_objs (λ ns, ns ++ [mkName id None [] ∅]) st).
Proof.
  split_and!; [|done|done]. intros r n Hr. simpl.
  exists n. split; [|done]. by apply lookup_app_l_Some.
Qed.

Lemma Name_extends_add_reference node n : Name_extends n (add_reference node n).
Proof. split_and!; try done. simpl. by apply prefix_app_r. Qed.

Lemma Name_extends_define node n : Name_extends n (define node n).
Proof.
  unfold define. destruct (definition n) eqn:Hd; split_and!; simpl; try done.
  - by rewrite Hd.
  - by apply prefix_app_r.
  - by rewrite Hd.
Qed.

Lemma Name_add_reference_accumulates self node :
  preserves accumulates (Name_add_reference self node).
Proof.
  apply preserves_modify. intros st.
  apply accumulates_alter, Name_extends_add_reference.
Qed.

Lemma Name_define_accumulates self node :
  preserves accumulates (Name_define self node).
Proof.
  apply preserves_modify. intros st.
  apply accumulates_alter, Name_extends_define.
Qed.

Lemma Name_lookup_name_accumulates self name :
  preserves accumulates (Name_lookup_name self name).
Proof.
  intros st. unfold Name_lookup_name. apply returns_bind, returns_get.
  destruct (name_objs st !! self ≫= _) as [r|] eqn:Hattr.
  - by apply returns_ret.
  - unfold new_Name. repeat first [apply returns_bind|apply returns_get
      |apply returns_modify|apply returns_ret].
    split_and!; [|done|done]. intros r n Hr. simpl.
    destruct (decide (r = self)) as [->|Hne].
    + rewrite Hr in Hattr. simpl in Hattr.
      eexists. split.
      * rewrite list_lookup_alter_eq. by erewrite lookup_app_l_Some.
      * split_and!; try done. simpl. by apply insert_subseteq.
    + exists n. split; [|done].
      rewrite list_lookup_alter_ne by done. by apply lookup_app_l_Some.
Qed.

Lemma bind_current_name_objs name name_obj st :
  name_objs (bind_current name name_obj st) = name_objs st.
Proof. destruct st as [objs [|sc ss] ns ext ps nn p]; done. Qed.

Lemma bind_current__parents name name_obj st :
  _parents (bind_current name name_obj st) = _parents st.
Proof. destruct st as [objs [|sc ss] ns ext ps nn p]; done. Qed.

Lemma bind_current_names name name_obj st :
  current_names st !! name = None →
  names st ⊆ names (bind_current name name_obj st).
Proof.
  destruct st as [objs [|sc ss] ns ext ps nn p]; cbn; [|done].
  apply insert_subseteq.
Qed.

Lemma define_name_accumulates name node :
  preserves accumulates (define_name name node).
Proof.
  intros st. apply returns_define_name.
  destruct (current_names st !! name) as [r|] eqn:Hcur.
  - apply accumulates_alter, Name_extends_define.
  - split_and!.
    + intros r n Hr. exists n. split; [|done].
      rewrite bind_current_name_objs. by apply lookup_app_l_Some.
    + etrans; [|by apply bind_current_names]. done.
    + by rewrite bind_current__parents.
Qed.

Lemma resolve_None st name : resolve st name = None → names st !! name = None.
Proof. unfold resolve. by destruct (lookup_chain _ _). Qed.

Lemma lookup_name_accumulates name : preserves accumulates (lookup_name name).
Proof.
  intros st. apply returns_lookup_name.
  destruct (resolve st name) eqn:Hres; [done|].
  split_and!; simpl; [|by apply insert_subseteq, resolve_None|done].
  intros r n Hr. exists n. split; [|done]. by apply lookup_app_l_Some.
Qed.

Lemma set_parent_accumulates node p : preserves accumulates (set_parent node p).
Proof.
  apply preserves_modify. intros st. split_and!; try done.
  - intros r n Hr. by exists n.
  - simpl. rewrite dom_insert. apply union_subseteq_r.
Qed.

Lemma accumulates_same st st' :
  name_objs st' = name_objs st → names st' = names st →
  _parents st' = _parents st → accumulates st st'.
Proof.
  intros H1 H2 H3. split_and!; rewrite ?H1, ?H2, ?H3; try done.
  intros r n Hr. by exists n.
Qed.

Lemma visit_accumulates node dispatch :
  preserves accumulates dispatch → preserves accumulates (visit node dispatch).
Proof.
  intros Hd. unfold visit.
  repeat first
    [ done
    | apply set_parent_accumulates
    | apply preserves_get; tc_solve
    | apply preserves_bind; [tc_solve| |intros ?]
    | apply preserves_modify; intros ?; by apply accumulates_same ].
Qed.

Lemma scoped_accumulates A (m1 : M state A) (m2 : M state unit) :
  preserves accumulates m1 → preserves accumulates m2 →
  preserves accumulates (try_finally (m1;; push_scope;; m2) pop_scope).
Proof.
  intros H1 H2. apply preserves_try_finally; [tc_solve| |].
  - repeat first
      [ done
      | apply preserves_bind; [tc_solve| |intros ?]
      | apply preserves_modify; intros ?; by apply accumulates_same ].
  - apply preserves_modify; intros ?; by apply accumulates_same.
Qed.

Create HintDb accumulates.
#[local] Hint Resolve Name_add_reference_accumulates Name_define_accumulates
  Name_lookup_name_accumulates define_name_accumulates lookup_name_accumulates
  set_parent_accumulates visit_accumulates scoped_accumulates : accumulates.

Ltac accumulates_primitives :=
  try tc_solve; auto with accumulates;
  intros; apply preserves_modify; intros ?; by apply accumulates_same.

Lemma visit_expr_accumulates e : preserves accumulates (visit_expr e).
Proof. apply visit_expr_keeps; accumulates_primitives. Qed.

Lemma visit_arguments_accumulates node :
  preserves accumulates (visit_arguments node).
Proof. apply visit_arguments_keeps; accumulates_primitives. Qed.

Lemma visit_stmt_accumulates s : preserves accumulates (visit_stmt s).
Proof. apply visit_stmt_keeps; accumulates_primitives. Qed.

Lemma visit_Module_accumulates tree : preserves accumulates (visit_Module tree).
Proof. apply visit_Module_keeps; accumulates_primitives. Qed.

(** X9: a Name object only accumulates.  Across the visit of any
    statement, from any state, a Name that exists keeps its identifier and,
    once it has one, its definition (a later definition is recorded as a
    read); its reads are only appended to and its attributes only added
    to. *)
Theorem visit_stmt_accumulates_Names s st r n :
  name_objs st !! r = Some n →
  ∃ st' n',
    visit_stmt s st = (Ok tt, st')
    ∧ name_objs st' !! r = Some n'
    ∧ id n' = id n
    ∧ (∀ d, definition n = Some d → definition n' = Some d)
    ∧ reads n `prefix_of` reads n'
    ∧ attrs n ⊆ attrs n'.
Proof.
  intros Hr.
  destruct (visit_stmt_accumulates s st) as ([] & st' & Hv & Hobjs & _).
  destruct (Hobjs r n Hr) as (n' & Hr' & Hid & Hdef & Hreads & Hattrs).
  exists st', n'. split_and!; auto.
Qed.

Lemma visit_stmt_accumulates_Names_witness :
  ∃ st' n',
    visit_stmt assign_x example_state = (Ok tt, st')
    ∧ name_objs st' !! 0 = Some n'
    ∧ id n' = id example_Name
    ∧ (∀ d, definition example_Name = Some d → definition n' = Some d)
    ∧ reads example_Name `prefix_of` reads n'
    ∧ attrs example_Name ⊆ attrs n'.
Proof.
  apply (visit_stmt_accumulates_Names assign_x example_state 0 example_Name).
  reflexivity.
Defined.

(** *** The parent index *)

Lemma visit_Import_accumulates node names :
  preserves accumulates (visit_Import node names).
Proof. apply visit_Import_keeps; accumulates_primitives. Qed.

Lemma visit_ImportFrom_accumulates node module names :
  preserves accumulates (visit_ImportFrom node module names).
Proof. apply visit_ImportFrom_keeps; accumulates_primitives. Qed.

#[local] Hint Resolve visit_expr_accumulates visit_arguments_accumulates
  visit_stmt_accumulates visit_Import_accumulates visit_ImportFrom_accumulates
  : accumulates.

Ltac accumulates_step :=
  first
    [ solve [auto 2 with accumulates]
    | apply preserves_ret; tc_solve
    | apply preserves_get; tc_solve
    | apply preserves_bind; [tc_solve| |intros ?]
    | apply preserves_try_except_pass
    | apply preserves_try_finally; [tc_solve|..]
    | apply for_each_keeps; [tc_solve|intros ?]
    | apply visit_opt_keeps; [tc_solve|intros ?]
    | apply preserves_modify; intros ?; by apply accumulates_same
    | match goal with
      | |- preserves _ (match ?x with _ => _ end) => destruct x
      end ].

Ltac accumulates := repeat accumulates_step.

Lemma indexed_stable node : stable accumulates (indexed node).
Proof.
  intros st st' Hin (_ & _ & Hdom). unfold indexed in *.
  apply elem_of_dom, Hdom, elem_of_dom, Hin.
Qed.

Lemma visit_indexes node dispatch :
  preserves accumulates dispatch →
  establishes (indexed node) (visit node dispatch).
Proof.
  intros Hd. unfold visit.
  apply (establishes_bind_r accumulates); [accumulates|intros st].
  apply (establishes_bind_l accumulates);
    [apply indexed_stable| |intros _; accumulates].
  intros st0. apply returns_modify. unfold indexed. simpl.
  by rewrite lookup_insert_eq.
Qed.

Lemma visit_inner P node dispatch :
  stable accumulates P → establishes P dispatch →
  establishes P (visit node dispatch).
Proof.
  intros HP Hd. unfold visit.
  apply (establishes_bind_r accumulates); [accumulates|intros st].
  apply (establishes_bind_r accumulates); [accumulates|intros _].
  apply (establishes_bind_r accumulates); [accumulates|intros _].
  apply (establishes_bind_l accumulates); [done|done|intros _; accumulates].
Qed.

Lemma for_each_visit_stmt_indexes (visit_s : ast.stmt → M state unit)
    (nodes : ast.stmt → list loc) node body :
  (∀ s, preserves accumulates (visit_s s)) →
  Forall (λ s, node ∈ nodes s → establishes (indexed node) (visit_s s)) body →
  node ∈ flat_map nodes body →
  establishes (indexed node) (for_each visit_s body).
Proof.
  intros Hpres Hbody Hin.
  apply list_elem_of_In, in_flat_map in Hin as (s & Hs & Hin).
  apply list_elem_of_In in Hs, Hin.
  eapply (for_each_establishes accumulates);
    [apply indexed_stable|done| |exact Hs].
  rewrite Forall_forall in Hbody. by apply Hbody.
Qed.

Lemma visit_stmt_indexes s node :
  node ∈ stmt_nodes s → establishes (indexed node) (visit_stmt s).
Proof.
  pose proof (indexed_stable node) as HP.
  induction s;
    repeat match goal with
           | H : list_all _ _ _ |- _ => apply Scope.list_all_Forall in H
           end;
    simpl; intros Hin; apply elem_of_cons in Hin as [->|Hin];
    try (by apply elem_of_nil in Hin);
    try (apply visit_indexes; unfold visit_FunctionDef, visit_ClassDef,
           push_scope, pop_scope; by accumulates);
    apply visit_inner; try done.
  - apply elem_of_app in Hin as [Hin|Hin].
    + apply (establishes_bind_r accumulates); [accumulates|intros _].
      apply (establishes_bind_l accumulates); [done| |intros _; accumulates].
      eapply for_each_visit_stmt_indexes;
        [apply visit_stmt_accumulates|eassumption|done].
    + apply (establishes_bind_r accumulates); [accumulates|intros _].
      apply (establishes_bind_r accumulates); [accumulates|intros _].
      eapply for_each_visit_stmt_indexes;
        [apply visit_stmt_accumulates|eassumption|done].
  - apply elem_of_app in Hin as [Hin|Hin].
    + apply (establishes_bind_r accumulates); [accumulates|intros _].
      apply (establishes_bind_l accumulates); [done| |intros _; accumulates].
      eapply for_each_visit_stmt_indexes;
        [apply visit_stmt_accumulates|eassumption|done].
    + apply (establishes_bind_r accumulates); [accumulates|intros _].
      apply (establishes_bind_r accumulates); [accumulates|intros _].
      eapply for_each_visit_stmt_indexes;
        [apply visit_stmt_accumulates|eassumption|done].
  - unfold visit_FunctionDef.
    apply (establishes_try_finally accumulates);
      [done| |unfold pop_scope; accumulates].
    do 5 (apply (establishes_bind_r accumulates);
            [unfold push_scope; accumulates|intros _]).
    apply establishes_try_except_pass.
    eapply for_each_visit_stmt_indexes;
      [apply visit_stmt_accumulates|eassumption|done].
  - unfold visit_ClassDef.
    apply (establishes_try_finally accumulates);
      [done| |unfold pop_scope; accumulates].
    do 3 (apply (establishes_bind_r accumulates);
            [unfold push_scope; accumulates|intros _]).
    apply (establishes_bind_l accumulates); [done| |intros _; accumulates].
    eapply for_each_visit_stmt_indexes;
      [apply visit_stmt_accumulates|eassumption|done].
Qed.

(** X10: after the analysis the parent index has the module and every
    statement of the tree, at any depth: [RootScope.parent] does not raise
    [KeyError] on them. *)
Theorem analyze_indexes_statements (tree : ast.Module) (node : loc) :
  node = ast.module_id tree ∨ node ∈ flat_map stmt_nodes (ast.body tree) →
  ∃ root p, analyze tree = Ok root ∧ parent root node = Ok p.
Proof.
  intros Hin.
  assert (establishes (indexed node) (visit_Module tree)) as Hest.
  { unfold visit_Module. destruct Hin as [->|Hin].
    - apply visit_indexes. accumulates.
    - apply visit_inner; [apply indexed_stable|].
      eapply for_each_visit_stmt_indexes;
        [apply visit_stmt_accumulates| |exact Hin].
      apply Forall_forall. intros s _ Hs. by apply visit_stmt_indexes. }
  destruct (Hest init) as ([] & root & Hv & p & Hp).
  exists root, p. unfold analyze, parent. by rewrite Hv, Hp.
Qed.

Lemma analyze_indexes_statements_witness :
  ∃ root p, analyze import_aaa_bbb = Ok root ∧ parent root 1 = Ok p.
Proof.
  apply (analyze_indexes_statements import_aaa_bbb 1).
  right. vm_compute. apply list_elem_of_here.
Defined.

(** *** The keys of an external reference *)

Lemma split_app sep (a b : string) :
  split sep (a +:+ String sep b) = split sep a ++ split sep b.
Proof.
  induction a as [|c a IH].
  - change ("" +:+ String sep b) with (String sep b). simpl.
    by rewrite decide_True.
  - rewrite append_cons. simpl. destruct (decide (c = sep)) as [->|Hne].
    + by rewrite IH.
    + rewrite IH. pose proof (split_nonempty sep a) as Hne'.
      by destruct (split sep a).
Qed.

Lemma names_to_add_prefix (name key : string) :
  key ∈ names_to_add name true →
  key = name ∨ ∃ rest, name = key +:+ "." +:+ rest.
Proof.
  unfold names_to_add. rewrite elem_of_cons.
  intros [->|Hin]; [by left|].
  right. apply list_elem_of_fmap in Hin as (i & -> & Hi).
  apply elem_of_seq in Hi.
  set (parts := split "."%char name) in *.
  exists (join "." (drop i parts)).
  rewrite <- join_app.
  - rewrite take_drop. symmetry. apply join_split.
  - intros Hnil. apply (f_equal length) in Hnil.
    rewrite length_take in Hnil. simpl in Hnil. lia.
  - intros Hnil. apply (f_equal length) in Hnil.
    rewrite length_drop in Hnil. simpl in Hnil. lia.
Qed.

Lemma prefix_names_to_add (name key : string) :
  key = name ∨ (∃ rest, name = key +:+ "." +:+ rest) →
  key ∈ names_to_add name true.
Proof.
  unfold names_to_add. rewrite elem_of_cons.
  intros [->|[rest ->]]; [by left|]. right.
  change (key +:+ "." +:+ rest) with (key +:+ String "." rest).
  rewrite split_app. apply list_elem_of_fmap.
  exists (length (split "." key)).
  pose proof (split_nonempty "." key) as Hkey.
  pose proof (split_nonempty "." rest) as Hrest.
  split.
  - rewrite take_app_length. symmetry. apply join_split.
  - apply elem_of_seq. rewrite length_app.
    destruct (split "." key); [done|]. destruct (split "." rest); [done|].
    simpl. lia.
Qed.

(** X11: the keys under which [add_external_reference] records a node
    (with [packages], the default) are the name itself and every prefix of
    it that ends before a dot, and nothing else. *)
Theorem names_to_add_prefixes (name key : string) :
  key ∈ names_to_add name true
  ↔ key = name ∨ ∃ rest, name = key +:+ "." +:+ rest.
Proof.
  split; [apply names_to_add_prefix|apply prefix_names_to_add].
Qed.

(** *** External references of [from ... import ...] *)

Lemma visit_ImportFrom_module_establishes node module names key :
  module ≠ "" → key ∈ names_to_add module true →
  establishes (referenced key node) (visit_ImportFrom node (Some module) names).
Proof.
  intros Hm Hkey. unfold visit_ImportFrom, truthy.
  rewrite bool_decide_eq_false_2 by done. simpl.
  apply (establishes_bind_l refs_grow);
    [apply referenced_stable
    |by apply add_external_reference_establishes|].
  intros _. preserves; apply for_each_preserves; intros alias; preserves.
Qed.

Lemma visit_ImportFrom_alias_establishes node module names alias :
  module ≠ "" → alias ∈ names →
  establishes (referenced (module +:+ "." +:+ ast.name alias) (ast.alias_id alias))
    (visit_ImportFrom node (Some module) names).
Proof.
  intros Hm Hin. unfold visit_ImportFrom, truthy.
  rewrite bool_decide_eq_false_2 by done. simpl.
  apply (establishes_bind_r refs_grow); [preserves|intros _].
  apply (establishes_bind_l refs_grow);
    [apply referenced_stable| |intros _; preserves].
  eapply (for_each_establishes refs_grow); [apply referenced_stable| | |exact Hin].
  - intros y. preserves.
  - apply (establishes_bind_r refs_grow); [preserves|intros _].
    apply add_external_reference_establishes. apply list_elem_of_here.
Qed.

(** X12: the visit of [from module import names], with a module name,
    records the [ImportFrom] node under the module name and each of its
    dotted prefixes, and each alias node under [module.name]. *)
Theorem visit_ImportFrom_references node module names level st :
  module ≠ "" →
  ∃ st',
    visit_stmt (ast.ImportFrom node (Some module) names level) st = (Ok tt, st')
    ∧ (∀ key, key ∈ names_to_add module true → referenced key node st')
    ∧ (∀ alias, alias ∈ names →
         referenced (module +:+ "." +:+ ast.name alias) (ast.alias_id alias) st').
Proof.
  intros Hm.
  destruct (visit_stmt_preserves (ast.ImportFrom node (Some module) names level) st)
    as ([] & st' & Hv & _).
  exists st'. split; [done|]. split.
  - intros key Hkey.
    destruct (visit_establishes (referenced key node) node
                (visit_ImportFrom node (Some module) names)
                (referenced_stable _ _)
                (visit_ImportFrom_module_establishes _ _ _ _ Hm Hkey) st)
      as ([] & st'' & Hv' & Href).
    simpl in Hv. congruence.
  - intros alias Hin.
    destruct (visit_establishes _ node
                (visit_ImportFrom node (Some module) names)
                (referenced_stable _ _)
                (visit_ImportFrom_alias_establishes node _ _ _ Hm Hin) st)
      as ([] & st'' & Hv' & Href).
    simpl in Hv. congruence.
Qed.

Lemma visit_ImportFrom_references_witness :
  ∃ st',
    visit_stmt from_aaa_import_bbb init = (Ok tt, st')
    ∧ (∀ key, key ∈ names_to_add "aaa" true → referenced key 1 st')
    ∧ (∀ alias, alias ∈ [ast.Alias 2 "bbb" None] →
         referenced ("aaa" +:+ "." +:+ ast.name alias) (ast.alias_id alias) st').
Proof.
  apply (visit_ImportFrom_references 1 "aaa" [ast.Alias 2 "bbb" None] 0 init).
  discriminate.
Defined.

(** X13: for every [import] statement of a tree, at any depth, and every
    alias of it, the table of the root scope has the alias node under the
    imported name and under every dotted prefix of it. *)
Theorem import_references_every_prefix (tree : ast.Module) (alias : ast.alias)
    (key : string) :
  alias ∈ module_import_aliases tree →
  key = ast.name alias ∨ (∃ rest, ast.name alias = key +:+ "." +:+ rest) →
  ∃ root, analyze tree = Ok root ∧ referenced key (ast.alias_id alias) root.
Proof.
  intros Hin Hkey%prefix_names_to_add.
  apply analyze_returns. unfold visit_Module.
  apply visit_establishes; [apply referenced_stable|].
  eapply for_each_visit_stmt_establishes;
    [apply referenced_stable|apply visit_stmt_preserves| |exact Hin].
  apply Forall_forall. intros s _ Hs. by apply visit_stmt_establishes.
Qed.

Lemma import_references_every_prefix_witness :
  ∃ root, analyze import_aaa_bbb = Ok root ∧ referenced "aaa" 2 root.
Proof.
  apply (import_references_every_prefix import_aaa_bbb
           (ast.Alias 2 "aaa.bbb" None) "aaa").
  - vm_compute. apply list_elem_of_here.
  - right. exists "bbb". reflexivity.
Defined.

(** *** Statements that add no external reference *)



#[local] Instance ext_same_preorder : PreOrder ext_same.
Proof.
  split.
  - by intros st.
  - intros st1 st2 st3 H1 H2. unfold ext_same in *. congruence.
Qed.

Lemma bind_current_external_references name name_obj st :
  external_references (bind_current name name_obj st) = external_references st.
Proof. destruct st as [objs [|sc ss] ns ext ps nn p]; done. Qed.

Lemma define_name_ext_same name node : preserves ext_same (define_name name node).
Proof.
  intros st. apply returns_define_name.
  destruct (current_names st !! name); [done|].
  unfold ext_same. by rewrite bind_current_external_references.
Qed.

Lemma lookup_name_ext_same name : preserves ext_same (lookup_name name).
Proof.
  intros st. apply returns_lookup_name. by destruct (resolve st name).
Qed.

Lemma Name_lookup_name_ext_same self name :
  preserves ext_same (Name_lookup_name self name).
Proof.
  intros st. unfold Name_lookup_name. apply returns_bind, returns_get.
  destruct (name_objs st !! self ≫= _).
  - by apply returns_ret.
  - unfold new_Name. repeat first [apply returns_bind|apply returns_get
      |apply returns_modify|apply returns_ret]. done.
Qed.

Create HintDb ext_same.
#[local] Hint Resolve define_name_ext_same lookup_name_ext_same
  Name_lookup_name_ext_same : ext_same.

Ltac ext_same_step :=
  first
    [ assumption
    | solve [auto 2 with ext_same]
    | apply preserves_ret; tc_solve
    | apply preserves_get; tc_solve
    | apply preserves_bind; [tc_solve| |intros ?]
    | apply preserves_try_except_pass
    | apply preserves_try_finally; [tc_solve|..]
    | apply preserves_modify; intros ?; reflexivity
    | match goal with
      | |- preserves _ (match ?x with _ => _ end) => destruct x
      end ].

Ltac ext_same := repeat ext_same_step.

Lemma visit_ext_same node dispatch :
  preserves ext_same dispatch → preserves ext_same (visit node dispatch).
Proof. intros Hd. unfold visit, set_parent. ext_same. Qed.
#[local] Hint Resolve visit_ext_same : ext_same.

Ltac ext_same_primitives :=
  try tc_solve; auto with ext_same; intros;
  unfold Name_add_reference, Name_define, set_name_for_node; ext_same.

Lemma visit_expr_ext_same e : preserves ext_same (visit_expr e).
Proof. apply visit_expr_keeps; ext_same_primitives. Qed.

Lemma visit_arguments_ext_same node : preserves ext_same (visit_arguments node).
Proof. apply visit_arguments_keeps; ext_same_primitives. Qed.

Lemma visit_alias_ext_same alias : preserves ext_same (visit_alias alias).
Proof. apply visit_alias_keeps; ext_same_primitives. Qed.

#[local] Hint Resolve visit_expr_ext_same visit_arguments_ext_same
  visit_alias_ext_same : ext_same.

Lemma for_each_imports_nothing (visit_s : ast.stmt → M state unit) body :
  Forall (λ s, imports_nothing s = true → preserves ext_same (visit_s s)) body →
  forallb imports_nothing body = true →
  preserves ext_same (for_each visit_s body).
Proof.
  intros IH Himp. apply preserves_for_each; [tc_solve|].
  rewrite forallb_forall in Himp. rewrite Forall_forall in *.
  intros s Hs. apply IH; [done|]. by apply Himp, list_elem_of_In.
Qed.

Lemma visit_stmt_ext_same s :
  imports_nothing s = true → preserves ext_same (visit_stmt s).
Proof.
  induction s;
    repeat match goal with
           | H : list_all _ _ _ |- _ => apply Scope.list_all_Forall in H
           end;
    simpl; intros Himp; try done;
    unfold visit_ImportFrom, visit_FunctionDef, visit_ClassDef,
      push_scope, pop_scope;
    repeat match goal with
           | H : _ && _ = true |- _ => apply andb_prop in H as [? ?]
           | H : negb (truthy ?m) = true |- _ => destruct (truthy m); [done|]
           end;
    apply visit_ext_same;
    repeat first
      [ by apply for_each_imports_nothing
      | apply for_each_keeps; [tc_solve|intros ?]
      | apply visit_opt_keeps; [tc_solve|intros ?]
      | ext_same_step ].
Qed.

(** X14: only imports add external references.  The visit of a statement
    that contains no [import] and no [from module import] with a module
    name (a relative [from . import x] is allowed) returns and leaves the
    table of external references as it was. *)
Theorem external_references_only_from_imports s st :
  imports_nothing s = true →
  ∃ st', visit_stmt s st = (Ok tt, st')
         ∧ external_references st' = external_references st.
Proof.
  intros Himp. destruct (visit_stmt_ext_same s Himp st) as ([] & st' & Hv & Hsame).
  by exists st'.
Qed.

Lemma external_references_only_from_imports_witness :
  ∃ st', visit_stmt from_dot_import_bbb example_state = (Ok tt, st')
         ∧ external_references st' = external_references example_state.
Proof.
  apply (external_references_only_from_imports from_dot_import_bbb
           example_state).
  reflexivity.
Defined.

(** *** Defining and looking up *)

Lemma current_names_resolve st name r :
  current_names st !! name = Some r → resolve st name = Some r.
Proof.
  unfold current_names, resolve. destruct (scopes st) as [|sc ss]; simpl.
  - done.
  - by intros ->.
Qed.

Lemma current_names_bind_current name r st :
  current_names (bind_current name r st) !! name = Some r.
Proof.
  destruct st as [objs [|sc ss] ns ext ps nn p]; cbn; by rewrite lookup_insert_eq.
Qed.

Lemma define_name_run name node st :
  define_name name node st =
  match current_names st !! name with
  | Some r => (Ok r, set_name_objs (alter (define node) r) st)
  | None =>
      (Ok (length (name_objs st)),
       bind_current name (length (name_objs st))
         (set_name_objs (λ ns, ns ++ [mkName name (Some node) [] ∅]) st))
  end.
Proof.
  assert (returns (define_name name node) st (λ r st',
    (r, st') = match current_names st !! name with
    | Some r => (r, set_name_objs (alter (define node) r) st)
    | None =>
      (length (name_objs st),
       bind_current name (length (name_objs st))
         (set_name_objs (λ ns, ns ++ [mkName name (Some node) [] ∅]) st))
    end)) as (r & st' & Hrun & Heq).
  { apply returns_define_name. by destruct (current_names st !! name). }
  rewrite Hrun. destruct (current_names st !! name); by injection Heq as -> ->.
Qed.

(** X15: [define_name] always returns a Name, and a [lookup_name] of the
    same identifier right after it returns this Name and changes nothing;
    when the current scope had no Name for the identifier, the Name is a new
    one whose definition is the node. *)
Theorem define_name_then_lookup name node st :
  ∃ r st1,
    define_name name node st = (Ok r, st1)
    ∧ lookup_name name st1 = (Ok r, st1)
    ∧ (current_names st !! name = None →
       name_objs st1 !! r = Some (mkName name (Some node) [] ∅)).
Proof.
  rewrite define_name_run.
  destruct (current_names st !! name) as [r|] eqn:Hcur.
  - eexists _, _. split_and!; [reflexivity| |done].
    rewrite lookup_name_spec.
    erewrite current_names_resolve; [done|]. exact Hcur.
  - eexists _, _. split_and!; [reflexivity| |].
    + rewrite lookup_name_spec.
      erewrite current_names_resolve; [done|]. apply current_names_bind_current.
    + intros _. rewrite bind_current_name_objs. simpl.
      by rewrite lookup_app_r, Nat.sub_diag.
Qed.

(** X16: the first definition wins.  Two [define_name] calls for one
    identifier return the same Name; its definition is the first node, and
    the second node is recorded among its reads. *)
Theorem define_name_twice name node1 node2 st :
  current_names st !! name = None →
  ∃ r st1 st2,
    define_name name node1 st = (Ok r, st1)
    ∧ define_name name node2 st1 = (Ok r, st2)
    ∧ name_objs st2 !! r = Some (mkName name (Some node1) [node2] ∅).
Proof.
  intros Hcur. rewrite define_name_run, Hcur.
  eexists _, _, _. split; [reflexivity|].
  rewrite define_name_run, current_names_bind_current.
  split; [reflexivity|]. simpl.
  rewrite bind_current_name_objs. simpl.
  rewrite list_lookup_alter_eq. by rewrite lookup_app_r, Nat.sub_diag.
Qed.

Lemma define_name_twice_witness :
  ∃ r st1 st2,
    define_name "x" 1 init = (Ok r, st1)
    ∧ define_name "x" 2 st1 = (Ok r, st2)
    ∧ name_objs st2 !! r = Some (mkName "x" (Some 1) [2] ∅).
Proof.
  apply (define_name_twice "x" 1 2 init). reflexivity.
Defined.

(** X17: [Name.lookup_name] on a Name object returns the Name stored under
    [name] in its attributes.  When there is one, it is returned and nothing
    changes; when there is none, a new Name with this identifier, no
    definition and no reads is created and stored under [name] in the
    attributes of the receiver, and no other Name changes.  A second call
    returns the same Name and changes nothing. *)
Theorem Name_lookup_name_twice self name st n :
  name_objs st !! self = Some n →
  ∃ r st1 n1,
    Name_lookup_name self name st = (Ok r, st1)
    ∧ name_objs st1 !! self = Some n1
    ∧ attrs n1 !! name = Some r
    ∧ match attrs n !! name with
      | Some r0 => r = r0 ∧ st1 = st
      | None =>
          r = length (name_objs st)
          ∧ name_objs st1 !! r = Some (mkName name None [] ∅)
          ∧ n1 = mkName (id n) (definition n) (reads n)
                   (<[name := r]> (attrs n))
          ∧ ∀ i, i ≠ self → i ≠ r → name_objs st1 !! i = name_objs st !! i
      end
    ∧ Name_lookup_name self name st1 = (Ok r, st1).
Proof.
  intros Hself.
  assert (self < length (name_objs st))%nat as Hlt.
  { apply lookup_lt_is_Some. eauto. }
  unfold Name_lookup_name.
  unfold mbind at 1, M_bind at 1, bind at 1, get at 1.
  cbn [fst snd]. rewrite Hself. simpl.
  destruct (attrs n !! name) as [r|] eqn:Hattr.
  - exists r, st, n. split_and!; try done.
    unfold mbind, M_bind, bind, get. by rewrite Hself; simpl; rewrite Hattr.
  - eexists _, _, _. split_and!; [reflexivity| | | | | | |].
    + simpl. rewrite list_lookup_alter_eq.
      by erewrite lookup_app_l_Some by exact Hself.
    + simpl. by rewrite lookup_insert_eq.
    + done.
    + simpl. rewrite list_lookup_alter_ne by lia.
      by rewrite lookup_app_r, Nat.sub_diag.
    + done.
    + intros i Hi Hr. simpl. rewrite list_lookup_alter_ne by done.
      destruct (decide (i < length (name_objs st))%nat) as [Hlt'|Hge].
      * by rewrite lookup_app_l.
      * rewrite !lookup_ge_None_2; [done|lia|].
        rewrite length_app. simpl. lia.
    + unfold mbind, M_bind, bind, get. simpl.
      rewrite list_lookup_alter_eq.
      erewrite lookup_app_l_Some by exact Hself. simpl.
      by rewrite lookup_insert_eq.
Qed.

Lemma Name_lookup_name_twice_witness :
  ∃ r st1 n1,
    Name_lookup_name 0 "y" example_state = (Ok r, st1)
    ∧ name_objs st1 !! 0 = Some n1
    ∧ attrs n1 !! "y" = Some r
    ∧ match attrs example_Name !! "y" with
      | Some r0 => r = r0 ∧ st1 = example_state
      | None =>
          r = length (name_objs example_state)
          ∧ name_objs st1 !! r = Some (mkName "y" None [] ∅)
          ∧ n1 = mkName (id example_Name) (definition example_Name)
                   (reads example_Name) (<["y" := r]> (attrs example_Name))
          ∧ ∀ i, i ≠ 0 → i ≠ r →
                 name_objs st1 !! i = name_objs example_state !! i
      end
    ∧ Name_lookup_name 0 "y" st1 = (Ok r, st1).
Proof.
  apply (Name_lookup_name_twice 0 "y" example_state example_Name).
  reflexivity.
Defined.

(** *** The Names of an imported dotted name *)




Lemma attrs_closed_alter f self objs :
  (∀ n, attrs (f n) = attrs n) →
  attrs_closed objs → attrs_closed (alter f self objs).
Proof.
  intros Hf Hwf r n k r' Hr Hk. rewrite length_alter.
  destruct (decide (r = self)) as [->|Hne].
  - rewrite list_lookup_alter_eq in Hr.
    destruct (objs !! self) as [n0|] eqn:Hself; [|done].
    injection Hr as <-. rewrite Hf in Hk. eauto.
  - rewrite list_lookup_alter_ne in Hr by done. eauto.
Qed.

Lemma Name_lookup_name_attr self name st :
  attrs_closed (name_objs st) →
  (self < length (name_objs st))%nat →
  ∃ r st' n,
    Name_lookup_name self name st = (Ok r, st')
    ∧ attrs_closed (name_objs st')
    ∧ accumulates st st'
    ∧ (r < length (name_objs st'))%nat
    ∧ name_objs st' !! self = Some n
    ∧ attrs n !! name = Some r.
Proof.
  intros Hwf Hself. apply lookup_lt_is_Some in Hself as [n Hn].
  destruct (Name_lookup_name_accumulates self name st) as (r & st' & Hrun & Hacc).
  exists r, st'.
  assert (Name_lookup_name self name st =
          match attrs n !! name with
          | Some r0 => (Ok r0, st)
          | None =>
              (Ok (length (name_objs st)),
               set_name_objs (alter (λ n0,
                 mkName (id n0) (definition n0) (reads n0)
                   (<[name := length (name_objs st)]> (attrs n0))) self)
                 (set_name_objs (λ ns, ns ++ [mkName name None [] ∅]) st))
          end) as Hrun'.
  { unfold Name_lookup_name, new_Name, mbind, M_bind, bind, get, modify.
    simpl. rewrite Hn. simpl. by destruct (attrs n !! name). }
  rewrite Hrun in Hrun'.
  destruct (attrs n !! name) as [r0|] eqn:Hattr; injection Hrun' as -> ->.
  - exists n. split_and!; eauto.
  - eexists. split_and!; [exact Hrun| |done| | |].
    + simpl. intros r n' k r' Hr Hk.
      rewrite length_alter, length_app. simpl.
      destruct (decide (r = self)) as [->|Hne].
      * rewrite list_lookup_alter_eq in Hr.
        erewrite lookup_app_l_Some in Hr by exact Hn. simpl in Hr.
        injection Hr as <-. simpl in Hk.
        destruct (decide (k = name)) as [->|Hk'].
        -- rewrite lookup_insert_eq in Hk. injection Hk as <-. lia.
        -- rewrite lookup_insert_ne in Hk by done.
           pose proof (Hwf _ _ _ _ Hn Hk). lia.
      * rewrite list_lookup_alter_ne in Hr by done.
        apply lookup_app_Some in Hr as [Hr|[_ Hr]].
        -- pose proof (Hwf _ _ _ _ Hr Hk). lia.
        -- apply list_lookup_singleton_Some in Hr as [_ <-]. done.
    + simpl. rewrite length_alter, length_app. simpl. lia.
    + simpl. rewrite list_lookup_alter_eq.
      by erewrite lookup_app_l_Some by exact Hn.
    + simpl. by rewrite lookup_insert_eq.
Qed.

Lemma define_submodules_accumulates cur parts alias :
  preserves accumulates (define_submodules cur parts alias).
Proof. apply define_submodules_keeps; accumulates_primitives. Qed.

Lemma follow_accumulates st st' r parts r' :
  accumulates st st' →
  follow (name_objs st) r parts = Some r' →
  follow (name_objs st') r parts = Some r'.
Proof.
  intros [Hobjs _]. revert r. induction parts as [|part parts IH]; intros r;
    simpl; [done|].
  destruct (name_objs st !! r) as [n|] eqn:Hr; [|done]. simpl.
  destruct (attrs n !! part) as [r1|] eqn:Hpart; [|done]. simpl.
  intros Hfollow. destruct (Hobjs r n Hr) as (n' & -> & _ & _ & _ & Hattrs).
  simpl. rewrite (lookup_weaken _ _ _ _ Hpart Hattrs). simpl. by apply IH.
Qed.

Lemma defined_accumulates st st' r :
  accumulates st st' → defined (name_objs st) r → defined (name_objs st') r.
Proof.
  intros [Hobjs _] (n & d & Hr & Hd).
  destruct (Hobjs r n Hr) as (n' & Hr' & _ & Hdef & _).
  exists n', d. auto.
Qed.

Lemma define_submodules_chain parts cur alias st :
  attrs_closed (name_objs st) →
  (cur < length (name_objs st))%nat →
  ∃ st' r,
    define_submodules cur parts alias st = (Ok tt, st')
    ∧ accumulates st st'
    ∧ follow (name_objs st') cur parts = Some r
    ∧ (parts ≠ [] → defined (name_objs st') r).
Proof.
  revert cur st. induction parts as [|part parts IH]; intros cur st Hwf Hcur.
  - exists st, cur. split_and!; [done|reflexivity|done|done].
  - destruct (Name_lookup_name_attr cur part st Hwf Hcur)
      as (r1 & st1 & n1 & Hrun1 & Hwf1 & Hacc1 & Hr1 & Hcur1 & Hpart1).
    set (st2 := set_name_objs (alter (define alias) r1) st1).
    assert (accumulates st1 st2) as Hacc2.
    { apply accumulates_alter, Name_extends_define. }
    assert (attrs_closed (name_objs st2)) as Hwf2.
    { apply attrs_closed_alter; [|done]. intros n. unfold define.
      by destruct (definition n). }
    assert (r1 < length (name_objs st2))%nat as Hr2.
    { simpl. by rewrite length_alter. }
    assert (defined (name_objs st2) r1) as Hdef2.
    { apply lookup_lt_is_Some in Hr1 as [n Hn]. simpl.
      exists (define alias n). rewrite list_lookup_alter_eq, Hn. simpl.
      unfold define. destruct (definition n) as [d|] eqn:Hd; simpl; eauto. }
    destruct (IH r1 st2 Hwf2 Hr2) as (st' & r & Hrun & Hacc & Hfollow & Hdef).
    exists st', r. split_and!.
    + cbn [define_submodules].
      erewrite bind_Ok by exact Hrun1.
      erewrite bind_Ok by reflexivity. exact Hrun.
    + etrans; [exact Hacc1|]. etrans; [exact Hacc2|exact Hacc].
    + assert (follow (name_objs st2) cur [part] = Some r1) as Hstep.
      { destruct Hacc2 as [Hobjs _].
        destruct (Hobjs cur n1 Hcur1) as (n2 & Hcur2 & _ & _ & _ & Hattrs).
        cbn [follow]. rewrite Hcur2. simpl.
        by rewrite (lookup_weaken _ _ _ _ Hpart1 Hattrs). }
      apply (follow_accumulates _ _ _ _ _ Hacc) in Hstep.
      cbn [follow] in Hstep |- *.
      destruct (name_objs st' !! cur) as [n|]; [|done]. simpl in *.
      destruct (attrs n !! part) as [r1'|]; [|done]. simpl in *.
      by injection Hstep as ->.
    + intros _. destruct parts as [|part' parts'].
      * simpl in Hfollow. injection Hfollow as <-.
        by eapply defined_accumulates.
      * by apply Hdef.
Qed.


#[local] Instance tables_same_preorder : PreOrder tables_same.
Proof.
  split.
  - by intros st.
  - intros st1 st2 st3 [H1 H2] [H3 H4]. split; congruence.
Qed.

Lemma Name_lookup_name_tables_same self name :
  preserves tables_same (Name_lookup_name self name).
Proof.
  intros st. unfold Name_lookup_name. apply returns_bind, returns_get.
  destruct (name_objs st !! self ≫= _).
  - by apply returns_ret.
  - unfold new_Name. repeat first [apply returns_bind|apply returns_get
      |apply returns_modify|apply returns_ret]. done.
Qed.

Lemma define_submodules_tables_same cur parts alias :
  preserves tables_same (define_submodules cur parts alias).
Proof.
  apply define_submodules_keeps; [tc_solve| |apply Name_lookup_name_tables_same].
  intros. by apply preserves_modify.
Qed.

Lemma attrs_closed_app objs n :
  attrs n = ∅ → attrs_closed objs → attrs_closed (objs ++ [n]).
Proof.
  intros Hn Hwf r n' k r' Hr Hk. rewrite length_app. simpl.
  apply lookup_app_Some in Hr as [Hr|[_ Hr]].
  - pose proof (Hwf _ _ _ _ Hr Hk). lia.
  - apply list_lookup_singleton_Some in Hr as [_ <-].
    by rewrite Hn, lookup_empty in Hk.
Qed.

(** X19: the visit of [import a.b.c] (one alias, no [as]) binds [a] in the
    current scope to a Name that has a definition, and from it the
    attributes [b], [c] lead to a Name that has a definition. *)
Theorem visit_Import_defines_chain node alias name asname st :
  truthy asname = false →
  attrs_closed (name_objs st) →
  (∀ k r, current_names st !! k = Some r → (r < length (name_objs st))%nat) →
  ∃ st' r0 r,
    visit_stmt (ast.Import node [ast.Alias alias name asname]) st = (Ok tt, st')
    ∧ current_names st' !! hd EmptyString (split "." name) = Some r0
    ∧ defined (name_objs st') r0
    ∧ follow (name_objs st') r0 (tl (split "." name)) = Some r
    ∧ defined (name_objs st') r.
Proof.
  intros Has Hwf Hcur.
  cut (returns (visit_stmt (ast.Import node [ast.Alias alias name asname])) st
         (λ _ st', ∃ r0 r,
            current_names st' !! hd EmptyString (split "." name) = Some r0
            ∧ defined (name_objs st') r0
            ∧ follow (name_objs st') r0 (tl (split "." name)) = Some r
            ∧ defined (name_objs st') r)).
  { intros ([] & st' & Hv & r0 & r & H). by exists st', r0, r. }
  set (parts := split "." name).
  simpl. unfold visit, visit_Import, visit_alias, visit, set_parent,
    add_external_reference. simpl. rewrite Has. simpl. fold parts.
  apply returns_bind, returns_get.
  apply returns_bind, returns_modify.
  apply returns_bind, returns_modify.
  apply returns_bind. apply returns_bind. apply returns_bind.
  apply returns_bind, returns_modify.
  apply returns_bind.
  match goal with |- returns _ ?s _ => set (sB := s) end.
  assert (attrs_closed (name_objs sB)) as HwfB by done.
  assert (∀ k r, current_names sB !! k = Some r →
                 (r < length (name_objs sB))%nat) as HcurB by done.
  clearbody sB. clear Hwf Hcur.
  apply returns_define_name.
  match goal with
  | |- match ?o with _ => _ end =>
      assert (∃ r0 sC, o = o ∧
        match o with
        | Some r => r0 = r ∧ sC = set_name_objs (alter (define alias) r) sB
        | None => r0 = length (name_objs sB)
                  ∧ sC = bind_current (hd "" parts) (length (name_objs sB))
                      (set_name_objs (λ ns, ns ++
                         [mkName (hd "" parts) (Some alias) [] ∅]) sB)
        end
        ∧ attrs_closed (name_objs sC)
        ∧ (r0 < length (name_objs sC))%nat
        ∧ current_names sC !! hd "" parts = Some r0
        ∧ defined (name_objs sC) r0) as (r0 & sC & _ & Hrun & HwfC & Hr0 & HcurC & HdefC)
  end.
  { destruct (current_names sB !! hd "" parts) as [r0|] eqn:Hp0.
    - eexists _, _. split_and!; [done|reflexivity|reflexivity| | | |].
      + apply attrs_closed_alter; [|done]. intros n. unfold define.
        by destruct (definition n).
      + simpl. rewrite length_alter. eauto.
      + exact Hp0.
      + destruct (lookup_lt_is_Some_2 _ _ (HcurB _ _ Hp0)) as [n Hn].
        assert (∃ d, definition (define alias n) = Some d) as [d Hd].
        { unfold define. destruct (definition n) eqn:Hd; simpl; eauto. }
        exists (define alias n), d. split; [|done].
        simpl. by rewrite list_lookup_alter_eq, Hn.
    - eexists _, _. split_and!; [done|reflexivity|reflexivity| | | |].
      + rewrite bind_current_name_objs. simpl. by apply attrs_closed_app.
      + rewrite bind_current_name_objs. simpl. rewrite length_app. simpl. lia.
      + apply current_names_bind_current.
      + rewrite bind_current_name_objs. simpl.
        eexists _, _. by rewrite lookup_app_r, Nat.sub_diag. }
  assert (returns (define_submodules r0 (tl parts) alias) sC (λ _ sD,
    ∃ r, current_names sD !! hd "" parts = Some r0
         ∧ defined (name_objs sD) r0
         ∧ follow (name_objs sD) r0 (tl parts) = Some r
         ∧ defined (name_objs sD) r)) as Hsub.
  { destruct (define_submodules_chain (tl parts) r0 alias sC HwfC Hr0)
      as (sD & r & Hrun' & Hacc & Hfollow & Hdef).
    destruct (define_submodules_tables_same r0 (tl parts) alias sC)
      as ([] & sD' & Hrun'' & Hscopes & Hnames).
    assert (sD' = sD) as -> by congruence.
    exists tt, sD. split; [done|]. exists r. split_and!.
    - unfold current_names in *. by rewrite Hscopes, Hnames.
    - by eapply defined_accumulates.
    - done.
    - destruct (tl parts) as [|p ps] eqn:Htl.
      + simpl in Hfollow. injection Hfollow as <-.
        by eapply defined_accumulates.
      + by apply Hdef. }
  destruct (current_names sB !! hd "" parts); destruct Hrun as [-> ->];
    (eapply returns_mono; [exact Hsub|]);
    intros [] sD (r & H1 & H2 & H3 & H4);
    repeat first [apply returns_bind|apply returns_get
      |apply returns_modify|apply returns_ret];
    eexists _, r; split_and!; eassumption.
Qed.

Lemma visit_Import_defines_chain_witness :
  ∃ st' r0 r,
    visit_stmt (ast.Import 1 [ast.Alias 2 "aaa.bbb" None]) init = (Ok tt, st')
    ∧ current_names st' !! hd EmptyString (split "." "aaa.bbb") = Some r0
    ∧ defined (name_objs st') r0
    ∧ follow (name_objs st') r0 (tl (split "." "aaa.bbb")) = Some r
    ∧ defined (name_objs st') r.
Proof.
  apply (visit_Import_defines_chain 1 2 "aaa.bbb" None init).
  - reflexivity.
  - intros r n k r' Hr. vm_compute in Hr. discriminate.
  - intros k r Hr. vm_compute in Hr. discriminate.
Defined.

(** *** Reads *)

Lemma visit_Name_Load_returns node ident ctx st :
  ast.ctx_kind ctx = ast.Load →
  (∀ r, resolve st ident = Some r → is_Some (name_objs st !! r)) →
  returns (visit_expr (ast.Name node ident ctx)) st (λ _ st',
    ∃ r n, resolve st' ident = Some r
           ∧ _nodes_to_names st' = <[node := r]> (_nodes_to_names st)
           ∧ name_objs st' !! r = Some n
           ∧ node ∈ reads n
           ∧ (attrs_closed (name_objs st) → attrs_closed (name_objs st'))
           ∧ _parent st' = _parent st).
Proof.
  intros Hctx Hvalid.
  simpl. unfold visit, visit_Name, visit_ctx, visit, set_parent,
    Name_add_reference, set_name_for_node. rewrite Hctx.
  apply returns_bind, returns_get.
  apply returns_bind, returns_modify.
  apply returns_bind, returns_modify.
  apply returns_bind. apply returns_bind. apply returns_bind.
  apply returns_lookup_name.
  match goal with |- context [resolve ?s ident] =>
    change (resolve s ident) with (resolve st ident) end.
  destruct (resolve st ident) as [r|] eqn:Hres.
  - destruct (Hvalid r eq_refl) as [n Hn].
    apply returns_bind, returns_modify.
    apply returns_bind, returns_lookup_name.
    match goal with |- context [resolve ?s ident] =>
      change (resolve s ident) with (resolve st ident) end.
    rewrite Hres.
    repeat first [apply returns_bind|apply returns_get
      |apply returns_modify|apply returns_ret].
    exists r, (add_reference node n). split_and!.
    + exact Hres.
    + done.
    + simpl. by rewrite list_lookup_alter_eq, Hn.
    + simpl. apply elem_of_app. right. apply list_elem_of_here.
    + simpl. by apply attrs_closed_alter.
    + done.
  - apply returns_bind, returns_modify.
    apply returns_bind, returns_lookup_name.
    match goal with |- context [resolve ?s ident] =>
      change (resolve s ident)
        with (resolve (define_at_root ident st) ident) end.
    rewrite resolve_define_at_root by done.
    repeat first [apply returns_bind|apply returns_get
      |apply returns_modify|apply returns_ret].
    eexists _, _. split_and!.
    + by apply resolve_define_at_root.
    + done.
    + simpl. rewrite list_lookup_alter_eq.
      by rewrite lookup_app_r, Nat.sub_diag.
    + simpl. apply list_elem_of_here.
    + simpl. intros Hwf. apply attrs_closed_alter; [done|].
      by apply attrs_closed_app.
    + done.
Qed.

(** X18: the visit of a [Name] node in [Load] context records the read:
    afterwards the identifier resolves to a Name, the node is mapped to this
    Name, and the node is among the reads of the Name. *)
Theorem visit_Name_Load_records node ident ctx st :
  ast.ctx_kind ctx = ast.Load →
  (∀ r, resolve st ident = Some r → is_Some (name_objs st !! r)) →
  ∃ r n st',
    visit_expr (ast.Name node ident ctx) st = (Ok tt, st')
    ∧ resolve st' ident = Some r
    ∧ _nodes_to_names st' !! node = Some r
    ∧ name_objs st' !! r = Some n
    ∧ node ∈ reads n.
Proof.
  intros Hctx Hvalid.
  destruct (visit_Name_Load_returns node ident ctx st Hctx Hvalid)
    as ([] & st' & Hv & r & n & Hres & Hmap & Hn & Hread & _).
  exists r, n, st'. split_and!; try done.
  by rewrite Hmap, lookup_insert_eq.
Qed.

Lemma visit_Name_Load_records_witness :
  ∃ r n st',
    visit_expr (ast.Name 2 "x" (ast.Ctx 3 ast.Load)) example_state = (Ok tt, st')
    ∧ resolve st' "x" = Some r
    ∧ _nodes_to_names st' !! 2 = Some r
    ∧ name_objs st' !! r = Some n
    ∧ 2 ∈ reads n.
Proof.
  apply (visit_Name_Load_records 2 "x" (ast.Ctx 3 ast.Load) example_state).
  - reflexivity.
  - intros r Hr. vm_compute in Hr. injection Hr as <-.
    exists example_Name. reflexivity.
Defined.

Lemma Name_lookup_name_frame self name st r st' :
  Name_lookup_name self name st = (Ok r, st') →
  st' = set_name_objs (λ _, name_objs st') st.
Proof.
  assert (returns (Name_lookup_name self name) st (λ _ st',
            st' = set_name_objs (λ _, name_objs st') st))
    as (r' & st'' & Hrun & Heq).
  { unfold Name_lookup_name. apply returns_bind, returns_get.
    destruct (name_objs st !! self ≫= _).
    - apply returns_ret. by destruct st.
    - unfold new_Name. repeat first [apply returns_bind|apply returns_get
        |apply returns_modify|apply returns_ret]. by destruct st. }
  rewrite Hrun. by intros [= _ <-].
Qed.

(** X26: the visit of [value.attr], where [value] is a [Name] in [Load]
    context, records a read of the attribute: afterwards the node of
    [value] is mapped to a Name, this Name has the attribute [attr], and
    the [Attribute] node is mapped to the Name of that attribute and is
    among its reads. *)
Theorem visit_Attribute_records node vnode ident vctx attr ctx st :
  ast.ctx_kind vctx = ast.Load →
  vnode ≠ node →
  attrs_closed (name_objs st) →
  (∀ r, resolve st ident = Some r → is_Some (name_objs st !! r)) →
  ∃ r_value n_value r_attr n_attr st',
    visit_expr (ast.Attribute node (ast.Name vnode ident vctx) attr ctx) st
    = (Ok tt, st')
    ∧ _nodes_to_names st' !! vnode = Some r_value
    ∧ name_objs st' !! r_value = Some n_value
    ∧ attrs n_value !! attr = Some r_attr
    ∧ _nodes_to_names st' !! node = Some r_attr
    ∧ name_objs st' !! r_attr = Some n_attr
    ∧ node ∈ reads n_attr.
Proof.
  intros Hctx Hne Hwf Hvalid.
  cut (returns
         (visit_expr (ast.Attribute node (ast.Name vnode ident vctx) attr ctx))
         st (λ _ st', ∃ r_value n_value r_attr n_attr,
            _nodes_to_names st' !! vnode = Some r_value
            ∧ name_objs st' !! r_value = Some n_value
            ∧ attrs n_value !! attr = Some r_attr
            ∧ _nodes_to_names st' !! node = Some r_attr
            ∧ name_objs st' !! r_attr = Some n_attr
            ∧ node ∈ reads n_attr)).
  { intros ([] & st' & Hv & rv & nv & ra & na & H).
    by exists rv, nv, ra, na, st'. }
  cbn [visit_expr]. unfold visit at 1, visit_Attribute, set_parent.
  apply returns_bind, returns_get.
  apply returns_bind, returns_modify.
  apply returns_bind, returns_modify.
  apply returns_bind. apply returns_bind. apply returns_bind.
  eapply returns_mono; [apply visit_Name_Load_returns; [exact Hctx|exact Hvalid]|].
  intros [] st1 (rv & nv & Hres & Hmap & Hnv & _ & Hwf1 & _).
  specialize (Hwf1 Hwf). cbn beta.
  unfold visit_ctx, visit, set_parent, get_name_for_node.
  repeat first [apply returns_bind|apply returns_get
    |apply returns_modify|apply returns_ret].
  cbn [_nodes_to_names set__parent set__parents expr_id].
  rewrite Hmap, lookup_insert_eq.
  apply returns_bind.
  match goal with |- returns _ ?s _ => set (s2 := s) end.
  assert (rv < length (name_objs s2))%nat as Hrv.
  { apply lookup_lt_is_Some. by exists nv. }
  destruct (Name_lookup_name_attr rv attr s2 Hwf1 Hrv)
    as (ra & s3 & nv3 & Hrun & Hwf3 & Hacc & Hra & Hnv3 & Hattr).
  exists ra, s3. split; [exact Hrun|].
  pose proof (Name_lookup_name_frame _ _ _ _ _ Hrun) as Hframe.
  unfold set_name_for_node, Name_add_reference.
  repeat first [apply returns_bind|apply returns_get
    |apply returns_modify|apply returns_ret].
  apply lookup_lt_is_Some in Hra as [na Hna].
  exists rv, (if decide (ra = rv) then add_reference node nv3 else nv3),
    ra, (add_reference node na).
  split_and!.
  - rewrite Hframe. simpl. rewrite lookup_insert_ne by done.
    by rewrite Hmap, lookup_insert_eq.
  - simpl. destruct (decide (ra = rv)) as [->|Hrav].
    + by rewrite list_lookup_alter_eq, Hnv3.
    + by rewrite list_lookup_alter_ne.
  - by destruct (decide (ra = rv)).
  - simpl. by rewrite lookup_insert_eq.
  - simpl. by rewrite list_lookup_alter_eq, Hna.
  - simpl. apply elem_of_app. right. apply list_elem_of_here.
Qed.

Lemma visit_Attribute_records_witness :
  ∃ r_value n_value r_attr n_attr st',
    visit_expr
      (ast.Attribute 6 (ast.Name 2 "x" (ast.Ctx 3 ast.Load)) "y"
         (ast.Ctx 3 ast.Load)) example_state
    = (Ok tt, st')
    ∧ _nodes_to_names st' !! 2 = Some r_value
    ∧ name_objs st' !! r_value = Some n_value
    ∧ attrs n_value !! "y" = Some r_attr
    ∧ _nodes_to_names st' !! 6 = Some r_attr
    ∧ name_objs st' !! r_attr = Some n_attr
    ∧ 6 ∈ reads n_attr.
Proof.
  apply (visit_Attribute_records 6 2 "x" (ast.Ctx 3 ast.Load) "y"
           (ast.Ctx 3 ast.Load) example_state).
  - reflexivity.
  - lia.
  - intros r n k r' Hr Hk. destruct r as [|r]; [|done].
    injection Hr as <-. vm_compute in Hk. discriminate.
  - intros r Hr. vm_compute in Hr. injection Hr as <-.
    exists example_Name. reflexivity.
Defined.

(** *** The scope of a function or class body *)

#[local] Instance enclosing_same_preorder : PreOrder enclosing_same.
Proof.
  split.
  - by intros st.
  - intros st1 st2 st3 H1 H2. unfold enclosing_same in *. congruence.
Qed.

Lemma bind_current_tail name name_obj st :
  tail (scopes (bind_current name name_obj st)) = tail (scopes st).
Proof. destruct st as [objs [|sc ss] ns ext ps nn p]; done. Qed.

Lemma define_name_enclosing_same name node :
  preserves enclosing_same (define_name name node).
Proof.
  intros st. apply returns_define_name.
  destruct (current_names st !! name); [done|].
  unfold enclosing_same. by rewrite bind_current_tail.
Qed.

Lemma lookup_name_enclosing_same name :
  preserves enclosing_same (lookup_name name).
Proof.
  intros st. apply returns_lookup_name. by destruct (resolve st name).
Qed.

Lemma Name_lookup_name_enclosing_same self name :
  preserves enclosing_same (Name_lookup_name self name).
Proof.
  intros st. destruct (Name_lookup_name_tables_same self name st)
    as (r & st' & Hrun & Hscopes & _).
  exists r, st'. split; [done|]. unfold enclosing_same. by rewrite Hscopes.
Qed.

Lemma visit_enclosing_same node dispatch :
  preserves enclosing_same dispatch →
  preserves enclosing_same (visit node dispatch).
Proof.
  intros Hd. unfold visit, set_parent.
  repeat first
    [ done
    | apply preserves_get; tc_solve
    | apply preserves_bind; [tc_solve| |intros ?]
    | apply preserves_modify; intros ?; reflexivity ].
Qed.

(** What the body leaves of the chain it was entered with: the chain
    itself. *)
Lemma scoped_returns A (m1 : M state A) (m2 : M state unit) st
    (Q : A → state → Prop) :
  preserves enclosing_same m2 →
  returns m1 st (λ a st1, ∀ st', scopes st' = scopes st1 → Q a st') →
  returns (try_finally (m1;; push_scope;; m2) pop_scope) st
    (λ _ st', ∃ a, Q a st').
Proof.
  intros H2 (a & st1 & Hrun1 & HQ).
  destruct (H2 (set_scopes (λ ss, ∅ :: ss) st1)) as ([] & st2 & Hrun2 & Htail).
  exists tt, (set_scopes tail st2). split.
  - unfold try_finally. erewrite bind_Ok by exact Hrun1.
    unfold push_scope. erewrite bind_Ok by reflexivity.
    by rewrite Hrun2.
  - exists a. apply HQ. simpl. exact Htail.
Qed.

Lemma scoped_enclosing_same A (m1 : M state A) (m2 : M state unit) :
  preserves enclosing_same m1 → preserves enclosing_same m2 →
  preserves enclosing_same (try_finally (m1;; push_scope;; m2) pop_scope).
Proof.
  intros H1 H2 st.
  eapply returns_mono.
  - apply (scoped_returns A m1 m2 st
             (λ _ st', enclosing_same st st')); [done|].
    eapply returns_mono; [apply H1|]. intros a st1 Hst1 st' Hst'.
    unfold enclosing_same in *. by rewrite Hst'.
  - by intros [] st' [_ H].
Qed.

Create HintDb enclosing_same.
#[local] Hint Resolve define_name_enclosing_same lookup_name_enclosing_same
  Name_lookup_name_enclosing_same visit_enclosing_same
  scoped_enclosing_same : enclosing_same.

Ltac enclosing_same_primitives :=
  try tc_solve; auto with enclosing_same;
  intros; apply preserves_modify; intros ?; reflexivity.

Lemma visit_expr_enclosing_same e : preserves enclosing_same (visit_expr e).
Proof. apply visit_expr_keeps; enclosing_same_primitives. Qed.

Lemma visit_arguments_enclosing_same node :
  preserves enclosing_same (visit_arguments node).
Proof. apply visit_arguments_keeps; enclosing_same_primitives. Qed.

Lemma visit_stmt_enclosing_same s : preserves enclosing_same (visit_stmt s).
Proof. apply visit_stmt_keeps; enclosing_same_primitives. Qed.

#[local] Hint Resolve visit_expr_enclosing_same visit_arguments_enclosing_same
  visit_stmt_enclosing_same : enclosing_same.

Ltac enclosing_same_step :=
  first
    [ solve [auto 2 with enclosing_same]
    | apply preserves_ret; tc_solve
    | apply preserves_bind; [tc_solve| |intros ?]
    | apply preserves_try_except_pass
    | apply for_each_keeps; [tc_solve|intros ?]
    | apply visit_opt_keeps; [tc_solve|intros ?] ].

Lemma define_name_scopes name node st :
  returns (define_name name node) st (λ _ st1,
    ∀ st', scopes st' = scopes st1 → scopes st' = scopes_with name st).
Proof.
  apply returns_define_name. unfold scopes_with.
  destruct (current_names st !! name); intros st' ->; [done|].
  by destruct st as [objs [|sc ss] ns ext ps nn p].
Qed.

Lemma scoped_scopes node dispatch name st :
  (∀ s, returns dispatch s (λ _ s', scopes s' = scopes_with name s)) →
  returns (visit node dispatch) st (λ _ st', scopes st' = scopes_with name st).
Proof.
  intros Hd. unfold visit, set_parent.
  apply returns_bind, returns_get.
  apply returns_bind, returns_modify.
  apply returns_bind, returns_modify.
  apply returns_bind. eapply returns_mono; [apply Hd|].
  intros [] st' Hst'. apply returns_modify. simpl. rewrite Hst'.
  by destruct st as [objs [|sc ss] ns ext ps nn p].
Qed.

(** *** A parameter and the name it shadows *)


#[local] Instance scope_extends_preorder : PreOrder scope_extends.
Proof.
  split.
  - intros st. by split_and!.
  - intros st1 st2 st3 (A1 & L1 & T1 & C1) (A2 & L2 & T2 & C2).
    split_and!; [by etrans|congruence|congruence|by etrans].
Qed.

Lemma scope_extends_same st st' :
  accumulates st st' → scopes st' = scopes st → names st' = names st →
  scope_extends st st'.
Proof.
  intros Hacc Hsc Hn. split_and!; [done|by rewrite Hsc|by rewrite Hsc|].
  unfold current_names. by rewrite Hsc, Hn.
Qed.

Lemma accumulates_length st st' :
  accumulates st st' → (length (name_objs st) ≤ length (name_objs st'))%nat.
Proof.
  intros (Hobjs & _).
  destruct (decide (length (name_objs st) ≤ length (name_objs st'))%nat)
    as [|Hlt]; [done|].
  destruct (lookup_lt_is_Some_2 (name_objs st) (length (name_objs st')))
    as [n Hn]; [lia|].
  destruct (Hobjs _ _ Hn) as (n' & Hn' & _).
  apply lookup_lt_Some in Hn'. lia.
Qed.

Lemma current_names_bind_current_insert name r st :
  current_names (bind_current name r st) = <[name := r]> (current_names st).
Proof. by destruct st as [objs [|sc ss] ns ext ps nn p]. Qed.

Lemma Name_add_reference_scope_extends self node :
  preserves scope_extends (Name_add_reference self node).
Proof.
  apply preserves_modify. intros st. apply scope_extends_same; [|done..].
  apply accumulates_alter, Name_extends_add_reference.
Qed.

Lemma Name_define_scope_extends self node :
  preserves scope_extends (Name_define self node).
Proof.
  apply preserves_modify. intros st. apply scope_extends_same; [|done..].
  apply accumulates_alter, Name_extends_define.
Qed.

Lemma Name_lookup_name_scope_extends self name :
  preserves scope_extends (Name_lookup_name self name).
Proof.
  intros st.
  destruct (Name_lookup_name_accumulates self name st) as (r & st' & Hrun & Hacc).
  destruct (Name_lookup_name_tables_same self name st)
    as (r2 & st2 & Hrun2 & Hsc & Hn).
  rewrite Hrun in Hrun2. injection Hrun2 as <- <-.
  exists r, st'. split; [done|]. by apply scope_extends_same.
Qed.

Lemma define_name_scope_extends name node :
  preserves scope_extends (define_name name node).
Proof.
  intros st.
  destruct (define_name_accumulates name node st) as (r & st' & Hrun & Hacc).
  exists r, st'. split; [done|].
  rewrite define_name_run in Hrun.
  destruct (current_names st !! name) eqn:Hcur; injection Hrun as <- <-.
  - by apply scope_extends_same.
  - split_and!; [done| | |].
    + by rewrite bind_current_length.
    + by rewrite bind_current_tail.
    + rewrite current_names_bind_current_insert. by apply insert_subseteq.
Qed.

Lemma lookup_name_scope_extends name :
  preserves scope_extends (lookup_name name).
Proof.
  intros st.
  destruct (lookup_name_accumulates name st) as (r & st' & Hrun & Hacc).
  exists r, st'. split; [done|].
  rewrite lookup_name_spec in Hrun.
  destruct (resolve st name) eqn:Hres; injection Hrun as <- <-; [done|].
  split_and!; [done|done|done|].
  unfold current_names. simpl. destruct (scopes st); [|done].
  by apply insert_subseteq, resolve_None.
Qed.

Lemma visit_scope_extends node dispatch :
  preserves scope_extends dispatch →
  preserves scope_extends (visit node dispatch).
Proof.
  intros Hd. unfold visit.
  repeat first
    [ done
    | apply preserves_get; tc_solve
    | apply preserves_bind; [tc_solve| |intros ?]
    | apply preserves_modify; intros ?; apply scope_extends_same;
        [by apply accumulates_same|done..] ].
  intros s.
  destruct (set_parent_accumulates node (_parent a) s) as ([] & s' & Hrun & Hacc).
  exists tt, s'. split; [done|]. injection Hrun as <-.
  by apply scope_extends_same.
Qed.

Lemma scoped_scope_extends A (m1 : M state A) (m2 : M state unit) :
  preserves scope_extends m1 → preserves scope_extends m2 →
  preserves scope_extends (try_finally (m1;; push_scope;; m2) pop_scope).
Proof.
  intros H1 H2 st.
  destruct (H1 st) as (a & st1 & Hrun1 & HE1).
  destruct (H2 (set_scopes (λ ss, ∅ :: ss) st1))
    as ([] & st2 & Hrun2 & (A1 & A2 & A3) & _ & Htail & _).
  exists tt, (set_scopes tail st2). split.
  - unfold try_finally. erewrite bind_Ok by exact Hrun1.
    unfold push_scope. erewrite bind_Ok by reflexivity.
    by rewrite Hrun2.
  - etrans; [exact HE1|]. simpl in Htail.
    split_and!.
    + split_and!; [exact A1|exact A2|exact A3].
    + simpl. by rewrite Htail.
    + simpl. by rewrite Htail.
    + unfold current_names. simpl. rewrite Htail.
      destruct (scopes st1); [exact A2|done].
Qed.

Create HintDb scope_extends.
#[local] Hint Resolve Name_add_reference_scope_extends
  Name_define_scope_extends Name_lookup_name_scope_extends
  define_name_scope_extends lookup_name_scope_extends visit_scope_extends
  scoped_scope_extends : scope_extends.

Ltac scope_extends_primitives :=
  try tc_solve; auto with scope_extends;
  intros; apply preserves_modify; intros ?; apply scope_extends_same;
    first [by apply accumulates_same|done].

Lemma visit_expr_scope_extends e : preserves scope_extends (visit_expr e).
Proof. apply visit_expr_keeps; scope_extends_primitives. Qed.

Lemma visit_arg_scope_extends node : preserves scope_extends (visit_arg node).
Proof. apply visit_arg_keeps; scope_extends_primitives. Qed.

Lemma visit_arguments_scope_extends node :
  preserves scope_extends (visit_arguments node).
Proof. apply visit_arguments_keeps; scope_extends_primitives. Qed.

Lemma visit_stmt_scope_extends s : preserves scope_extends (visit_stmt s).
Proof. apply visit_stmt_keeps; scope_extends_primitives. Qed.

(** **** Triples *)

Lemma triple_ret {A} (a : A) (P Q : state → Prop) :
  (∀ s, P s → Q s) → triple P (mret a) Q.
Proof. intros H s Hs. apply returns_ret. auto. Qed.

Lemma triple_get (P : state → Prop) : triple P get P.
Proof. intros s Hs. by apply returns_get. Qed.

Lemma triple_modify f (P Q : state → Prop) :
  (∀ s, P s → Q (f s)) → triple P (modify f) Q.
Proof. intros H s Hs. apply returns_modify. auto. Qed.

Lemma triple_bind {A B} (m : M state A) (k : A → M state B) P Q R :
  triple P m Q → (∀ a, triple Q (k a) R) → triple P (m ≫= k) R.
Proof.
  intros Hm Hk s Hs. apply returns_bind.
  eapply returns_mono; [by apply Hm|]. intros a s' Hs'. by apply Hk.
Qed.

Lemma triple_conseq {A} (m : M state A) (P P' Q Q' : state → Prop) :
  triple P m Q → (∀ s, P' s → P s) → (∀ s, Q s → Q' s) → triple P' m Q'.
Proof.
  intros Hm HP HQ s Hs. eapply returns_mono; [apply Hm; auto|].
  intros a s'. apply HQ.
Qed.

Lemma triple_or {A} (m : M state A) (P1 P2 Q : state → Prop) :
  triple P1 m Q → triple P2 m Q → triple (λ s, P1 s ∨ P2 s) m Q.
Proof. intros H1 H2 s [Hs|Hs]; auto. Qed.

Lemma triple_and {A} (m : M state A) (P Q1 Q2 : state → Prop) :
  triple P m Q1 → triple P m Q2 → triple P m (λ s, Q1 s ∧ Q2 s).
Proof.
  intros H1 H2 s Hs.
  destruct (H1 s Hs) as (a & s' & Hrun & HQ1).
  destruct (H2 s Hs) as (a2 & s2 & Hrun2 & HQ2).
  rewrite Hrun in Hrun2. injection Hrun2 as <- <-. by exists a, s'.
Qed.

Lemma triple_exists {A X} (m : M state A) (P Q : X → state → Prop) :
  (∀ x, triple (P x) m (Q x)) →
  triple (λ s, ∃ x, P x s) m (λ s, ∃ x, Q x s).
Proof.
  intros H s [x Hs]. eapply returns_mono; [by apply (H x)|].
  intros a s' Hs'. by exists x.
Qed.

Lemma triple_try_except_pass e (m : M state unit) P Q :
  triple P m Q → triple P (try_except_pass e m) Q.
Proof. intros Hm s Hs. by apply returns_try_except_pass, Hm. Qed.

Lemma triple_try_finally {A} (m : M state A) fin P Q R :
  triple P m Q → triple Q fin R → triple P (try_finally m fin) R.
Proof.
  intros Hm Hfin s Hs. apply returns_try_finally.
  eapply returns_mono; [by apply Hm|]. intros a s' Hs'. by apply Hfin.
Qed.

Lemma triple_preserves {A} (R : relation state) (m : M state A) P :
  stable R P → preserves R m → triple P m P.
Proof.
  intros HP Hm s Hs. eapply returns_mono; [apply Hm|].
  intros a s' HR. simpl in *. eauto.
Qed.

Lemma triple_for_each {A} (body : A → M state unit) xs P :
  (∀ x, x ∈ xs → triple P (body x) P) → triple P (for_each body xs) P.
Proof.
  induction xs as [|x xs IH]; intros H; simpl.
  - by apply triple_ret.
  - eapply triple_bind; [apply H, list_elem_of_here|].
    intros _. apply IH. intros y Hy. by apply H, list_elem_of_further.
Qed.

Lemma triple_for_each_at {A} (body : A → M state unit) x xs P Q :
  x ∈ xs →
  (∀ y, y ∈ xs → triple P (body y) P) →
  (∀ y, y ∈ xs → triple Q (body y) Q) →
  triple P (body x) Q →
  triple P (for_each body xs) Q.
Proof.
  intros Hin HP HQ Hx. induction Hin as [x xs|x y xs Hin IH]; simpl.
  - eapply triple_bind; [exact Hx|]. intros _. apply triple_for_each.
    intros y Hy. by apply HQ, list_elem_of_further.
  - eapply triple_bind; [apply HP, list_elem_of_here|]. intros _.
    apply IH; [intros z Hz; by apply HP, list_elem_of_further
              |intros z Hz; by apply HQ, list_elem_of_further|exact Hx].
Qed.

Lemma triple_visit node dispatch P Q :
  stable same_scopes P → stable same_scopes Q →
  triple P dispatch Q → triple P (visit node dispatch) Q.
Proof.
  intros HP HQ Hd. unfold visit, set_parent.
  eapply triple_bind; [apply triple_get|]. intros st0.
  eapply triple_bind; [apply (triple_modify _ P P)|intros _].
  { intros s Hs. by eapply HP. }
  eapply triple_bind; [apply (triple_modify _ P P)|intros _].
  { intros s Hs. by eapply HP. }
  eapply triple_bind; [exact Hd|intros _].
  apply triple_modify. intros s Hs. by eapply HQ.
Qed.

(** **** What the predicates depend on *)

Lemma unbound_same_scopes x N0 : stable same_scopes (unbound x N0).
Proof.
  intros s s' HU (E1 & E2 & E3). unfold unbound, current_names in *.
  by rewrite E1, E2, E3.
Qed.

Lemma bound_to_param_same_scopes x p N0 r :
  stable same_scopes (bound_to_param x p N0 r).
Proof.
  intros s s' HB (E1 & E2 & E3). unfold bound_to_param, current_names in *.
  by rewrite E1, E2, E3.
Qed.

Lemma read_by_same_scopes r node : stable same_scopes (read_by r node).
Proof. intros s s' HR (E1 & E2 & E3). unfold read_by in *. by rewrite E1. Qed.

Lemma exists_same_scopes {X} (P : X → state → Prop) :
  (∀ x, stable same_scopes (P x)) → stable same_scopes (λ s, ∃ x, P x s).
Proof. intros H s s' [x Hs] HE. exists x. by eapply H. Qed.

Lemma and_same_scopes (P Q : state → Prop) :
  stable same_scopes P → stable same_scopes Q →
  stable same_scopes (λ s, P s ∧ Q s).
Proof. intros HP HQ s s' [H1 H2] HE. split; [by eapply HP|by eapply HQ]. Qed.

Lemma bound_to_param_stable x p N0 r :
  stable scope_extends (bound_to_param x p N0 r).
Proof.
  intros s s' (Hcur & HN & n & Hn & Hd) ((Hobjs & _) & _ & _ & Hsub).
  split_and!; [|done|].
  - by eapply lookup_weaken.
  - destruct (Hobjs r n Hn) as (n' & Hn' & _ & Hdef & _). exists n'. auto.
Qed.

Lemma read_by_stable r node : stable scope_extends (read_by r node).
Proof.
  intros s s' (n & Hn & Hin) ((Hobjs & _) & _).
  destruct (Hobjs r n Hn) as (n' & Hn' & _ & _ & Hreads & _).
  exists n'. split; [done|]. by eapply elem_of_prefix.
Qed.

Lemma older_stable N0 :
  stable scope_extends (λ s, (N0 ≤ length (name_objs s))%nat).
Proof.
  intros s s' HN (Hacc & _). apply accumulates_length in Hacc. lia.
Qed.

Lemma exists_stable {X} (P : X → state → Prop) :
  (∀ x, stable scope_extends (P x)) → stable scope_extends (λ s, ∃ x, P x s).
Proof. intros H s s' [x Hs] HE. exists x. by eapply H. Qed.

Lemma and_stable (P Q : state → Prop) :
  stable scope_extends P → stable scope_extends Q →
  stable scope_extends (λ s, P s ∧ Q s).
Proof. intros HP HQ s s' [H1 H2] HE. split; [by eapply HP|by eapply HQ]. Qed.

(** **** Before the parameter is defined *)

Section parameter.
Variables (x : string) (p : ast.arg) (N0 : nat).
Hypothesis p_name : ast.arg_name p = x.


Lemma unbound_keep s s' :
  (unbound x N0) s → scopes s' = scopes s → names s' = names s →
  (length (name_objs s) ≤ length (name_objs s'))%nat → (unbound x N0) s'.
Proof.
  intros (Hsc & Hx & HN) E1 E2 Hlen. unfold unbound, current_names in *.
  rewrite E1, E2. split_and!; [done|done|lia].
Qed.

Lemma define_name_unbound y node :
  y ≠ x → triple (unbound x N0) (define_name y node) (unbound x N0).
Proof.
  intros Hy s (Hsc & Hx & HN). apply returns_define_name.
  destruct (current_names s !! y) as [r|] eqn:Hcur.
  - split_and!; [done|done|]. simpl. by rewrite length_alter.
  - split_and!.
    + by destruct s as [objs [|sc ss] ns ext ps nn q].
    + rewrite current_names_bind_current_insert.
      by rewrite lookup_insert_ne.
    + rewrite bind_current_name_objs. simpl. rewrite length_app. lia.
Qed.

Lemma lookup_name_unbound y : triple (unbound x N0) (lookup_name y) (unbound x N0).
Proof.
  intros s HU. apply returns_lookup_name.
  destruct (resolve s y); [done|].
  destruct HU as (Hsc & Hx & HN). split_and!; [done| |].
  - unfold current_names in *. simpl. by destruct (scopes s).
  - simpl. rewrite length_app. lia.
Qed.

Lemma Name_lookup_name_unbound self name :
  triple (unbound x N0) (Name_lookup_name self name) (unbound x N0).
Proof.
  intros s HU.
  destruct (Name_lookup_name_accumulates self name s) as (r & s' & Hrun & Hacc).
  destruct (Name_lookup_name_tables_same self name s)
    as (r2 & s2 & Hrun2 & Hsc & Hn).
  rewrite Hrun in Hrun2. injection Hrun2 as <- <-.
  exists r, s'. split; [done|].
  eapply unbound_keep; [done..|]. by apply accumulates_length.
Qed.

Lemma Name_add_reference_unbound self node :
  triple (unbound x N0) (Name_add_reference self node) (unbound x N0).
Proof.
  apply triple_modify. intros s HU. eapply unbound_keep; [done..|].
  simpl. by rewrite length_alter.
Qed.

Lemma set_name_for_node_unbound node name :
  triple (unbound x N0) (set_name_for_node node name) (unbound x N0).
Proof. apply triple_modify. intros s HU. by eapply unbound_keep. Qed.

Lemma get_name_for_node_unbound node : triple (unbound x N0) (get_name_for_node node) (unbound x N0).
Proof.
  unfold get_name_for_node. eapply triple_bind; [apply triple_get|].
  intros s. by apply triple_ret.
Qed.

Lemma visit_unbound node dispatch :
  triple (unbound x N0) dispatch (unbound x N0) → triple (unbound x N0) (visit node dispatch) (unbound x N0).
Proof. apply triple_visit; apply unbound_same_scopes. Qed.

Lemma visit_ctx_unbound c : triple (unbound x N0) (visit_ctx c) (unbound x N0).
Proof. apply visit_unbound. by apply triple_ret. Qed.

Ltac unbound_step :=
  first
    [ assumption
    | apply visit_ctx_unbound
    | apply lookup_name_unbound
    | apply Name_lookup_name_unbound
    | apply Name_add_reference_unbound
    | apply set_name_for_node_unbound
    | apply get_name_for_node_unbound
    | apply visit_unbound
    | apply triple_try_except_pass
    | apply triple_ret; solve [auto]
    | apply (triple_bind _ _ (unbound x N0) (unbound x N0) (unbound x N0)); [|intros ?]
    | match goal with
      | |- triple _ (match ?x with _ => _ end) _ => destruct x
      end ].

Lemma visit_expr_unbound e :
  expr_binds x e = false → triple (unbound x N0) (visit_expr e) (unbound x N0).
Proof.
  induction e as [i ident ctx|i n|i s|i v IH|i v IH attr ctx]; simpl;
    intros Hb; apply visit_unbound.
  - unfold visit_Name. apply (triple_bind _ _ (unbound x N0) (unbound x N0) (unbound x N0));
      [|intros ?; apply visit_ctx_unbound].
    destruct (ast.ctx_kind ctx); rewrite ?andb_true_r, ?andb_false_r in Hb;
      try apply bool_decide_eq_false in Hb;
      try (apply (triple_bind _ _ (unbound x N0) (unbound x N0) (unbound x N0));
           [by apply define_name_unbound|intros ?; by apply triple_ret]);
      repeat unbound_step.
  - by apply triple_ret.
  - by apply triple_ret.
  - by apply IH.
  - unfold visit_Attribute. specialize (IH Hb). repeat unbound_step.
Qed.

Lemma for_each_visit_expr_unbound es :
  Forall (λ e, expr_binds x e = false) es →
  triple (unbound x N0) (for_each visit_expr es) (unbound x N0).
Proof.
  intros Hes. apply triple_for_each. intros e He.
  apply visit_expr_unbound. by eapply (proj1 (Forall_forall _ _) Hes).
Qed.

Lemma visit_arg_unbound q :
  ast.arg_name q ≠ x →
  (∀ e, ast.annotation q = Some e → expr_binds x e = false) →
  triple (unbound x N0) (visit_arg q) (unbound x N0).
Proof.
  intros Hq Hann. unfold visit_arg. apply visit_unbound.
  apply (triple_bind _ _ (unbound x N0) (unbound x N0) (unbound x N0)); [by apply define_name_unbound|intros _].
  destruct (ast.annotation q) as [e|]; simpl.
  - by apply visit_expr_unbound, Hann.
  - by apply triple_ret.
Qed.

(** **** The parameter is defined *)

Lemma param_bound_stable : stable scope_extends (param_bound x (ast.arg_id p) N0).
Proof. apply exists_stable. intros r. apply bound_to_param_stable. Qed.

Lemma param_bound_same_scopes : stable same_scopes (param_bound x (ast.arg_id p) N0).
Proof. apply exists_same_scopes. intros r. apply bound_to_param_same_scopes. Qed.

Lemma define_name_param : triple (unbound x N0) (define_name x (ast.arg_id p)) (param_bound x (ast.arg_id p) N0).
Proof.
  intros s (Hsc & Hx & HN). apply returns_define_name. rewrite Hx.
  exists (length (name_objs s)). split_and!; [|done|].
  - by rewrite current_names_bind_current_insert, lookup_insert_eq.
  - eexists. split.
    + rewrite bind_current_name_objs. simpl.
      by rewrite lookup_app_r, Nat.sub_diag.
    + reflexivity.
Qed.

Lemma visit_arg_param : triple (param_pending x (ast.arg_id p) N0) (visit_arg p) (param_bound x (ast.arg_id p) N0).
Proof.
  apply triple_or.
  - unfold visit_arg. apply triple_visit;
      [apply unbound_same_scopes|apply param_bound_same_scopes|].
    rewrite p_name. eapply triple_bind; [apply define_name_param|intros _].
    apply (triple_preserves scope_extends); [apply param_bound_stable|].
    apply visit_opt_keeps; [tc_solve|apply visit_expr_scope_extends].
  - apply (triple_preserves scope_extends); [apply param_bound_stable|].
    apply visit_arg_scope_extends.
Qed.

Lemma visit_arg_either q :
  (ast.arg_name q = x → q = p) →
  (∀ e, ast.annotation q = Some e → expr_binds x e = false) →
  triple (param_pending x (ast.arg_id p) N0) (visit_arg q)
    (param_pending x (ast.arg_id p) N0).
Proof.
  intros Hq Hann. destruct (decide (ast.arg_name q = x)) as [Hx|Hx].
  - rewrite (Hq Hx).
    eapply triple_conseq; [apply visit_arg_param|done|by right].
  - apply triple_or.
    + eapply triple_conseq; [by apply visit_arg_unbound|done|by left].
    + eapply triple_conseq;
        [apply (triple_preserves scope_extends);
           [apply param_bound_stable|apply visit_arg_scope_extends]
        |done|by right].
Qed.

Lemma visit_arg_bound q : triple (param_bound x (ast.arg_id p) N0) (visit_arg q) (param_bound x (ast.arg_id p) N0).
Proof.
  apply (triple_preserves scope_extends);
    [apply param_bound_stable|apply visit_arg_scope_extends].
Qed.

Lemma visit_opt_visit_arg_either o :
  (∀ q, o = Some q → ast.arg_name q = x → q = p) →
  (∀ q e, o = Some q → ast.annotation q = Some e → expr_binds x e = false) →
  triple (param_pending x (ast.arg_id p) N0) (visit_opt visit_arg o) (param_pending x (ast.arg_id p) N0).
Proof.
  intros Hq Hann. destruct o as [q|]; simpl.
  - apply visit_arg_either; eauto.
  - by apply triple_ret.
Qed.

Lemma visit_opt_visit_arg_bound o : triple (param_bound x (ast.arg_id p) N0) (visit_opt visit_arg o) (param_bound x (ast.arg_id p) N0).
Proof.
  destruct o as [q|]; simpl; [apply visit_arg_bound|by apply triple_ret].
Qed.

Lemma visit_arguments_param a :
  p ∈ visited_params a →
  (∀ q, q ∈ visited_params a → ast.arg_name q = x → q = p) →
  Forall (λ e, expr_binds x e = false)
    (ast.defaults a ++ omap ast.annotation (visited_params a)) →
  triple (unbound x N0) (visit_arguments a) (param_bound x (ast.arg_id p) N0).
Proof.
  intros Hp Huniq Hexprs. apply Forall_app in Hexprs as [Hdefaults Hanns].
  assert (∀ q e, q ∈ visited_params a → ast.annotation q = Some e →
                 expr_binds x e = false) as Hann.
  { intros q e Hq He. eapply (proj1 (Forall_forall _ _) Hanns).
    apply list_elem_of_omap. by exists q. }
  assert (triple (param_pending x (ast.arg_id p) N0) (for_each visit_arg (ast.args a))
            (param_pending x (ast.arg_id p) N0)) as Hargs.
  { apply triple_for_each. intros q Hq.
    assert (q ∈ visited_params a) by (apply elem_of_app; by left).
    apply visit_arg_either; eauto. }
  assert (∀ q, ast.vararg a = Some q → q ∈ visited_params a) as Hin_vararg.
  { intros q Hq. unfold visited_params. rewrite Hq.
    apply elem_of_app; right. apply elem_of_app; left.
    apply list_elem_of_here. }
  assert (∀ q, ast.kwarg a = Some q → q ∈ visited_params a) as Hin_kwarg.
  { intros q Hq. unfold visited_params. rewrite Hq.
    apply elem_of_app; right. apply elem_of_app; right.
    apply list_elem_of_here. }
  assert (triple (param_pending x (ast.arg_id p) N0)
            (visit_opt visit_arg (ast.vararg a))
            (param_pending x (ast.arg_id p) N0)) as Hvararg.
  { apply visit_opt_visit_arg_either; eauto. }
  unfold visit_arguments. apply triple_visit;
    [apply unbound_same_scopes|apply param_bound_same_scopes|].
  eapply triple_bind;
    [apply triple_try_except_pass, for_each_visit_expr_unbound, Hdefaults
    |intros _].
  eapply triple_conseq with (P := param_pending x (ast.arg_id p) N0)
                            (Q := param_bound x (ast.arg_id p) N0);
    [|by left|done].
  unfold visited_params in Hp.
  apply elem_of_app in Hp as [Hp|Hp]; [|apply elem_of_app in Hp as [Hp|Hp]].
  - apply (triple_bind _ _ _ (param_bound x (ast.arg_id p) N0));
      [|intros _; apply (triple_bind _ _ _ (param_bound x (ast.arg_id p) N0));
        [|intros _]].
    + apply triple_try_except_pass.
      apply (triple_for_each_at _ p); [done| | |apply visit_arg_param].
      * intros q Hq.
        assert (q ∈ visited_params a) by (apply elem_of_app; by left).
        apply visit_arg_either; eauto.
      * intros q _. apply visit_arg_bound.
    + apply triple_try_except_pass, visit_opt_visit_arg_bound.
    + apply triple_try_except_pass, visit_opt_visit_arg_bound.
  - apply (triple_bind _ _ _ (param_pending x (ast.arg_id p) N0));
      [|intros _; apply (triple_bind _ _ _ (param_bound x (ast.arg_id p) N0));
        [|intros _]].
    + apply triple_try_except_pass, Hargs.
    + apply triple_try_except_pass.
      destruct (ast.vararg a) as [q|]; [|by apply elem_of_nil in Hp].
      apply list_elem_of_singleton in Hp as <-. simpl. apply visit_arg_param.
    + apply triple_try_except_pass, visit_opt_visit_arg_bound.
  - apply (triple_bind _ _ _ (param_pending x (ast.arg_id p) N0));
      [|intros _; apply (triple_bind _ _ _ (param_pending x (ast.arg_id p) N0));
        [|intros _]].
    + apply triple_try_except_pass, Hargs.
    + apply triple_try_except_pass, Hvararg.
    + apply triple_try_except_pass.
      destruct (ast.kwarg a) as [q|]; [|by apply elem_of_nil in Hp].
      apply list_elem_of_singleton in Hp as <-. simpl. apply visit_arg_param.
Qed.

End parameter.

(** **** The read in the body *)

Lemma set_name_for_node_scope_extends node name :
  preserves scope_extends (set_name_for_node node name).
Proof. scope_extends_primitives. Qed.

Lemma get_name_for_node_scope_extends node :
  preserves scope_extends (get_name_for_node node).
Proof. apply get_name_for_node_keeps. tc_solve. Qed.

Lemma visit_ctx_scope_extends c : preserves scope_extends (visit_ctx c).
Proof. apply visit_ctx_keeps; scope_extends_primitives. Qed.

#[local] Hint Resolve set_name_for_node_scope_extends
  get_name_for_node_scope_extends visit_ctx_scope_extends
  visit_expr_scope_extends visit_arg_scope_extends
  visit_arguments_scope_extends visit_stmt_scope_extends : scope_extends.

Ltac scope_extends_step :=
  first
    [ solve [auto 2 with scope_extends]
    | apply preserves_ret; tc_solve
    | apply preserves_get; tc_solve
    | apply preserves_bind; [tc_solve| |intros ?]
    | apply preserves_try_except_pass
    | apply for_each_keeps; [tc_solve|intros ?]
    | apply visit_opt_keeps; [tc_solve|intros ?]
    | match goal with
      | |- preserves _ (match ?x with _ => _ end) => destruct x
      end ].

Lemma triple_then {A B} (R : relation state) (m : M state A)
    (k : A → M state B) P Q :
  stable R Q →
  triple P m Q → (∀ a, preserves R (k a)) → triple P (m ≫= k) Q.
Proof.
  intros HQ Hm Hk. eapply triple_bind; [exact Hm|].
  intros a. by apply (triple_preserves R).
Qed.

Lemma triple_after {A B} (R : relation state) (m : M state A)
    (k : A → M state B) P Q :
  stable R P →
  preserves R m → (∀ a, triple P (k a) Q) → triple P (m ≫= k) Q.
Proof.
  intros HP Hm Hk.
  eapply triple_bind; [by apply (triple_preserves R)|exact Hk].
Qed.

Lemma triple_for_each_one {A} (body : A → M state unit) x xs P Q :
  stable scope_extends P → stable scope_extends Q →
  x ∈ xs →
  (∀ y, preserves scope_extends (body y)) →
  triple P (body x) Q →
  triple P (for_each body xs) Q.
Proof.
  intros HP HQ Hin Hbody Hx.
  apply (triple_for_each_at _ x); [done| | |done];
    intros y _; by apply (triple_preserves scope_extends).
Qed.

(** **** Visits that leave the Name of [x] alone *)

#[local] Instance resolves_kept_preorder x : PreOrder (resolves_kept x).
Proof.
  split.
  - intros s. by split.
  - intros s1 s2 s3 [A1 R1] [A2 R2]. split; [by etrans|auto].
Qed.

Lemma resolves_kept_same x s s' :
  accumulates s s' → scopes s' = scopes s → names s' = names s →
  resolves_kept x s s'.
Proof.
  intros Hacc E1 E2. split; [done|]. unfold resolve. by rewrite E1, E2.
Qed.

Lemma resolves_name_stable x r : stable (resolves_kept x) (resolves_name x r).
Proof.
  intros s s' [Hres [n Hn]] [(Hobjs & _) Hkept]. split; [auto|].
  destruct (Hobjs r n Hn) as (n' & Hn' & _). by exists n'.
Qed.

Lemma resolves_name_same_scopes x r : stable same_scopes (resolves_name x r).
Proof.
  intros s s' HC (E1 & E2 & E3). unfold resolves_name, resolve in *.
  by rewrite E1, E2, E3.
Qed.

Lemma read_by_accumulates r node : stable accumulates (read_by r node).
Proof.
  intros s s' (n & Hn & Hin) (Hobjs & _).
  destruct (Hobjs r n Hn) as (n' & Hn' & _ & _ & Hreads & _).
  exists n'. split; [done|]. by eapply elem_of_prefix.
Qed.

Lemma existsb_false_Forall {A} (f : A → bool) l :
  existsb f l = false → Forall (λ a, f a = false) l.
Proof.
  induction l as [|a l IH]; simpl; [by constructor|].
  intros [Ha Hl]%orb_false_elim. constructor; auto.
Qed.

Lemma existsb_elem_of {A} (f : A → bool) l :
  existsb f l = true → ∃ a, a ∈ l ∧ f a = true.
Proof.
  intros H. apply existsb_exists in H as (a & Hin & Ha).
  exists a. split; [by apply list_elem_of_In|done].
Qed.

Lemma Forall_modus {A} (P Q : A → Prop) l :
  Forall (λ a, P a → Q a) l → Forall P l → Forall Q l.
Proof. induction 1; inversion 1; constructor; auto. Qed.

Lemma resolve_bind_current x y N s :
  y ≠ x → resolve (bind_current y N s) x = resolve s x.
Proof.
  intros Hy. destruct s as [objs [|sc ss] ns ext ps nn q]; unfold resolve; cbn.
  - by rewrite lookup_insert_ne.
  - by rewrite lookup_insert_ne.
Qed.

Lemma lookup_chain_scopes_with x name st :
  name ≠ x →
  lookup_chain (scopes_with name st) x = lookup_chain (scopes st) x.
Proof.
  intros Hne. unfold scopes_with. destruct (current_names st !! name); [done|].
  destruct st as [objs [|sc ss] ns ext ps nn q]; cbn; [done|].
  by rewrite lookup_insert_ne.
Qed.

Section nested.
Variable x : string.

Lemma Name_add_reference_resolves_kept self node :
  preserves (resolves_kept x) (Name_add_reference self node).
Proof.
  apply preserves_modify. intros s. apply resolves_kept_same; [|done..].
  apply accumulates_alter, Name_extends_add_reference.
Qed.

Lemma Name_define_resolves_kept self node :
  preserves (resolves_kept x) (Name_define self node).
Proof.
  apply preserves_modify. intros s. apply resolves_kept_same; [|done..].
  apply accumulates_alter, Name_extends_define.
Qed.

Lemma Name_lookup_name_resolves_kept self name :
  preserves (resolves_kept x) (Name_lookup_name self name).
Proof.
  intros s.
  destruct (Name_lookup_name_accumulates self name s) as (r & s' & Hrun & Hacc).
  destruct (Name_lookup_name_tables_same self name s)
    as (r2 & s2 & Hrun2 & Hsc & Hn).
  rewrite Hrun in Hrun2. injection Hrun2 as <- <-.
  exists r, s'. split; [done|]. by apply resolves_kept_same.
Qed.

Lemma define_name_resolves_kept y node :
  y ≠ x → preserves (resolves_kept x) (define_name y node).
Proof.
  intros Hy s.
  destruct (define_name_accumulates y node s) as (r & s' & Hrun & Hacc).
  exists r, s'. split; [done|]. split; [done|].
  rewrite define_name_run in Hrun.
  destruct (current_names s !! y); injection Hrun as <- <-; [done|].
  intros r0 Hr0. by rewrite resolve_bind_current.
Qed.

Lemma lookup_name_resolves_kept y :
  preserves (resolves_kept x) (lookup_name y).
Proof.
  intros s.
  destruct (lookup_name_accumulates y s) as (r & s' & Hrun & Hacc).
  exists r, s'. split; [done|]. split; [done|].
  rewrite lookup_name_spec in Hrun.
  destruct (resolve s y) eqn:Hy; injection Hrun as <- <-; [done|].
  intros r0 Hr0. unfold resolve in *. simpl.
  destruct (lookup_chain (scopes s) x); [done|].
  destruct (decide (y = x)) as [->|Hne].
  - destruct (lookup_chain (scopes s) x); congruence.
  - by rewrite lookup_insert_ne.
Qed.

Lemma set_name_for_node_resolves_kept node name :
  preserves (resolves_kept x) (set_name_for_node node name).
Proof.
  apply preserves_modify. intros s.
  apply resolves_kept_same; [by apply accumulates_same|done..].
Qed.

Lemma add_external_reference_resolves_kept name node packages :
  preserves (resolves_kept x) (add_external_reference name node packages).
Proof.
  apply preserves_modify. intros s.
  apply resolves_kept_same; [by apply accumulates_same|done..].
Qed.

Lemma visit_resolves_kept node dispatch :
  preserves (resolves_kept x) dispatch →
  preserves (resolves_kept x) (visit node dispatch).
Proof.
  intros Hd. unfold visit.
  repeat first
    [ done
    | apply preserves_get; tc_solve
    | apply preserves_bind; [tc_solve| |intros ?]
    | apply preserves_modify; intros ?; apply resolves_kept_same;
        [by apply accumulates_same|done..] ].
  intros s.
  destruct (set_parent_accumulates node (_parent a) s) as ([] & s' & Hrun & Hacc).
  exists tt, s'. split; [done|]. injection Hrun as <-.
  by apply resolves_kept_same.
Qed.

Lemma visit_ctx_resolves_kept c : preserves (resolves_kept x) (visit_ctx c).
Proof.
  apply visit_resolves_kept. apply preserves_ret. tc_solve.
Qed.

Lemma get_name_for_node_resolves_kept node :
  preserves (resolves_kept x) (get_name_for_node node).
Proof. apply get_name_for_node_keeps. tc_solve. Qed.

Ltac resolves_kept_step :=
  first
    [ assumption
    | apply visit_ctx_resolves_kept
    | apply lookup_name_resolves_kept
    | apply Name_lookup_name_resolves_kept
    | apply Name_add_reference_resolves_kept
    | apply Name_define_resolves_kept
    | apply set_name_for_node_resolves_kept
    | apply add_external_reference_resolves_kept
    | apply get_name_for_node_resolves_kept
    | apply visit_resolves_kept
    | apply preserves_try_except_pass
    | apply preserves_ret; tc_solve
    | apply preserves_get; tc_solve
    | apply preserves_bind; [tc_solve| |intros ?]
    | match goal with
      | |- preserves _ (match ?x with _ => _ end) => destruct x
      end ].

Lemma visit_expr_nobind e :
  expr_binds x e = false → preserves (resolves_kept x) (visit_expr e).
Proof.
  induction e as [i ident ctx|i n|i s|i v IH|i v IH attr ctx]; simpl;
    intros Hb; apply visit_resolves_kept.
  - unfold visit_Name. apply preserves_bind;
      [tc_solve| |intros ?; apply visit_ctx_resolves_kept].
    destruct (ast.ctx_kind ctx); rewrite ?andb_true_r, ?andb_false_r in Hb;
      try apply bool_decide_eq_false in Hb;
      try (apply preserves_bind;
           [tc_solve|by apply define_name_resolves_kept
           |intros ?; apply preserves_ret; tc_solve]);
      repeat resolves_kept_step.
  - apply preserves_ret. tc_solve.
  - apply preserves_ret. tc_solve.
  - by apply IH.
  - unfold visit_Attribute. specialize (IH Hb). repeat resolves_kept_step.
Qed.

Lemma for_each_visit_expr_nobind es :
  existsb (expr_binds x) es = false →
  preserves (resolves_kept x) (for_each visit_expr es).
Proof.
  intros Hes. apply preserves_for_each; [tc_solve|].
  eapply Forall_impl; [by apply existsb_false_Forall|].
  intros e. apply visit_expr_nobind.
Qed.

Lemma visit_opt_visit_expr_nobind o :
  from_option (expr_binds x) false o = false →
  preserves (resolves_kept x) (visit_opt visit_expr o).
Proof.
  destruct o as [e|]; simpl; [apply visit_expr_nobind|].
  intros _. apply preserves_ret. tc_solve.
Qed.

Lemma visit_arg_nobind q :
  arg_binds x q = false → preserves (resolves_kept x) (visit_arg q).
Proof.
  intros [Hq Hann]%orb_false_elim. apply bool_decide_eq_false in Hq.
  unfold visit_arg. apply visit_resolves_kept.
  apply preserves_bind; [tc_solve|by apply define_name_resolves_kept|intros _].
  by apply visit_opt_visit_expr_nobind.
Qed.

Lemma params_bind_false a :
  params_bind x a = false →
  existsb (expr_binds x) (ast.defaults a) = false
  ∧ existsb (arg_binds x) (ast.args a) = false
  ∧ (∀ q, ast.vararg a = Some q → arg_binds x q = false)
  ∧ (∀ q, ast.kwarg a = Some q → arg_binds x q = false).
Proof.
  unfold params_bind, visited_params.
  intros [Hd Hp]%orb_false_elim.
  rewrite !existsb_app in Hp.
  apply orb_false_elim in Hp as [Hargs Hp].
  apply orb_false_elim in Hp as [Hv Hk].
  split_and!; [done..| |].
  - intros q Hq. rewrite Hq in Hv. simpl in Hv.
    by apply orb_false_elim in Hv as [? _].
  - intros q Hq. rewrite Hq in Hk. simpl in Hk.
    by apply orb_false_elim in Hk as [? _].
Qed.

Lemma visit_opt_visit_arg_nobind o :
  (∀ q, o = Some q → arg_binds x q = false) →
  preserves (resolves_kept x) (visit_opt visit_arg o).
Proof.
  destruct o as [q|]; simpl; intros H.
  - by apply visit_arg_nobind, H.
  - apply preserves_ret. tc_solve.
Qed.

Lemma for_each_visit_arg_nobind qs :
  existsb (arg_binds x) qs = false →
  preserves (resolves_kept x) (for_each visit_arg qs).
Proof.
  intros Hqs. apply preserves_for_each; [tc_solve|].
  eapply Forall_impl; [by apply existsb_false_Forall|].
  intros q. apply visit_arg_nobind.
Qed.

Lemma visit_arguments_nobind a :
  params_bind x a = false → preserves (resolves_kept x) (visit_arguments a).
Proof.
  intros (Hd & Hargs & Hv & Hk)%params_bind_false.
  unfold visit_arguments. apply visit_resolves_kept.
  repeat first
    [ by apply for_each_visit_expr_nobind
    | by apply for_each_visit_arg_nobind
    | by apply visit_opt_visit_arg_nobind
    | apply preserves_try_except_pass
    | apply preserves_bind; [tc_solve| |intros ?] ].
Qed.

Lemma define_submodules_resolves_kept cur parts alias :
  preserves (resolves_kept x) (define_submodules cur parts alias).
Proof.
  apply define_submodules_keeps;
    [tc_solve|apply Name_define_resolves_kept
    |apply Name_lookup_name_resolves_kept].
Qed.

Lemma visit_alias_resolves_kept alias :
  preserves (resolves_kept x) (visit_alias alias).
Proof.
  apply visit_resolves_kept. apply preserves_ret. tc_solve.
Qed.

Lemma visit_Import_nobind node names :
  existsb (import_binds x) names = false →
  preserves (resolves_kept x) (visit_Import node names).
Proof.
  intros Hnames. apply existsb_false_Forall in Hnames.
  unfold visit_Import. apply preserves_bind; [tc_solve| |intros _].
  - apply preserves_for_each; [tc_solve|].
    eapply Forall_impl; [exact Hnames|]. intros alias Halias. simpl.
    apply bool_decide_eq_false in Halias.
    apply preserves_bind;
      [tc_solve|apply add_external_reference_resolves_kept|intros _].
    destruct (negb (truthy (ast.asname alias))).
    + apply preserves_bind;
        [tc_solve|by apply define_name_resolves_kept|intros cur].
      apply define_submodules_resolves_kept.
    + apply preserves_bind;
        [tc_solve|by apply define_name_resolves_kept|intros _].
      apply preserves_ret. tc_solve.
  - apply for_each_keeps; [tc_solve|apply visit_alias_resolves_kept].
Qed.

Lemma visit_ImportFrom_nobind node module names :
  existsb (from_binds x) names = false →
  preserves (resolves_kept x) (visit_ImportFrom node module names).
Proof.
  intros Hnames. apply existsb_false_Forall in Hnames.
  unfold visit_ImportFrom. apply preserves_bind; [tc_solve| |intros _].
  { destruct (truthy module);
      [apply add_external_reference_resolves_kept
      |apply preserves_ret; tc_solve]. }
  apply preserves_bind; [tc_solve| |intros _].
  - apply preserves_for_each; [tc_solve|].
    eapply Forall_impl; [exact Hnames|]. intros alias Halias. simpl.
    apply bool_decide_eq_false in Halias.
    apply preserves_bind;
      [tc_solve|by apply define_name_resolves_kept|intros _].
    destruct (truthy module);
      [apply add_external_reference_resolves_kept
      |apply preserves_ret; tc_solve].
  - apply for_each_keeps; [tc_solve|apply visit_alias_resolves_kept].
Qed.

(** The chain of scopes after the visit of a definition. *)
Lemma visit_def_scopes s name st :
  (∃ i args body decorator_list returns,
     s = ast.FunctionDef i name args body decorator_list returns)
  ∨ (∃ i bases body decorator_list,
       s = ast.ClassDef i name bases body decorator_list) →
  returns (visit_stmt s) st (λ _ st', scopes st' = scopes_with name st).
Proof.
  intros [(i & args & body & decs & returns & ->)
         |(i & bases & body & decs & ->)];
    cbn [visit_stmt]; apply scoped_scopes; intros s;
    unfold visit_FunctionDef, visit_ClassDef;
    (eapply returns_mono;
     [apply (scoped_returns _ _ _ s (λ _ s', scopes s' = scopes_with name s));
      [repeat enclosing_same_step|apply define_name_scopes]
     |by intros [] s' [_ H]]).
Qed.

(** A definition whose name is not [x]: whatever its body binds, it binds
    in a scope that is left again. *)
Lemma visit_def_resolves_kept s name :
  name ≠ x →
  (∃ i args body decorator_list returns,
     s = ast.FunctionDef i name args body decorator_list returns)
  ∨ (∃ i bases body decorator_list,
       s = ast.ClassDef i name bases body decorator_list) →
  preserves (resolves_kept x) (visit_stmt s).
Proof.
  intros Hne Hs st.
  destruct (visit_stmt_accumulates s st) as ([] & st' & Hrun & Hacc).
  destruct (visit_def_scopes s name st Hs) as ([] & st2 & Hrun2 & Hscopes).
  rewrite Hrun in Hrun2. injection Hrun2 as <-.
  exists tt, st'. split; [done|]. split; [done|].
  intros r Hr. unfold resolve in *.
  rewrite Hscopes, lookup_chain_scopes_with by done.
  destruct (lookup_chain (scopes st) x); [done|].
  destruct Hacc as (_ & Hnames & _). by eapply lookup_weaken.
Qed.

Lemma visit_stmt_nobind s :
  stmt_binds x s = false → preserves (resolves_kept x) (visit_stmt s).
Proof.
  induction s;
    repeat match goal with
           | H : list_all _ _ _ |- _ => apply Scope.list_all_Forall in H
           end;
    intros Hb; simpl in Hb.
  - cbn [visit_stmt]. by apply visit_resolves_kept, visit_Import_nobind.
  - cbn [visit_stmt]. by apply visit_resolves_kept, visit_ImportFrom_nobind.
  - cbn [visit_stmt]. by apply visit_resolves_kept, visit_expr_nobind.
  - cbn [visit_stmt]. apply orb_false_elim in Hb as [Ht Hv].
    apply visit_resolves_kept.
    apply preserves_bind; [tc_solve|by apply for_each_visit_expr_nobind|].
    intros _. by apply visit_expr_nobind.
  - cbn [visit_stmt]. apply orb_false_elim in Hb as [Hb Ho].
    apply orb_false_elim in Hb as [Ht Hb].
    apply existsb_false_Forall in Hb, Ho.
    apply visit_resolves_kept.
    apply preserves_bind; [tc_solve|by apply visit_expr_nobind|intros _].
    apply preserves_bind; [tc_solve| |intros _];
      (apply preserves_for_each; [tc_solve|]);
      (eapply (Forall_modus (λ s, stmt_binds x s = false));
       [eassumption|eassumption]).
  - cbn [visit_stmt]. apply orb_false_elim in Hb as [Hb Ho].
    apply orb_false_elim in Hb as [Ht Hb].
    apply existsb_false_Forall in Hb, Ho.
    apply visit_resolves_kept.
    apply preserves_bind; [tc_solve|by apply visit_expr_nobind|intros _].
    apply preserves_bind; [tc_solve| |intros _];
      (apply preserves_for_each; [tc_solve|]);
      (eapply (Forall_modus (λ s, stmt_binds x s = false));
       [eassumption|eassumption]).
  - cbn [visit_stmt]. apply visit_resolves_kept, preserves_ret. tc_solve.
  - cbn [visit_stmt]. by apply visit_resolves_kept, visit_opt_visit_expr_nobind.
  - apply bool_decide_eq_false in Hb.
    apply (visit_def_resolves_kept _ name); [done|]. left. eauto 10.
  - apply bool_decide_eq_false in Hb.
    apply (visit_def_resolves_kept _ name); [done|]. right. eauto 10.
Qed.

End nested.

(** **** A read where [x] resolves to [r] *)

Lemma visit_arg_accumulates q : preserves accumulates (visit_arg q).
Proof. apply visit_arg_keeps; accumulates_primitives. Qed.

Lemma visit_ctx_accumulates c : preserves accumulates (visit_ctx c).
Proof. apply visit_ctx_keeps; accumulates_primitives. Qed.

Lemma get_name_for_node_accumulates node :
  preserves accumulates (get_name_for_node node).
Proof. apply get_name_for_node_keeps. tc_solve. Qed.

Lemma set_name_for_node_accumulates node name :
  preserves accumulates (set_name_for_node node name).
Proof. apply preserves_modify. intros ?. by apply accumulates_same. Qed.

Ltac accumulates_tac :=
  first
    [ assumption
    | apply visit_ctx_accumulates
    | apply visit_expr_accumulates
    | apply visit_arg_accumulates
    | apply visit_arguments_accumulates
    | apply visit_stmt_accumulates
    | apply get_name_for_node_accumulates
    | apply set_name_for_node_accumulates
    | apply Name_lookup_name_accumulates
    | apply Name_add_reference_accumulates
    | apply define_name_accumulates
    | apply preserves_try_except_pass
    | apply for_each_keeps; [tc_solve|intros ?]
    | apply visit_opt_keeps; [tc_solve|intros ?]
    | apply preserves_ret; tc_solve
    | apply preserves_bind; [tc_solve| |intros ?]
    | match goal with
      | |- preserves _ (match ?x with _ => _ end) => destruct x
      end ].

Section nested_read.
Variables (x : string) (r : nat) (node : loc).

Lemma push_scope_resolves_name :
  triple (resolves_name x r) push_scope (resolves_name x r).
Proof.
  apply triple_modify. intros s [Hres Hn]. split; [|done].
  unfold resolve in *. simpl. by rewrite lookup_empty.
Qed.

Lemma pop_scope_read_by : triple (read_by r node) pop_scope (read_by r node).
Proof. apply triple_modify. by intros s Hs. Qed.

Lemma visit_Name_reads_nested ctx :
  ast.ctx_kind ctx = ast.Load →
  triple (resolves_name x r) (visit_expr (ast.Name node x ctx))
    (read_by r node).
Proof.
  intros Hctx s [Hres [n Hn]].
  destruct (visit_Name_Load_returns node x ctx s Hctx)
    as ([] & s' & Hrun & r' & n' & Hres' & _ & Hn' & Hin & _).
  { intros r0 Hr0. rewrite Hres in Hr0. injection Hr0 as <-. by exists n. }
  destruct (visit_expr_nobind x (ast.Name node x ctx)) with (s := s)
    as ([] & s2 & Hrun2 & _ & Hkept).
  { simpl. rewrite Hctx. apply andb_false_r. }
  rewrite Hrun in Hrun2. injection Hrun2 as <-.
  exists tt, s'. split; [done|].
  rewrite (Hkept _ Hres) in Hres'. injection Hres' as <-. by exists n'.
Qed.

Lemma visit_expr_reads_nested e :
  expr_reads x node e = true →
  triple (resolves_name x r) (visit_expr e) (read_by r node).
Proof.
  induction e as [i ident ctx|i n|i s|i v IH|i v IH attr ctx];
    intros Hr; simpl in Hr; try done.
  - apply andb_prop in Hr as [Hr Hk]. apply andb_prop in Hr as [Hi Hx].
    apply bool_decide_eq_true in Hi as ->.
    apply bool_decide_eq_true in Hx as ->.
    destruct (ast.ctx_kind ctx) eqn:Hctx; try done.
    by apply visit_Name_reads_nested.
  - cbn [visit_expr]. apply triple_visit;
      [apply resolves_name_same_scopes|apply read_by_same_scopes|].
    by apply IH.
  - cbn [visit_expr]. apply triple_visit;
      [apply resolves_name_same_scopes|apply read_by_same_scopes|].
    unfold visit_Attribute.
    apply (triple_then accumulates); [apply read_by_accumulates| |intros _].
    + apply (triple_then accumulates);
        [apply read_by_accumulates|by apply IH|intros _].
      apply visit_ctx_accumulates.
    + repeat accumulates_tac.
Qed.

Lemma triple_for_each_read {A} (body : A → M state unit) a xs :
  a ∈ xs →
  Forall (λ y, preserves (resolves_kept x) (body y)) xs →
  (∀ y, preserves accumulates (body y)) →
  triple (resolves_name x r) (body a) (read_by r node) →
  triple (resolves_name x r) (for_each body xs) (read_by r node).
Proof.
  intros Hin Hkept Hacc Ha. apply (triple_for_each_at _ a); [done| | |done].
  - intros y Hy. apply (triple_preserves (resolves_kept x));
      [apply resolves_name_stable|].
    by eapply (proj1 (Forall_forall _ _) Hkept).
  - intros y _. by apply (triple_preserves accumulates);
      [apply read_by_accumulates|].
Qed.

Lemma for_each_visit_expr_reads_nested es :
  existsb (expr_binds x) es = false →
  existsb (expr_reads x node) es = true →
  triple (resolves_name x r) (for_each visit_expr es) (read_by r node).
Proof.
  intros Hb Hr. apply existsb_elem_of in Hr as (e & Hin & He).
  apply (triple_for_each_read _ e); [done| | |by apply visit_expr_reads_nested].
  - eapply Forall_impl; [by apply existsb_false_Forall|].
    intros e'. apply visit_expr_nobind.
  - apply visit_expr_accumulates.
Qed.

Lemma visit_opt_visit_expr_reads_nested o :
  from_option (expr_reads x node) false o = true →
  triple (resolves_name x r) (visit_opt visit_expr o) (read_by r node).
Proof.
  destruct o as [e|]; simpl; [apply visit_expr_reads_nested|done].
Qed.

Lemma visit_arg_reads_nested q :
  arg_binds x q = false →
  from_option (expr_reads x node) false (ast.annotation q) = true →
  triple (resolves_name x r) (visit_arg q) (read_by r node).
Proof.
  intros [Hq Hann]%orb_false_elim Hr. apply bool_decide_eq_false in Hq.
  unfold visit_arg. apply triple_visit;
    [apply resolves_name_same_scopes|apply read_by_same_scopes|].
  apply (triple_after (resolves_kept x));
    [apply resolves_name_stable|by apply define_name_resolves_kept|intros _].
  by apply visit_opt_visit_expr_reads_nested.
Qed.

Lemma visit_opt_visit_arg_reads_nested o :
  (∀ q, o = Some q → arg_binds x q = false) →
  existsb (λ q, from_option (expr_reads x node) false (ast.annotation q))
    (option_list o) = true →
  triple (resolves_name x r) (visit_opt visit_arg o) (read_by r node).
Proof.
  destruct o as [q|]; simpl; intros Hb Hr; [|done].
  rewrite orb_false_r in Hr. by apply visit_arg_reads_nested; [apply Hb|].
Qed.

Lemma visit_arguments_reads_nested a :
  params_bind x a = false →
  args_read x node a = true →
  triple (resolves_name x r) (visit_arguments a) (read_by r node).
Proof.
  intros (Hd & Hargs & Hv & Hk)%params_bind_false Hr.
  unfold args_read, visited_params in Hr. rewrite !existsb_app in Hr.
  unfold visit_arguments. apply triple_visit;
    [apply resolves_name_same_scopes|apply read_by_same_scopes|].
  apply orb_prop in Hr as [Hr|Hr];
    [|apply orb_prop in Hr as [Hr|Hr]; [|apply orb_prop in Hr as [Hr|Hr]]].
  - apply (triple_then accumulates); [apply read_by_accumulates| |intros _].
    + by apply triple_try_except_pass, for_each_visit_expr_reads_nested.
    + repeat accumulates_tac.
  - apply (triple_after (resolves_kept x));
      [apply resolves_name_stable
      |by apply preserves_try_except_pass, for_each_visit_expr_nobind
      |intros _].
    apply (triple_then accumulates); [apply read_by_accumulates| |intros _].
    + apply triple_try_except_pass.
      apply existsb_elem_of in Hr as (q & Hin & Hq).
      apply (triple_for_each_read _ q); [done| | |].
      * eapply Forall_impl; [by apply existsb_false_Forall|].
        intros q'. apply visit_arg_nobind.
      * apply visit_arg_accumulates.
      * apply visit_arg_reads_nested; [|done].
        by eapply (proj1 (Forall_forall _ _) (existsb_false_Forall _ _ Hargs)).
    + repeat accumulates_tac.
  - apply (triple_after (resolves_kept x));
      [apply resolves_name_stable
      |by apply preserves_try_except_pass, for_each_visit_expr_nobind
      |intros _].
    apply (triple_after (resolves_kept x));
      [apply resolves_name_stable
      |by apply preserves_try_except_pass, for_each_visit_arg_nobind
      |intros _].
    apply (triple_then accumulates); [apply read_by_accumulates| |intros _].
    + by apply triple_try_except_pass, visit_opt_visit_arg_reads_nested.
    + repeat accumulates_tac.
  - apply (triple_after (resolves_kept x));
      [apply resolves_name_stable
      |by apply preserves_try_except_pass, for_each_visit_expr_nobind
      |intros _].
    apply (triple_after (resolves_kept x));
      [apply resolves_name_stable
      |by apply preserves_try_except_pass, for_each_visit_arg_nobind
      |intros _].
    apply (triple_after (resolves_kept x));
      [apply resolves_name_stable
      |by apply preserves_try_except_pass, visit_opt_visit_arg_nobind
      |intros _].
    by apply triple_try_except_pass, visit_opt_visit_arg_reads_nested.
Qed.

Lemma for_each_visit_stmt_reads_nested body :
  Forall (λ s, stmt_reads x node s = true → stmt_binds x s = false →
               triple (resolves_name x r) (visit_stmt s) (read_by r node))
    body →
  existsb (stmt_binds x) body = false →
  existsb (stmt_reads x node) body = true →
  triple (resolves_name x r) (for_each visit_stmt body) (read_by r node).
Proof.
  intros IH Hb Hr. apply existsb_elem_of in Hr as (s & Hin & Hs).
  apply existsb_false_Forall in Hb.
  apply (triple_for_each_read _ s); [done| | |].
  - eapply Forall_impl; [exact Hb|]. intros s'. apply visit_stmt_nobind.
  - apply visit_stmt_accumulates.
  - apply (proj1 (Forall_forall _ _) IH); [done..|].
    by apply (proj1 (Forall_forall _ _) Hb).
Qed.

Lemma FunctionDef_reads_nested a body decs returns :
  Forall (λ s, stmt_reads x node s = true → stmt_binds x s = false →
               triple (resolves_name x r) (visit_stmt s) (read_by r node))
    body →
  def_binds x a body decs returns = false →
  existsb (expr_reads x node) decs
  || args_read x node a
  || from_option (expr_reads x node) false returns
  || existsb (stmt_reads x node) body = true →
  triple (resolves_name x r)
    (try_except_pass AttributeError (for_each visit_expr decs);;
     try_except_pass AttributeError (visit_arguments a);;
     try_except_pass AttributeError (visit_opt visit_expr returns);;
     try_except_pass AttributeError (for_each visit_stmt body))
    (read_by r node).
Proof.
  intros IH Hb Hr. unfold def_binds in Hb.
  apply orb_false_elim in Hb as [Hb Hbody].
  apply orb_false_elim in Hb as [Hb Hreturns].
  apply orb_false_elim in Hb as [Hdecs Hparams].
  apply orb_prop in Hr as [Hr|Hr];
    [apply orb_prop in Hr as [Hr|Hr]; [apply orb_prop in Hr as [Hr|Hr]|]|].
  - apply (triple_then accumulates); [apply read_by_accumulates| |intros _].
    + by apply triple_try_except_pass, for_each_visit_expr_reads_nested.
    + repeat accumulates_tac.
  - apply (triple_after (resolves_kept x));
      [apply resolves_name_stable
      |by apply preserves_try_except_pass, for_each_visit_expr_nobind
      |intros _].
    apply (triple_then accumulates); [apply read_by_accumulates| |intros _].
    + by apply triple_try_except_pass, visit_arguments_reads_nested.
    + repeat accumulates_tac.
  - apply (triple_after (resolves_kept x));
      [apply resolves_name_stable
      |by apply preserves_try_except_pass, for_each_visit_expr_nobind
      |intros _].
    apply (triple_after (resolves_kept x));
      [apply resolves_name_stable
      |by apply preserves_try_except_pass, visit_arguments_nobind
      |intros _].
    apply (triple_then accumulates); [apply read_by_accumulates| |intros _].
    + by apply triple_try_except_pass, visit_opt_visit_expr_reads_nested.
    + repeat accumulates_tac.
  - apply (triple_after (resolves_kept x));
      [apply resolves_name_stable
      |by apply preserves_try_except_pass, for_each_visit_expr_nobind
      |intros _].
    apply (triple_after (resolves_kept x));
      [apply resolves_name_stable
      |by apply preserves_try_except_pass, visit_arguments_nobind
      |intros _].
    apply (triple_after (resolves_kept x));
      [apply resolves_name_stable
      |by apply preserves_try_except_pass, visit_opt_visit_expr_nobind
      |intros _].
    by apply triple_try_except_pass, for_each_visit_stmt_reads_nested.
Qed.

Lemma for_each_visit_stmt_nobind body :
  existsb (stmt_binds x) body = false →
  preserves (resolves_kept x) (for_each visit_stmt body).
Proof.
  intros Hb. apply preserves_for_each; [tc_solve|].
  eapply Forall_impl; [by apply existsb_false_Forall|].
  intros s. apply visit_stmt_nobind.
Qed.

Lemma ClassDef_reads_nested bases body decs :
  Forall (λ s, stmt_reads x node s = true → stmt_binds x s = false →
               triple (resolves_name x r) (visit_stmt s) (read_by r node))
    body →
  class_binds x bases body decs = false →
  existsb (expr_reads x node) bases
  || existsb (stmt_reads x node) body
  || existsb (expr_reads x node) decs = true →
  triple (resolves_name x r)
    (for_each visit_expr bases;;
     for_each visit_stmt body;;
     for_each visit_expr decs)
    (read_by r node).
Proof.
  intros IH Hb Hr. unfold class_binds in Hb.
  apply orb_false_elim in Hb as [Hb Hdecs].
  apply orb_false_elim in Hb as [Hbases Hbody].
  apply orb_prop in Hr as [Hr|Hr]; [apply orb_prop in Hr as [Hr|Hr]|].
  - apply (triple_then accumulates); [apply read_by_accumulates| |intros _].
    + by apply for_each_visit_expr_reads_nested.
    + repeat accumulates_tac.
  - apply (triple_after (resolves_kept x));
      [apply resolves_name_stable|by apply for_each_visit_expr_nobind
      |intros _].
    apply (triple_then accumulates); [apply read_by_accumulates| |intros _].
    + by apply for_each_visit_stmt_reads_nested.
    + repeat accumulates_tac.
  - apply (triple_after (resolves_kept x));
      [apply resolves_name_stable|by apply for_each_visit_expr_nobind
      |intros _].
    apply (triple_after (resolves_kept x));
      [apply resolves_name_stable|by apply for_each_visit_stmt_nobind
      |intros _].
    by apply for_each_visit_expr_reads_nested.
Qed.

(** The scope of a definition, entered where [x] resolves to [r]. *)
Lemma scoped_reads_nested A (m1 : M state A) (m2 : M state unit) :
  triple (resolves_name x r) m1 (resolves_name x r) →
  triple (resolves_name x r) m2 (read_by r node) →
  triple (resolves_name x r) (try_finally (m1;; push_scope;; m2) pop_scope)
    (read_by r node).
Proof.
  intros H1 H2. apply (triple_try_finally _ _ _ (read_by r node));
    [|apply pop_scope_read_by].
  eapply triple_bind; [exact H1|intros _].
  eapply triple_bind; [apply push_scope_resolves_name|intros _]. exact H2.
Qed.

Lemma visit_stmt_reads_nested s :
  stmt_reads x node s = true → stmt_binds x s = false →
  triple (resolves_name x r) (visit_stmt s) (read_by r node).
Proof.
  induction s;
    repeat match goal with
           | H : list_all _ _ _ |- _ => apply Scope.list_all_Forall in H
           end;
    intros Hr Hb; simpl in Hr, Hb; try done;
    cbn [visit_stmt]; apply triple_visit;
    try apply resolves_name_same_scopes; try apply read_by_same_scopes.
  - by apply visit_expr_reads_nested.
  - apply orb_false_elim in Hb as [Hbt Hbv].
    apply orb_prop in Hr as [Hr|Hr].
    + apply (triple_then accumulates); [apply read_by_accumulates| |intros _].
      * by apply for_each_visit_expr_reads_nested.
      * apply visit_expr_accumulates.
    + apply (triple_after (resolves_kept x));
        [apply resolves_name_stable|by apply for_each_visit_expr_nobind
        |intros _].
      by apply visit_expr_reads_nested.
  - apply orb_false_elim in Hb as [Hb Hbo].
    apply orb_false_elim in Hb as [Hbt Hbb].
    apply orb_prop in Hr as [Hr|Hr]; [apply orb_prop in Hr as [Hr|Hr]|].
    + apply (triple_then accumulates);
        [apply read_by_accumulates|by apply visit_expr_reads_nested|intros _].
      repeat accumulates_tac.
    + apply (triple_after (resolves_kept x));
        [apply resolves_name_stable|by apply visit_expr_nobind|intros _].
      apply (triple_then accumulates);
        [apply read_by_accumulates
        |by apply for_each_visit_stmt_reads_nested|intros _].
      repeat accumulates_tac.
    + apply (triple_after (resolves_kept x));
        [apply resolves_name_stable|by apply visit_expr_nobind|intros _].
      apply (triple_after (resolves_kept x));
        [apply resolves_name_stable|by apply for_each_visit_stmt_nobind
        |intros _].
      by apply for_each_visit_stmt_reads_nested.
  - apply orb_false_elim in Hb as [Hb Hbo].
    apply orb_false_elim in Hb as [Hbt Hbb].
    apply orb_prop in Hr as [Hr|Hr]; [apply orb_prop in Hr as [Hr|Hr]|].
    + apply (triple_then accumulates);
        [apply read_by_accumulates|by apply visit_expr_reads_nested|intros _].
      repeat accumulates_tac.
    + apply (triple_after (resolves_kept x));
        [apply resolves_name_stable|by apply visit_expr_nobind|intros _].
      apply (triple_then accumulates);
        [apply read_by_accumulates
        |by apply for_each_visit_stmt_reads_nested|intros _].
      repeat accumulates_tac.
    + apply (triple_after (resolves_kept x));
        [apply resolves_name_stable|by apply visit_expr_nobind|intros _].
      apply (triple_after (resolves_kept x));
        [apply resolves_name_stable|by apply for_each_visit_stmt_nobind
        |intros _].
      by apply for_each_visit_stmt_reads_nested.
  - destruct value as [v|]; [|done]. simpl. by apply visit_expr_reads_nested.
  - apply andb_prop in Hr as [Hnb Hr]. apply negb_true_iff in Hnb.
    apply bool_decide_eq_false in Hb.
    unfold visit_FunctionDef. apply scoped_reads_nested.
    + apply (triple_preserves (resolves_kept x));
        [apply resolves_name_stable|by apply define_name_resolves_kept].
    + by apply FunctionDef_reads_nested.
  - apply andb_prop in Hr as [Hnb Hr]. apply negb_true_iff in Hnb.
    apply bool_decide_eq_false in Hb.
    unfold visit_ClassDef. apply scoped_reads_nested.
    + apply (triple_preserves (resolves_kept x));
        [apply resolves_name_stable|by apply define_name_resolves_kept].
    + by apply ClassDef_reads_nested.
Qed.

End nested_read.

Section read.
Variables (x : string) (p : loc) (N0 r : nat) (node : loc).

Lemma param_read_stable : stable scope_extends (param_read x p N0 r node).
Proof.
  apply and_stable; [apply bound_to_param_stable|apply read_by_stable].
Qed.

Lemma param_read_same_scopes : stable same_scopes (param_read x p N0 r node).
Proof.
  apply and_same_scopes;
    [apply bound_to_param_same_scopes|apply read_by_same_scopes].
Qed.

Lemma visit_Name_reads ctx :
  ast.ctx_kind ctx = ast.Load →
  triple (bound_to_param x p N0 r) (visit_expr (ast.Name node x ctx))
    (param_read x p N0 r node).
Proof.
  intros Hctx s HB.
  pose proof HB as (Hcur & HN & n & Hn & Hd).
  destruct (visit_Name_Load_returns node x ctx s Hctx)
    as ([] & s' & Hrun & r' & n' & Hres & _ & Hn' & Hin & _).
  { intros r0 Hr0. rewrite (current_names_resolve _ _ _ Hcur) in Hr0.
    injection Hr0 as <-. by exists n. }
  destruct (visit_expr_scope_extends (ast.Name node x ctx) s)
    as ([] & s2 & Hrun2 & HE).
  rewrite Hrun in Hrun2. injection Hrun2 as <-.
  exists tt, s'. split; [done|].
  assert (bound_to_param x p N0 r s') as HB'
    by (by eapply bound_to_param_stable).
  split; [done|]. destruct HB' as (Hcur' & _).
  rewrite (current_names_resolve _ _ _ Hcur') in Hres. injection Hres as <-.
  by exists n'.
Qed.

Lemma visit_expr_reads e :
  expr_reads x node e = true →
  triple (bound_to_param x p N0 r) (visit_expr e) (param_read x p N0 r node).
Proof.
  induction e as [i ident ctx|i n|i s|i v IH|i v IH attr ctx];
    intros Hr; simpl in Hr; try done.
  - apply andb_prop in Hr as [Hr Hk]. apply andb_prop in Hr as [Hi Hx].
    apply bool_decide_eq_true in Hi as ->.
    apply bool_decide_eq_true in Hx as ->.
    destruct (ast.ctx_kind ctx) eqn:Hctx; try done.
    by apply visit_Name_reads.
  - cbn [visit_expr]. apply triple_visit;
      [apply bound_to_param_same_scopes|apply param_read_same_scopes|].
    by apply IH.
  - cbn [visit_expr]. apply triple_visit;
      [apply bound_to_param_same_scopes|apply param_read_same_scopes|].
    unfold visit_Attribute.
    apply (triple_then scope_extends); [apply param_read_stable| |intros _].
    + apply (triple_then scope_extends); [apply param_read_stable|by apply IH|intros _].
      auto with scope_extends.
    + repeat scope_extends_step.
Qed.

Lemma bound_to_param_resolves s :
  bound_to_param x p N0 r s → resolves_name x r s.
Proof.
  intros (Hcur & _ & n & Hn & _).
  split; [by apply current_names_resolve|by exists n].
Qed.

(** A definition in the body of the function: its scope is entered where
    [x] resolves to the parameter's Name. *)
Lemma scoped_reads name i (m2 : M state unit) :
  preserves scope_extends m2 →
  triple (resolves_name x r) m2 (read_by r node) →
  triple (bound_to_param x p N0 r)
    (try_finally (define_name name i;; push_scope;; m2) pop_scope)
    (param_read x p N0 r node).
Proof.
  intros Hm2 Hread. apply triple_and.
  - apply (triple_preserves scope_extends); [apply bound_to_param_stable|].
    apply scoped_scope_extends; [apply define_name_scope_extends|done].
  - apply (triple_try_finally _ _ _ (read_by r node));
      [|apply pop_scope_read_by].
    apply (triple_bind _ _ _ (bound_to_param x p N0 r)); [|intros _].
    { apply (triple_preserves scope_extends);
        [apply bound_to_param_stable|apply define_name_scope_extends]. }
    apply (triple_bind _ _ _ (resolves_name x r)); [|by intros _].
    eapply triple_conseq;
      [apply push_scope_resolves_name|apply bound_to_param_resolves|done].
Qed.

Lemma for_each_visit_stmt_reads body :
  Forall (λ s, stmt_reads x node s = true →
               triple (bound_to_param x p N0 r) (visit_stmt s)
                 (param_read x p N0 r node)) body →
  existsb (stmt_reads x node) body = true →
  triple (bound_to_param x p N0 r) (for_each visit_stmt body)
    (param_read x p N0 r node).
Proof.
  intros IH Hr. apply existsb_elem_of in Hr as (s & Hin & Hs).
  apply (triple_for_each_one _ s);
    [apply bound_to_param_stable|apply param_read_stable|done
    |apply visit_stmt_scope_extends|].
  by apply (proj1 (Forall_forall _ _) IH).
Qed.

Lemma visit_stmt_reads s :
  stmt_reads x node s = true →
  triple (bound_to_param x p N0 r) (visit_stmt s) (param_read x p N0 r node).
Proof.
  induction s;
    repeat match goal with
           | H : list_all _ _ _ |- _ => apply Scope.list_all_Forall in H
           end;
    intros Hr; simpl in Hr; try done;
    cbn [visit_stmt]; apply triple_visit;
    try apply bound_to_param_same_scopes; try apply param_read_same_scopes.
  - by apply visit_expr_reads.
  - apply orb_prop in Hr as [Hr|Hr].
    + apply (triple_then scope_extends); [apply param_read_stable| |intros _].
      * apply existsb_elem_of in Hr as (e & Hin & He).
        apply (triple_for_each_one _ e);
          [apply bound_to_param_stable|apply param_read_stable|done
          |apply visit_expr_scope_extends|by apply visit_expr_reads].
      * apply visit_expr_scope_extends.
    + apply (triple_after scope_extends);
        [apply bound_to_param_stable|repeat scope_extends_step|intros _].
      by apply visit_expr_reads.
  - apply orb_prop in Hr as [Hr|Hr]; [apply orb_prop in Hr as [Hr|Hr]|].
    + apply (triple_then scope_extends);
        [apply param_read_stable|by apply visit_expr_reads|intros _].
      repeat scope_extends_step.
    + apply (triple_after scope_extends);
        [apply bound_to_param_stable|apply visit_expr_scope_extends|intros _].
      apply (triple_then scope_extends);
        [apply param_read_stable|by apply for_each_visit_stmt_reads|intros _].
      repeat scope_extends_step.
    + apply (triple_after scope_extends);
        [apply bound_to_param_stable|apply visit_expr_scope_extends|intros _].
      apply (triple_after scope_extends);
        [apply bound_to_param_stable|repeat scope_extends_step|intros _].
      by apply for_each_visit_stmt_reads.
  - apply orb_prop in Hr as [Hr|Hr]; [apply orb_prop in Hr as [Hr|Hr]|].
    + apply (triple_then scope_extends);
        [apply param_read_stable|by apply visit_expr_reads|intros _].
      repeat scope_extends_step.
    + apply (triple_after scope_extends);
        [apply bound_to_param_stable|apply visit_expr_scope_extends|intros _].
      apply (triple_then scope_extends);
        [apply param_read_stable|by apply for_each_visit_stmt_reads|intros _].
      repeat scope_extends_step.
    + apply (triple_after scope_extends);
        [apply bound_to_param_stable|apply visit_expr_scope_extends|intros _].
      apply (triple_after scope_extends);
        [apply bound_to_param_stable|repeat scope_extends_step|intros _].
      by apply for_each_visit_stmt_reads.
  - destruct value as [v|]; [|done]. simpl. by apply visit_expr_reads.
  - apply andb_prop in Hr as [Hnb Hr]. apply negb_true_iff in Hnb.
    unfold visit_FunctionDef. apply scoped_reads.
    + repeat scope_extends_step.
    + apply FunctionDef_reads_nested; [|done..].
      apply Forall_forall. intros s _. apply visit_stmt_reads_nested.
  - apply andb_prop in Hr as [Hnb Hr]. apply negb_true_iff in Hnb.
    unfold visit_ClassDef. apply scoped_reads.
    + repeat scope_extends_step.
    + apply ClassDef_reads_nested; [|done..].
      apply Forall_forall. intros s _. apply visit_stmt_reads_nested.
Qed.

End read.



(** *** What a function or class body leaves in the root scope *)

#[local] Instance keeps_preorder P : PreOrder (keeps P).
Proof. split; unfold keeps; [by intros s|intros s1 s2 s3; auto]. Qed.

#[local] Instance local_step_preorder T : PreOrder (local_step T).
Proof.
  split.
  - intros s. by split.
  - intros s1 s2 s3 [L1 K1] [L2 K2]. split; [congruence|by etrans].
Qed.

Lemma Name_lookup_name_run self name st :
  Name_lookup_name self name st =
  match name_objs st !! self ≫= (λ n, attrs n !! name) with
  | Some r => (Ok r, st)
  | None =>
      (Ok (length (name_objs st)),
       set_name_objs (alter (λ n,
         mkName (id n) (definition n) (reads n)
           (<[name := length (name_objs st)]> (attrs n))) self)
         (set_name_objs (λ ns, ns ++ [mkName name None [] ∅]) st))
  end.
Proof.
  unfold Name_lookup_name, new_Name, mbind at 1, M_bind, bind, get, modify.
  simpl. by destruct (name_objs st !! self ≫= _).
Qed.

(** **** The tables and attributes stay closed *)

Lemma well_formed_same_scopes : stable same_scopes well_formed.
Proof.
  intros s s' HW (E1 & E2 & E3).
  unfold well_formed, tables_closed in *. by rewrite E1, E2, E3.
Qed.

Lemma well_formed_alter f r s :
  (∀ n, attrs (f n) = attrs n) →
  well_formed s → well_formed (set_name_objs (alter f r) s).
Proof.
  intros Hf [Ht Ha]. split.
  - intros tbl k r' Hin Hk. simpl. rewrite length_alter. by eapply Ht.
  - by apply attrs_closed_alter.
Qed.

Lemma well_formed_append nm s :
  attrs nm = ∅ →
  well_formed s → well_formed (set_name_objs (λ ns, ns ++ [nm]) s).
Proof.
  intros Hnm [Ht Ha]. split.
  - intros tbl k r' Hin Hk. simpl. rewrite length_app.
    pose proof (Ht tbl k r' Hin Hk). lia.
  - by apply attrs_closed_app.
Qed.

Lemma elem_of_bind_current tbl y N s :
  tbl ∈ names (bind_current y N s) :: scopes (bind_current y N s) →
  tbl ∈ names s :: scopes s
  ∨ ∃ tbl0, tbl0 ∈ names s :: scopes s ∧ tbl = <[y := N]> tbl0.
Proof.
  destruct s as [objs [|sc ss] ns ext ps nn q]; cbn; intros Hin.
  - apply list_elem_of_singleton in Hin as ->. right. exists ns.
    split; [apply list_elem_of_here|done].
  - apply elem_of_cons in Hin as [->|Hin];
      [left; apply list_elem_of_here|].
    apply elem_of_cons in Hin as [->|Hin].
    + right. exists sc. split; [|done].
      apply list_elem_of_further, list_elem_of_here.
    + left. by do 2 apply list_elem_of_further.
Qed.

Lemma well_formed_bind_current y N s :
  (N < length (name_objs s))%nat →
  well_formed s → well_formed (bind_current y N s).
Proof.
  intros HN [Ht Ha]. split.
  - intros tbl k r Hin Hk. rewrite bind_current_name_objs.
    apply elem_of_bind_current in Hin as [Hin|(tbl0 & Hin & ->)];
      [by eapply Ht|].
    destruct (decide (k = y)) as [->|Hne].
    + rewrite lookup_insert_eq in Hk. by injection Hk as <-.
    + rewrite lookup_insert_ne in Hk by done. by eapply Ht.
  - by rewrite bind_current_name_objs.
Qed.

Lemma well_formed_define_at_root y s :
  well_formed s → well_formed (define_at_root y s).
Proof.
  intros [Ht Ha]. split.
  - intros tbl k r Hin Hk. simpl in *. rewrite length_app. simpl.
    apply elem_of_cons in Hin as [->|Hin].
    + destruct (decide (k = y)) as [->|Hne].
      * rewrite lookup_insert_eq in Hk. injection Hk as <-. lia.
      * rewrite lookup_insert_ne in Hk by done.
        pose proof (Ht (names s) k r (list_elem_of_here _ _) Hk). lia.
    + pose proof (Ht tbl k r (list_elem_of_further _ _ _ Hin) Hk). lia.
  - simpl. by apply attrs_closed_app.
Qed.

Lemma well_formed_attr name N self s :
  (N < length (name_objs s))%nat →
  well_formed s →
  well_formed (set_name_objs (alter (λ n,
    mkName (id n) (definition n) (reads n) (<[name := N]> (attrs n))) self) s).
Proof.
  intros HN [Ht Ha]. split.
  - intros tbl k r' Hin Hk. simpl. rewrite length_alter. by eapply Ht.
  - simpl. intros r n k r' Hr Hk. rewrite length_alter.
    destruct (decide (r = self)) as [->|Hne].
    + rewrite list_lookup_alter_eq in Hr.
      destruct (name_objs s !! self) as [n0|] eqn:Hself; [|done].
      injection Hr as <-. simpl in Hk.
      destruct (decide (k = name)) as [->|Hk'].
      * rewrite lookup_insert_eq in Hk. by injection Hk as <-.
      * rewrite lookup_insert_ne in Hk by done. by eapply Ha.
    + rewrite list_lookup_alter_ne in Hr by done. by eapply Ha.
Qed.

Lemma define_name_well_formed name node :
  preserves (keeps well_formed) (define_name name node).
Proof.
  intros s. apply returns_define_name.
  destruct (current_names s !! name) as [r|] eqn:Hcur; intros HW.
  - apply well_formed_alter; [|done]. intros n. unfold define.
    by destruct (definition n).
  - apply well_formed_bind_current.
    + simpl. rewrite length_app. simpl. lia.
    + by apply well_formed_append.
Qed.

Lemma lookup_name_well_formed name :
  preserves (keeps well_formed) (lookup_name name).
Proof.
  intros s. apply returns_lookup_name.
  destruct (resolve s name); intros HW; [done|].
  by apply well_formed_define_at_root.
Qed.

Lemma Name_lookup_name_well_formed self name :
  preserves (keeps well_formed) (Name_lookup_name self name).
Proof.
  intros s. unfold returns. rewrite Name_lookup_name_run.
  destruct (name_objs s !! self ≫= _); eexists _, _; (split; [done|]);
    intros HW; [done|].
  apply well_formed_attr.
  - simpl. rewrite length_app. simpl. lia.
  - by apply well_formed_append.
Qed.

Lemma Name_add_reference_well_formed self node :
  preserves (keeps well_formed) (Name_add_reference self node).
Proof.
  apply preserves_modify. intros s HW. by apply well_formed_alter.
Qed.

Lemma Name_define_well_formed self node :
  preserves (keeps well_formed) (Name_define self node).
Proof.
  apply preserves_modify. intros s HW. apply well_formed_alter; [|done].
  intros n. unfold define. by destruct (definition n).
Qed.

Lemma visit_well_formed node dispatch :
  preserves (keeps well_formed) dispatch →
  preserves (keeps well_formed) (visit node dispatch).
Proof.
  intros Hd. unfold visit, set_parent.
  repeat first
    [ done
    | apply preserves_get; tc_solve
    | apply preserves_bind; [tc_solve| |intros ?]
    | apply preserves_modify; intros s HW;
        by eapply well_formed_same_scopes ].
Qed.

Lemma well_formed_push s :
  well_formed s → well_formed (set_scopes (λ ss, ∅ :: ss) s).
Proof.
  intros [Ht Ha]. split; [|done].
  intros tbl k r Hin Hk. simpl in *.
  apply elem_of_cons in Hin as [->|Hin]; [by eapply Ht, Hk; left|].
  apply elem_of_cons in Hin as [->|Hin]; [by rewrite lookup_empty in Hk|].
  eapply Ht, Hk. by right.
Qed.

Lemma well_formed_pop s :
  well_formed s → well_formed (set_scopes tail s).
Proof.
  intros [Ht Ha]. split; [|done].
  intros tbl k r Hin Hk. simpl in *. eapply Ht, Hk.
  apply elem_of_cons in Hin as [->|Hin]; [by left|].
  right. destruct (scopes s); [done|]. by right.
Qed.

Lemma scoped_well_formed A (m1 : M state A) (m2 : M state unit) :
  preserves (keeps well_formed) m1 → preserves (keeps well_formed) m2 →
  preserves (keeps well_formed) (try_finally (m1;; push_scope;; m2) pop_scope).
Proof.
  intros H1 H2. apply preserves_try_finally; [tc_solve| |].
  - apply preserves_bind; [tc_solve|done|intros _].
    apply preserves_bind; [tc_solve| |done].
    apply preserves_modify. intros s HW. by apply well_formed_push.
  - apply preserves_modify. intros s HW. by apply well_formed_pop.
Qed.

Create HintDb well_formed.
#[local] Hint Resolve define_name_well_formed lookup_name_well_formed
  Name_lookup_name_well_formed Name_add_reference_well_formed
  Name_define_well_formed visit_well_formed scoped_well_formed : well_formed.

Ltac well_formed_primitives :=
  try tc_solve; auto with well_formed;
  intros; apply preserves_modify; intros ? ?;
    by eapply well_formed_same_scopes.

Lemma visit_stmt_well_formed s : preserves (keeps well_formed) (visit_stmt s).
Proof. apply visit_stmt_keeps; well_formed_primitives. Qed.

Lemma visit_Module_well_formed tree :
  preserves (keeps well_formed) (visit_Module tree).
Proof. apply visit_Module_keeps; well_formed_primitives. Qed.

Lemma init_well_formed : well_formed init.
Proof.
  split.
  - intros tbl k r Hin Hk. apply list_elem_of_singleton in Hin as ->.
    cbn in Hk. by rewrite lookup_empty in Hk.
  - by intros r n k r' Hr.
Qed.

(** **** Names only the root table holds *)

Lemma root_only_same_scopes r : stable same_scopes (root_only r).
Proof.
  intros s s' HR (E1 & E2 & E3). unfold root_only in *. by rewrite E1, E2.
Qed.

Lemma root_only_alter f self r s :
  (∀ n, attrs (f n) = attrs n) →
  r ≠ self ∨ (∀ n, definition n = None → definition (f n) = None) →
  root_only r s → root_only r (set_name_objs (alter f self) s).
Proof.
  intros Hf Hdef ((n & Hn & Hd) & Hsc & Hattr). split_and!; [|done|].
  - simpl. destruct (decide (r = self)) as [->|Hne].
    + destruct Hdef as [?|Hdef]; [done|].
      exists (f n). rewrite list_lookup_alter_eq, Hn. auto.
    + exists n. by rewrite list_lookup_alter_ne.
  - simpl. intros r0 n0 k Hr0.
    destruct (decide (r0 = self)) as [->|Hne].
    + rewrite list_lookup_alter_eq in Hr0.
      destruct (name_objs s !! self) as [n1|] eqn:Hself; [|done].
      injection Hr0 as <-. rewrite Hf. by eapply Hattr.
    + rewrite list_lookup_alter_ne in Hr0 by done. by eapply Hattr.
Qed.

Lemma root_only_append nm r s :
  attrs nm = ∅ →
  root_only r s → root_only r (set_name_objs (λ ns, ns ++ [nm]) s).
Proof.
  intros Hnm ((n & Hn & Hd) & Hsc & Hattr). split_and!; [|done|].
  - exists n. split; [|done]. simpl. by apply lookup_app_l_Some.
  - simpl. intros r0 n0 k Hr0.
    apply lookup_app_Some in Hr0 as [Hr0|[_ Hr0]]; [by eapply Hattr|].
    apply list_lookup_singleton_Some in Hr0 as [_ <-].
    by rewrite Hnm, lookup_empty.
Qed.

Lemma root_only_bind_current y N r s :
  N ≠ r → scopes s ≠ [] →
  root_only r s → root_only r (bind_current y N s).
Proof.
  intros HN Hne (Hn & Hsc & Hattr).
  destruct s as [objs [|sc ss] ns ext ps nn q]; [done|].
  split_and!; [done| |done].
  cbn in *. intros tbl k Hin.
  apply elem_of_cons in Hin as [->|Hin].
  - destruct (decide (k = y)) as [->|Hk].
    + rewrite lookup_insert_eq. congruence.
    + rewrite lookup_insert_ne by done. apply Hsc. by left.
  - apply Hsc. by right.
Qed.

Lemma root_only_attr name N self r s :
  N ≠ r →
  root_only r s →
  root_only r (set_name_objs (alter (λ n,
    mkName (id n) (definition n) (reads n) (<[name := N]> (attrs n))) self) s).
Proof.
  intros HN ((n & Hn & Hd) & Hsc & Hattr). split_and!; [|done|].
  - simpl. destruct (decide (r = self)) as [->|Hne].
    + eexists. rewrite list_lookup_alter_eq, Hn. simpl. split; [done|]. done.
    + exists n. by rewrite list_lookup_alter_ne.
  - simpl. intros r0 n0 k Hr0.
    destruct (decide (r0 = self)) as [->|Hne].
    + rewrite list_lookup_alter_eq in Hr0.
      destruct (name_objs s !! self) as [n1|] eqn:Hself; [|done].
      injection Hr0 as <-. simpl.
      destruct (decide (k = name)) as [->|Hk].
      * rewrite lookup_insert_eq. congruence.
      * rewrite lookup_insert_ne by done. by eapply Hattr.
    + rewrite list_lookup_alter_ne in Hr0 by done. by eapply Hattr.
Qed.

Lemma root_only_new nm s :
  attrs nm = ∅ → definition nm = None →
  well_formed s →
  root_only (length (name_objs s)) (set_name_objs (λ ns, ns ++ [nm]) s).
Proof.
  intros Hnm Hd [Ht Ha]. split_and!.
  - exists nm. split; [|done]. simpl. by rewrite lookup_app_r, Nat.sub_diag.
  - simpl. intros tbl k Hin Hk.
    pose proof (Ht tbl k _ (list_elem_of_further _ _ _ Hin) Hk). lia.
  - simpl. intros r0 n0 k Hr0 Hk.
    apply lookup_app_Some in Hr0 as [Hr0|[_ Hr0]].
    + pose proof (Ha _ _ _ _ Hr0 Hk). lia.
    + apply list_lookup_singleton_Some in Hr0 as [_ <-].
      by rewrite Hnm, lookup_empty in Hk.
Qed.

(** **** Inside a function or class *)

Section local.
Variable T : gmap string nat.

Lemma local_scope_same_scopes : stable same_scopes (local_scope T).
Proof.
  intros s s' (Hne & HW & Hroot) HE. pose proof HE as (E1 & E2 & E3).
  split_and!.
  - by rewrite E2.
  - by eapply well_formed_same_scopes.
  - intros k r Hk. rewrite E3 in Hk.
    destruct (Hroot k r Hk) as [?|?]; [by left|right].
    by eapply root_only_same_scopes.
Qed.

Lemma local_scope_not_root_only r s k :
  local_scope T s → names s !! k = Some r → ¬ root_only r s →
  T !! k = Some r.
Proof. intros (_ & _ & Hroot) Hk Hr. by destruct (Hroot k r Hk). Qed.

Lemma local_scope_alter f self s :
  (∀ n, attrs (f n) = attrs n) →
  (∀ n, definition n = None → definition (f n) = None)
  ∨ (∀ k, names s !! k = Some self → T !! k = Some self) →
  local_scope T s → local_scope T (set_name_objs (alter f self) s).
Proof.
  intros Hf Hdef (Hne & HW & Hroot). split_and!; [done| |].
  - by apply well_formed_alter.
  - intros k r Hk. simpl in Hk.
    destruct (Hroot k r Hk) as [?|Hr]; [by left|].
    destruct Hdef as [Hdef|Hself].
    + right. apply root_only_alter; auto.
    + destruct (decide (r = self)) as [->|Hrs]; [left; auto|].
      right. apply root_only_alter; auto.
Qed.

Lemma local_scope_append nm s :
  attrs nm = ∅ →
  local_scope T s → local_scope T (set_name_objs (λ ns, ns ++ [nm]) s).
Proof.
  intros Hnm (Hne & HW & Hroot). split_and!; [done| |].
  - by apply well_formed_append.
  - intros k r Hk. simpl in Hk.
    destruct (Hroot k r Hk) as [?|Hr]; [by left|right].
    by apply root_only_append.
Qed.

Lemma bind_current_names_inner y N s :
  scopes s ≠ [] → names (bind_current y N s) = names s.
Proof. by destruct s as [objs [|sc ss] ns ext ps nn q]. Qed.

Lemma bind_current_scopes_inner y N s :
  scopes s ≠ [] → scopes (bind_current y N s) ≠ [].
Proof. by destruct s as [objs [|sc ss] ns ext ps nn q]. Qed.

Lemma local_scope_bind_current y N s :
  (N < length (name_objs s))%nat →
  (∀ k, names s !! k ≠ Some N) →
  local_scope T s → local_scope T (bind_current y N s).
Proof.
  intros HN Hfresh (Hne & HW & Hroot). split_and!.
  - by apply bind_current_scopes_inner.
  - by apply well_formed_bind_current.
  - intros k r Hk. rewrite bind_current_names_inner in Hk by done.
    destruct (Hroot k r Hk) as [?|Hr]; [by left|right].
    apply root_only_bind_current; [|done..].
    intros ->. by eapply Hfresh.
Qed.

Lemma local_scope_define_at_root y s :
  local_scope T s → local_scope T (define_at_root y s).
Proof.
  intros (Hne & HW & Hroot). split_and!; [done| |].
  - by apply well_formed_define_at_root.
  - intros k r Hk. simpl in Hk.
    destruct (decide (k = y)) as [->|Hky].
    + rewrite lookup_insert_eq in Hk. injection Hk as <-. right.
      by apply (root_only_new (mkName y None [] ∅)).
    + rewrite lookup_insert_ne in Hk by done.
      destruct (Hroot k r Hk) as [?|Hr]; [by left|right].
      by apply (root_only_append (mkName y None [] ∅)).
Qed.

Lemma local_scope_attr name N self s :
  (N < length (name_objs s))%nat →
  (∀ k, names s !! k ≠ Some N) →
  local_scope T s →
  local_scope T (set_name_objs (alter (λ n,
    mkName (id n) (definition n) (reads n) (<[name := N]> (attrs n))) self) s).
Proof.
  intros HN Hfresh (Hne & HW & Hroot). split_and!; [done| |].
  - by apply well_formed_attr.
  - intros k r Hk. simpl in Hk.
    destruct (Hroot k r Hk) as [?|Hr]; [by left|right].
    apply root_only_attr; [|done]. intros ->. by eapply Hfresh.
Qed.

Lemma names_closed s k :
  well_formed s → names s !! k ≠ Some (length (name_objs s)).
Proof.
  intros [Ht _] Hk.
  pose proof (Ht _ _ _ (list_elem_of_here _ _) Hk). lia.
Qed.

Lemma define_name_local name node :
  preserves (local_step T) (define_name name node).
Proof.
  intros s. apply returns_define_name.
  destruct (current_names s !! name) as [r|] eqn:Hcur.
  - split; [done|]. intros HL. apply local_scope_alter; [| |done].
    + intros n. unfold define. by destruct (definition n).
    + right. intros k Hk. eapply local_scope_not_root_only; [done..|].
      intros (_ & Hsc & _). destruct HL as (Hne & _).
      unfold current_names in Hcur.
      destruct (scopes s) as [|sc ss] eqn:E; [done|].
      eapply (Hsc sc); [by left|done].
  - split; [by rewrite bind_current_length|]. intros HL.
    apply local_scope_bind_current.
    + simpl. rewrite length_app. simpl. lia.
    + intros k. simpl. apply names_closed, HL.
    + by apply local_scope_append.
Qed.

Lemma lookup_name_local name : preserves (local_step T) (lookup_name name).
Proof.
  intros s. apply returns_lookup_name.
  destruct (resolve s name); [done|].
  split; [done|]. intros HL. by apply local_scope_define_at_root.
Qed.

(** The Name [Name.lookup_name] returns is not one the root table has
    gained. *)
Lemma Name_lookup_name_local self name s :
  returns (Name_lookup_name self name) s (λ r s',
    local_step T s s'
    ∧ (local_scope T s → ∀ k, names s' !! k = Some r → T !! k = Some r)).
Proof.
  unfold returns. rewrite Name_lookup_name_run.
  destruct (name_objs s !! self ≫= _) as [r|] eqn:Hattr;
    eexists _, _; (split; [done|]).
  - split; [done|]. intros HL k Hk.
    eapply local_scope_not_root_only; [done..|].
    intros (_ & _ & Hattrs).
    destruct (name_objs s !! self) as [n|] eqn:Hself; [|done].
    simpl in Hattr. by eapply Hattrs.
  - split.
    + split; [done|]. intros HL. apply local_scope_attr.
      * simpl. rewrite length_app. simpl. lia.
      * intros k. simpl. apply names_closed, HL.
      * by apply local_scope_append.
    + intros HL k Hk. simpl in Hk. by apply names_closed in Hk; [|apply HL].
Qed.

Lemma Name_lookup_name_local_step self name :
  preserves (local_step T) (Name_lookup_name self name).
Proof.
  intros s. eapply returns_mono; [apply Name_lookup_name_local|].
  by intros r s' [H _].
Qed.

Lemma Name_add_reference_local self node :
  preserves (local_step T) (Name_add_reference self node).
Proof.
  apply preserves_modify. intros s. split; [done|]. intros HL.
  apply local_scope_alter; [done|by left|done].
Qed.

Lemma local_step_same_scopes s s' : same_scopes s s' → local_step T s s'.
Proof.
  intros HE. pose proof HE as (_ & E2 & _). split; [by rewrite E2|].
  intros HL. by eapply local_scope_same_scopes.
Qed.

Lemma visit_local node dispatch :
  preserves (local_step T) dispatch →
  preserves (local_step T) (visit node dispatch).
Proof.
  intros Hd. unfold visit, set_parent.
  repeat first
    [ done
    | apply preserves_get; tc_solve
    | apply preserves_bind; [tc_solve| |intros ?]
    | apply preserves_modify; intros ?; by apply local_step_same_scopes ].
Qed.

Lemma local_scope_push s :
  local_scope T s → local_scope T (set_scopes (λ ss, ∅ :: ss) s).
Proof.
  intros (Hne & HW & Hroot). split_and!; [done|by apply well_formed_push|].
  intros k r Hk. destruct (Hroot k r Hk) as [?|(Hn & Hsc & Hattr)];
    [by left|right].
  split_and!; [done| |done]. simpl. intros tbl k' Hin.
  apply elem_of_cons in Hin as [->|Hin]; [by rewrite lookup_empty|].
  by apply Hsc.
Qed.

Lemma local_scope_pop s :
  (2 ≤ length (scopes s))%nat →
  local_scope T s → local_scope T (set_scopes tail s).
Proof.
  intros Hlen (Hne & HW & Hroot). split_and!.
  - simpl. destruct (scopes s) as [|sc [|sc' ss]]; simpl in *; [lia..|done].
  - by apply well_formed_pop.
  - intros k r Hk. destruct (Hroot k r Hk) as [?|(Hn & Hsc & Hattr)];
      [by left|right].
    split_and!; [done| |done]. simpl. intros tbl k' Hin. apply Hsc.
    destruct (scopes s); [done|]. by right.
Qed.

Lemma scoped_local A (m1 : M state A) (m2 : M state unit) :
  preserves (local_step T) m1 → preserves (local_step T) m2 →
  preserves (local_step T) (try_finally (m1;; push_scope;; m2) pop_scope).
Proof.
  intros H1 H2 s.
  destruct (H1 s) as (a & s1 & Hrun1 & Hlen1 & HL1).
  destruct (H2 (set_scopes (λ ss, ∅ :: ss) s1))
    as ([] & s2 & Hrun2 & Hlen2 & HL2).
  exists tt, (set_scopes tail s2). split.
  - unfold try_finally. erewrite bind_Ok by exact Hrun1.
    unfold push_scope. erewrite bind_Ok by reflexivity.
    by rewrite Hrun2.
  - simpl in Hlen2. split.
    + simpl. destruct (scopes s2); simpl in *; lia.
    + intros HL. apply local_scope_pop.
      * destruct HL as (Hne & _). destruct (scopes s); [done|].
        simpl in *. lia.
      * by apply HL2, local_scope_push, HL1.
Qed.

Create HintDb local_step.
#[local] Hint Resolve define_name_local lookup_name_local
  Name_lookup_name_local_step Name_add_reference_local visit_local
  scoped_local : local_step.

Ltac local_primitives :=
  try tc_solve; auto with local_step;
  intros; apply preserves_modify; intros ?; by apply local_step_same_scopes.

Lemma visit_expr_local e : preserves (local_step T) (visit_expr e).
Proof. apply visit_expr_keeps; local_primitives. Qed.

Lemma visit_arguments_local a : preserves (local_step T) (visit_arguments a).
Proof. apply visit_arguments_keeps; local_primitives. Qed.

Lemma visit_ImportFrom_local node module names :
  preserves (local_step T) (visit_ImportFrom node module names).
Proof. apply visit_ImportFrom_keeps; local_primitives. Qed.

Lemma visit_alias_local alias : preserves (local_step T) (visit_alias alias).
Proof. apply visit_alias_keeps; local_primitives. Qed.

Lemma define_submodules_local cur parts alias :
  preserves (local_step T) (define_submodules cur parts alias).
Proof.
  revert cur. induction parts as [|part parts IH]; intros cur; simpl.
  - apply preserves_ret. tc_solve.
  - intros s. apply returns_bind.
    eapply returns_mono; [apply Name_lookup_name_local|].
    intros r s1 [[Hlen1 HK1] Hr]. simpl.
    apply returns_bind, returns_modify.
    eapply returns_mono; [apply IH|]. intros [] s2 [Hlen2 HK2].
    split; [simpl in *; congruence|]. intros HL. apply HK2.
    apply local_scope_alter; [| |by apply HK1].
    + intros n. unfold define. by destruct (definition n).
    + right. intros k Hk. by apply Hr.
Qed.

Lemma visit_Import_local node names :
  preserves (local_step T) (visit_Import node names).
Proof.
  unfold visit_Import. apply preserves_bind; [tc_solve| |intros _].
  - apply for_each_keeps; [tc_solve|]. intros alias.
    apply preserves_bind; [tc_solve| |intros _].
    { apply preserves_modify. intros ?. by apply local_step_same_scopes. }
    destruct (negb (truthy _)).
    + apply preserves_bind; [tc_solve|apply define_name_local|intros cur].
      apply define_submodules_local.
    + apply preserves_bind; [tc_solve|apply define_name_local|intros _].
      apply preserves_ret. tc_solve.
  - apply for_each_keeps; [tc_solve|apply visit_alias_local].
Qed.

Ltac local_step_tac :=
  first
    [ assumption
    | solve [auto 2 with local_step]
    | apply visit_local
    | apply scoped_local
    | apply preserves_ret; tc_solve
    | apply preserves_get; tc_solve
    | apply preserves_bind; [tc_solve| |intros ?]
    | apply preserves_try_except_pass
    | match goal with
      | |- preserves _ (match ?x with _ => _ end) => destruct x
      end ].

Lemma visit_stmt_local s : preserves (local_step T) (visit_stmt s).
Proof.
  pose proof visit_expr_local. pose proof visit_arguments_local.
  pose proof visit_Import_local. pose proof visit_ImportFrom_local.
  induction s;
    repeat match goal with
           | H : list_all _ _ _ |- _ => apply Scope.list_all_Forall in H
           end;
    simpl; apply visit_local;
    unfold visit_FunctionDef, visit_ClassDef; repeat local_step_tac;
    first [ by apply preserves_for_each; [tc_solve|]
          | apply for_each_keeps; [tc_solve|done]
          | apply visit_opt_keeps; [tc_solve|done] ].
Qed.

Lemma define_name_names name node s :
  returns (define_name name node) s (λ _ s1,
    names s1 = names_with name s ∧ (well_formed s → well_formed s1)).
Proof.
  destruct (define_name_well_formed name node s) as (r & s1 & Hrun & HW).
  exists r, s1. split; [done|]. split; [|done].
  rewrite define_name_run in Hrun. unfold names_with.
  destruct (current_names s !! name); injection Hrun as <- <-; [done|].
  by destruct s as [objs [|sc ss] ns ext ps nn q].
Qed.

(** What the visit of a definition leaves in the root table. *)
Lemma scoped_root name node (m2 : M state unit) s :
  names_with name s = T →
  well_formed s →
  preserves (local_step T) m2 →
  returns (try_finally (define_name name node;; push_scope;; m2) pop_scope) s
    (λ _ s', ∀ k r, names s' !! k = Some r →
       T !! k = Some r
       ∨ ∃ n, name_objs s' !! r = Some n ∧ definition n = None).
Proof.
  intros HT HW H2. apply returns_try_finally, returns_bind.
  eapply returns_mono; [apply define_name_names|].
  intros r s1 [Hnames HW1]. simpl.
  apply returns_bind, returns_modify.
  eapply returns_mono; [apply H2|]. intros [] s2 [_ HL]. simpl.
  apply returns_modify. intros k r' Hk. simpl in Hk.
  destruct HL as (_ & _ & Hroot).
  { split_and!; [done|by apply well_formed_push, HW1|].
    intros k' r'' Hk'. left. simpl in Hk'. by rewrite <-HT, <-Hnames. }
  destruct (Hroot k r' Hk) as [?|(Hn & _)]; [by left|by right].
Qed.

End local.

Lemma names_with_same_scopes name st s :
  same_scopes st s → names_with name s = names_with name st.
Proof.
  destruct st as [objs ss ns ext ps nn q], s as [objs' ss' ns' ext' ps' nn' q'].
  intros (E1 & E2 & E3). simpl in *. subst.
  unfold names_with, current_names, bind_current.
  destruct ss; cbn; by destruct (_ !! name).
Qed.

Lemma example_inner_state_well_formed : well_formed example_inner_state.
Proof.
  split.
  - intros tbl k r Hin Hk. cbn in *.
    apply elem_of_cons in Hin as [->|Hin].
    + apply lookup_singleton_Some in Hk as [_ <-]. lia.
    + apply list_elem_of_singleton in Hin as ->. by rewrite lookup_empty in Hk.
  - intros r n k r' Hr Hk. cbn in Hr.
    apply list_lookup_singleton_Some in Hr as [_ <-]. by cbn in Hk.
Qed.

(** X27: the body of a function or class is visited in a scope of its own.
    After the visit of a [FunctionDef] or [ClassDef], from a state whose
    tables and attributes only hold Names of the store, the chain of scopes
    is the one [define_name] of the function or class name leaves, and the
    root table has, besides the entries [define_name] leaves, only Names
    without a definition (those of identifiers that were read and found in
    no scope): no parameter and nothing defined in the body is entered in
    the current scope, in a scope that encloses it or in the root scope. *)
Theorem definition_scope_local (s : ast.stmt) (name : string) (st : state) :
  well_formed st →
  (∃ i args body decorator_list returns,
     s = ast.FunctionDef i name args body decorator_list returns)
  ∨ (∃ i bases body decorator_list,
       s = ast.ClassDef i name bases body decorator_list) →
  ∃ st',
    visit_stmt s st = (Ok tt, st')
    ∧ scopes st' = scopes_with name st
    ∧ ∀ k r, names st' !! k = Some r →
        names_with name st !! k = Some r
        ∨ ∃ n, name_objs st' !! r = Some n ∧ definition n = None.
Proof.
  intros HW Hs.
  destruct (visit_def_scopes s name st Hs) as ([] & st' & Hv & Hscopes).
  exists st'. split_and!; [done..|].
  pose proof (visit_stmt_local (names_with name st)) as Hbody.
  pose proof (visit_expr_local (names_with name st)) as Hexpr.
  pose proof (visit_arguments_local (names_with name st)) as Hargs.
  assert (triple (same_scopes st) (visit_stmt s) (λ st',
    ∀ k r, names st' !! k = Some r →
      names_with name st !! k = Some r
      ∨ ∃ n, name_objs st' !! r = Some n ∧ definition n = None)) as Htriple.
  { assert (stable same_scopes (same_scopes st)) as Hpre.
    { intros s1 s2 (E1 & E2 & E3) (E1' & E2' & E3').
      split_and!; congruence. }
    assert (stable same_scopes (λ st', ∀ k r, names st' !! k = Some r →
      names_with name st !! k = Some r
      ∨ ∃ n, name_objs st' !! r = Some n ∧ definition n = None)) as Hpost.
    { intros s1 s2 H (E1 & E2 & E3) k r. rewrite E1, E3. apply H. }
    destruct Hs as [(i & args & body & decs & returns & ->)
                   |(i & bases & body & decs & ->)];
      cbn [visit_stmt]; (apply triple_visit; [done..|]);
      intros s1 Hs1; unfold visit_FunctionDef, visit_ClassDef;
      (apply scoped_root;
       [by apply names_with_same_scopes
       |by eapply well_formed_same_scopes
       |]).
    - repeat first
        [ done
        | apply preserves_try_except_pass
        | apply for_each_keeps; [tc_solve|done]
        | apply visit_opt_keeps; [tc_solve|done]
        | apply preserves_bind; [tc_solve| |intros ?] ].
    - repeat first
        [ done
        | apply for_each_keeps; [tc_solve|done]
        | apply preserves_bind; [tc_solve| |intros ?] ]. }
  destruct (Htriple st) as ([] & st2 & Hv2 & H); [done|].
  rewrite Hv in Hv2. by injection Hv2 as <-.
Qed.

Lemma definition_scope_local_witness :
  ∃ st',
    visit_stmt def_f example_inner_state = (Ok tt, st')
    ∧ scopes st' = scopes_with "f" example_inner_state
    ∧ ∀ k r, names st' !! k = Some r →
        names_with "f" example_inner_state !! k = Some r
        ∨ ∃ n, name_objs st' !! r = Some n ∧ definition n = None.
Proof.
  apply (definition_scope_local def_f "f" example_inner_state).
  - apply example_inner_state_well_formed.
  - left. by exists 1, (ast.Arguments 2 [ast.Arg 3 "a" None] None None [] [] []),
      [ast.Assign 4 [ast.Name 5 "b" (ast.Ctx 6 ast.Store)] (ast.Num 7 1)],
      [], None.
Defined.

End Scope.


(** ** token_generator.py: the interface the annotator uses *)

Module token_generator.

Inductive token_kind :=
| NAME | NUMBER | STRING | OP
| WHITESPACE | COMMENT | CONTINUATION | NEWLINE.

#[global] Instance token_kind_eq_dec : EqDecision token_kind.
Proof. solve_decision. Defined.

(** A token: [token[0]] is its kind, [token[1]] its text. *)
Record token := Token { kind : token_kind; text : string }.

(** The methods of [TokenGenerator] that [annotate.py] calls, over the
    state [T] of the generator.  [scope_enter] and [scope_exit] are the two
    halves of the context manager [scope(node)]. *)
Class TokenGenerator (T : Type) := {
  next : M T token;
  peek : T → option token;
  whitespace : bool → M T string;
  next_of_type : token_kind → M T token;
  str : M T string;
  next_name : M T token;
  hint_open : M T unit;
  hint_closed : M T unit;
  scope_enter : loc → M T unit;
  scope_exit : loc → M T unit }.

(** Modelled from the spec: the token stream of section 4.1, which is not
    among the sources.  The stream holds every token of the source text,
    whitespace included, so that the texts of its tokens concatenate to the
    source; [_parens] is the nesting counter. *)
Record stream := Stream { toks : list token; _parens : nat }.

(** Modelled from the spec: [next()] returns the next token and advances,
    and fails when none remain. *)
Definition stream_next : M stream token :=
  λ s, match toks s with
       | t :: rest => (Ok t, Stream rest (_parens s))
       | [] => (Raise ExhaustedStreamError, s)
       end.

(** Modelled from the spec: [peek()] returns the next token without
    advancing. *)
Definition stream_peek (s : stream) : option token := head (toks s).

(** Modelled from the spec: the tokens [whitespace(oneline)] consumes:
    spaces, comments and continuations, and newlines unless [oneline] holds
    at nesting depth zero. *)
Definition insignificant (oneline : bool) (depth : nat) (k : token_kind)
  : bool :=
  match k with
  | WHITESPACE | COMMENT | CONTINUATION => true
  | NEWLINE => negb oneline || negb (Nat.eqb depth 0)
  | _ => false
  end.

Fixpoint take_whitespace (oneline : bool) (depth : nat) (ts : list token)
  : string * list token :=
  match ts with
  | t :: rest =>
      if insignificant oneline depth (kind t) then
        let '(w, rest') := take_whitespace oneline depth rest in
        (text t +:+ w, rest')
      else (EmptyString, ts)
  | [] => (EmptyString, [])
  end.

(** Modelled from the spec: [whitespace(oneline)] consumes the run and
    returns its text. *)
Definition stream_whitespace (oneline : bool) : M stream string :=
  λ s, let '(w, rest) := take_whitespace oneline (_parens s) (toks s) in
       (Ok w, Stream rest (_parens s)).

(** Modelled from the spec: [next_of_type(kind)] advances past tokens
    until one of the kind is found. *)
Fixpoint find_kind (k : token_kind) (ts : list token)
  : option (token * list token) :=
  match ts with
  | t :: rest => if decide (kind t = k) then Some (t, rest) else find_kind k rest
  | [] => None
  end.

Definition stream_next_of_type (k : token_kind) : M stream token :=
  λ s, match find_kind k (toks s) with
       | Some (t, rest) => (Ok t, Stream rest (_parens s))
       | None => (Raise LexicalMismatchError, s)
       end.

(** Modelled from the spec: [str()] returns the spelling of the next
    string literal. *)
Definition stream_str : M stream string :=
  t ← stream_next_of_type STRING; mret (text t).

(** Modelled from the spec: the lookahead the [elif] hook uses: the next
    name token, without advancing. *)
Definition stream_next_name : M stream token :=
  λ s, match find_kind NAME (toks s) with
       | Some (t, _) => (Ok t, s)
       | None => (Raise LexicalMismatchError, s)
       end.

(** Modelled from the spec: [hint_open()] and [hint_closed()] push and pop
    the nesting counter. *)
Definition stream_hint_open : M stream unit :=
  modify (λ s, Stream (toks s) (S (_parens s))).

Definition stream_hint_closed : M stream unit :=
  modify (λ s, Stream (toks s) (pred (_parens s))).

#[global] Instance stream_generator : TokenGenerator stream := {
  next := stream_next;
  peek := stream_peek;
  whitespace := stream_whitespace;
  next_of_type := stream_next_of_type;
  str := stream_str;
  next_name := stream_next_name;
  hint_open := stream_hint_open;
  hint_closed := stream_hint_closed;
  scope_enter := λ _, mret tt;
  scope_exit := λ _, mret tt }.

End token_generator.

(** ** ast_utils.py: formatting stored on nodes *)

Module ast_utils.

(** A value stored on a node: the text of a slot, a marker, or the value
    of a field of the node. *)
Inductive pyvalue :=
| PNone
| PBool (b : bool)
| PInt (z : Z)
| PStr (s : string)
| PNode (l : loc).

#[global] Instance pyvalue_eq_dec : EqDecision pyvalue.
Proof. solve_decision. Defined.

(** Modelled from the spec: the formatting record of a node (section 3),
    kept by [ast_utils], which is not among the sources.  The records of
    all nodes form one table, from a node and a slot name to the value
    stored. *)
Abbreviation formatting := (gmap (loc * string) pyvalue).

(** Modelled from the spec: reading a slot, [None] when it was never
    written; writing a slot; appending text to a slot. *)
Definition prop (node : loc) (name : string) (fmt : formatting) : pyvalue :=
  default PNone (fmt !! (node, name)).

Definition setprop (node : loc) (name : string) (value : pyvalue)
    (fmt : formatting) : formatting :=
  <[(node, name) := value]> fmt.

Definition appendprop (node : loc) (name : string) (value : string)
    (fmt : formatting) : formatting :=
  let old := match fmt !! (node, name) with
             | Some (PStr s) => s
             | _ => EmptyString
             end in
  <[(node, name) := PStr (old +:+ value)]> fmt.

Definition truthy (v : pyvalue) : bool :=
  match v with
  | PNone => false
  | PBool b => b
  | PInt z => negb (Z.eqb z 0)
  | PStr s => negb (bool_decide (s = EmptyString))
  | PNode _ => true
  end.

End ast_utils.

(** ** annotate.py *)

Module Annotate.
Import token_generator ast_utils.

Section AstAnnotator.
Context {T : Type} `{!TokenGenerator T}.

(** The state of an annotation pass: the token generator of the annotator
    and the formatting stored on the nodes of the tree. *)
Record state := State { tokens : T; fmt : formatting }.

(** A call of a method of [self.tokens]. *)
Definition on_tokens {A} (m : M T A) : M state A :=
  λ st, let '(r, ts) := m (tokens st) in (r, State ts (fmt st)).

Definition on_fmt (f : formatting → formatting) : M state unit :=
  modify (λ st, State (tokens st) (f (fmt st))).

(** [x in s] for strings. *)
Definition is_substring (x s : string) : bool :=
  bool_decide (is_Some (String.index 0 x s)).

(** [AstAnnotator.ws] *)
Definition ws (oneline : bool) : M T string := whitespace oneline.

(** [AstAnnotator.token] *)
Definition token (token_val : string) : M state string :=
  token ← on_tokens next;
  if negb (bool_decide (text token = token_val)) then raise ValueError
  else
    (if is_substring (text token) "({[" then on_tokens hint_open
     else if is_substring (text token) ")}]" then on_tokens hint_closed
     else mret tt);;
    mret (text token).

(** An element of [attr_vals]: a string, to be matched as a token, or a
    function that parses some source and returns it. *)
Inductive attr_val :=
| Tok (s : string)
| Fun (f : M T string).

(** [AstAnnotator.attr]; [getattr] gives the fields of [node]. *)
Definition attr (node : loc) (getattr : string → pyvalue) (attr_name : string)
    (attr_vals : list attr_val) (deps : list string) : M state unit :=
  for_each (λ dep, on_fmt (setprop node (dep +:+ "__src") (getattr dep))) deps;;
  for_each (λ attr_val,
    match attr_val with
    | Tok s => v ← token s; on_fmt (appendprop node attr_name v)
    | Fun f => v ← on_tokens f; on_fmt (appendprop node attr_name v)
    end) attr_vals.

Definition no_fields : string → pyvalue := λ _, PNone.

(** [BaseVisitor.prefix], [BaseVisitor.suffix] *)
Definition prefix (node : loc) : M state unit :=
  attr node no_fields "prefix" [Fun (ws false)] [].

Definition suffix (node : loc) (oneline : bool) : M state unit :=
  attr node no_fields "suffix" [Fun (ws oneline)] [].

(** The decorators [spaced] and [parenthesizable] around a method body
    [f]. *)
Definition spaced (node : loc) (f : M state unit) : M state unit :=
  prefix node;; f;; suffix node true.

Definition parenthesizable (node : loc) (f : M state unit) : M state unit :=
  on_tokens (scope_enter node);;
  (prefix node;; f;; suffix node true);;
  on_tokens (scope_exit node).

(** [AstAnnotator.check_is_elif], for a node that is an [If]. *)
Definition check_is_elif : M state bool :=
  next_tok ← on_tokens next_name;
  mret (bool_decide (text next_tok = "elif")).

Definition expr_id (e : ast.expr) : loc :=
  match e with
  | ast.Name i _ _ | ast.Num i _ | ast.Str i _ | ast.Repr i _
  | ast.Attribute i _ _ _ => i
  end.

Definition stmt_id (s : ast.stmt) : loc :=
  match s with
  | ast.Import i _ | ast.ImportFrom i _ _ _ | ast.Expr i _ | ast.Assign i _ _
  | ast.If i _ _ _ | ast.While i _ _ _ | ast.Pass i | ast.Return i _
  | ast.FunctionDef i _ _ _ _ _ | ast.ClassDef i _ _ _ _ => i
  end.

(** [x != xs[-1]], on the identities of the nodes. *)
Definition not_last (x : loc) (xs : list loc) : bool :=
  negb (bool_decide (last xs = Some x)).

(** *** Expressions *)

Definition visit_Num (node : loc) (n : Z) : M state unit :=
  parenthesizable node
    (let contentargs := [Fun (t ← next_of_type NUMBER; mret (text t))] in
     let contentargs := if (n <? 0)%Z then Tok "-" :: contentargs
                        else contentargs in
     attr node (λ a, if decide (a = "n") then PInt n else PNone)
       "content" contentargs ["n"]).

Definition visit_Str (node : loc) (s : string) : M state unit :=
  parenthesizable node
    (attr node (λ a, if decide (a = "s") then PStr s else PNone)
       "content" [Fun str] ["s"]).

Definition visit_Name (node : loc) (id : string) : M state unit :=
  parenthesizable node (token id;; mret tt).

Definition visit_Repr (node : loc) : M state unit :=
  spaced node (raise NotImplementedError).

Fixpoint visit_expr (e : ast.expr) : M state unit :=
  match e with
  | ast.Name i id _ => visit_Name i id
  | ast.Num i n => visit_Num i n
  | ast.Str i s => visit_Str i s
  | ast.Repr i _ => visit_Repr i
  | ast.Attribute i value attr_ _ =>
      parenthesizable i
        (visit_expr value;;
         attr i no_fields "dot" [Fun (ws false); Tok "."; Fun (ws false)] [];;
         token attr_;; mret tt)
  end.

(** *** Imports *)

Definition visit_alias (node : ast.alias) : M state unit :=
  spaced (ast.alias_id node)
    (token (ast.name node);;
     match ast.asname node with
     | Some asname =>
         attr (ast.alias_id node) no_fields "asname"
           [Fun (ws false); Tok "as"; Fun (ws false)] [];;
         token asname;; mret tt
     | None => mret tt
     end).

Definition visit_Import (node : loc) (names : list ast.alias) : M state unit :=
  spaced node
    (token "import";;
     for_each (λ alias,
       visit_alias alias;;
       if not_last (ast.alias_id alias) (ast.alias_id <$> names) then
         suffix (ast.alias_id alias) false;;
         token ",";; mret tt
       else mret tt) names).

(** The list [module_pattern] of [visit_ImportFrom]. *)
Definition module_pattern (module : option string) (level : nat)
  : list attr_val :=
  mjoin (replicate level [Tok "."; Fun (ws false)]) ++
  match module with
  | Some m =>
      if bool_decide (m = EmptyString) then []
      else
        let parts := split "."%char m in
        mjoin ((λ part, [Fun (ws false); Tok part; Tok "."])
                 <$> take (length parts - 1) parts)
        ++ [Fun (ws false); Tok (List.last parts EmptyString)]
  | None => []
  end.

Definition ImportFrom_fields (module : option string) (level : nat)
  : string → pyvalue :=
  λ a, if decide (a = "level") then PInt (Z.of_nat level)
       else if decide (a = "module") then
              match module with Some m => PStr m | None => PNone end
       else PNone.

Definition visit_ImportFrom (node : loc) (module : option string)
    (names : list ast.alias) (level : nat) : M state unit :=
  spaced node
    (token "from";;
     attr node no_fields "module_prefix" [Fun (ws false)] [];;
     attr node (ImportFrom_fields module level) "module"
       (module_pattern module level) ["level"; "module"];;
     attr node no_fields "module_suffix" [Fun (ws false)] [];;
     token "import";;
     for_each (λ alias,
       visit_alias alias;;
       if not_last (ast.alias_id alias) (ast.alias_id <$> names) then
         token ",";; mret tt
       else mret tt) names).

(** *** Function arguments *)

Definition visit_arg (node : ast.arg) : M state unit :=
  spaced (ast.arg_id node)
    (token (ast.arg_name node);;
     suffix (ast.arg_id node) false;;
     match ast.annotation node with
     | Some annotation => token ":";; visit_expr annotation
     | None => mret tt
     end).

(** The two loops of [visit_arguments] over the arguments, which count the
    arguments seen in [arg_i]. *)
Fixpoint visit_positional (total_args : nat) (positional : list ast.arg)
    (arg_i : nat) : M state nat :=
  match positional with
  | [] => mret arg_i
  | arg :: rest =>
      visit_arg arg;;
      suffix (ast.arg_id arg) false;;
      let arg_i := arg_i + 1 in
      (if (arg_i <? total_args)%nat then token ",";; mret tt else mret tt);;
      visit_positional total_args rest arg_i
  end.

Fixpoint visit_keyword (total_args : nat)
    (keyword : list (ast.arg * ast.expr)) (arg_i : nat) : M state nat :=
  match keyword with
  | [] => mret arg_i
  | (arg, default) :: rest =>
      visit_arg arg;;
      suffix (ast.arg_id arg) false;;
      token "=";;
      visit_expr default;;
      suffix (expr_id default) false;;
      let arg_i := arg_i + 1 in
      (if (arg_i <? total_args)%nat then token ",";; mret tt else mret tt);;
      visit_keyword total_args rest arg_i
  end.

Definition visit_arguments (node : ast.arguments) : M state unit :=
  let i := ast.arguments_id node in
  let args := ast.args node in
  let defaults := ast.defaults node in
  spaced i
    (let total_args := length args
                       + (match ast.vararg node with Some _ => 1 | None => 0 end)
                       + (match ast.kwarg node with Some _ => 1 | None => 0 end) in
     let positional := match defaults with
                       | [] => args
                       | _ => take (length args - length defaults) args
                       end in
     let keyword := match defaults with
                    | [] => args
                    | _ => drop (length args - length defaults) args
                    end in
     arg_i ← visit_positional total_args positional 0;
     arg_i ← visit_keyword total_args (zip keyword defaults) arg_i;
     arg_i ← match ast.vararg node with
             | Some vararg =>
                 attr i no_fields "vararg_prefix"
                   [Fun (ws false); Tok "*"; Fun (ws false)] [];;
                 visit_arg vararg;;
                 let arg_i := arg_i + 1 in
                 (if (arg_i <? total_args)%nat then token ",";; mret tt
                  else mret tt);;
                 mret arg_i
             | None => mret arg_i
             end;
     match ast.kwarg node with
     | Some kwarg =>
         attr i no_fields "kwarg_prefix"
           [Fun (ws false); Tok "**"; Fun (ws false)] [];;
         visit_arg kwarg
     | None => mret tt
     end).

(** *** Statements *)

Section visit_stmt.
Variable visit_stmt : ast.stmt → M state unit.

(** The [if node.orelse:] block of [visit_If]. *)
Definition visit_If_orelse (node : loc) (orelse : list ast.stmt)
  : M state unit :=
  match orelse with
  | [] => mret tt
  | _ =>
      is_elif ← match orelse return M state bool with
                | [ast.If _ _ _ _] => check_is_elif
                | _ => mret false
                end;
      if (is_elif : bool) then
        match orelse with
        | orelse_0 :: _ =>
            on_fmt (setprop (stmt_id orelse_0) "is_elif" (PBool true));;
            visit_stmt orelse_0
        | [] => mret tt
        end
      else
        attr node no_fields "elseprefix" [Fun (ws false)] [];;
        token "else";;
        attr node no_fields "elsesuffix"
          [Fun (ws false); Tok ":"; Fun (ws false)] [];;
        for_each visit_stmt orelse
  end.

Definition visit_If (node : loc) (test : ast.expr)
    (body orelse : list ast.stmt) : M state unit :=
  spaced node
    (st ← get;
     token (if truthy (prop node "is_elif" (fmt st)) then "elif" else "if");;
     visit_expr test;;
     attr node no_fields "testsuffix"
       [Fun (ws false); Tok ":"; Fun (ws false)] [];;
     for_each visit_stmt body;;
     visit_If_orelse node orelse).

Definition visit_While (node : loc) (test : ast.expr)
    (body orelse : list ast.stmt) : M state unit :=
  spaced node
    (token "while";;
     visit_expr test;;
     attr node no_fields "testsuffix"
       [Fun (ws false); Tok ":"; Fun (ws false)] [];;
     for_each visit_stmt body;;
     match orelse with
     | [] => mret tt
     | _ =>
         attr node no_fields "elseprefix" [Fun (ws false)] [];;
         token "else";;
         attr node no_fields "elsesuffix"
           [Fun (ws false); Tok ":"; Fun (ws false)] [];;
         for_each visit_stmt orelse
     end).

Definition visit_decorators (decorator_list : list ast.expr) : M state unit :=
  for_each (λ decorator,
    token "@";;
    visit_expr decorator;;
    suffix (expr_id decorator) false) decorator_list.

Definition visit_FunctionDef (node : loc) (name : string)
    (args : ast.arguments) (body : list ast.stmt)
    (decorator_list : list ast.expr) (returns : option ast.expr)
  : M state unit :=
  spaced node
    (visit_decorators decorator_list;;
     token "def";;
     attr node no_fields "name_prefix" [Fun (ws false)] [];;
     token name;;
     attr node no_fields "name_suffix" [Fun (ws false)] [];;
     token "(";;
     visit_arguments args;;
     token ")";;
     match returns with
     | Some r =>
         attr node (λ a, if decide (a = "returns") then PNode (expr_id r)
                         else PNone)
           "returns_prefix" [Fun (ws false); Tok "->"; Fun (ws false)]
           ["returns"];;
         visit_expr r
     | None => mret tt
     end;;
     token ":";;
     for_each visit_stmt body).

Definition visit_ClassDef (node : loc) (name : string)
    (bases : list ast.expr) (body : list ast.stmt)
    (decorator_list : list ast.expr) : M state unit :=
  spaced node
    (visit_decorators decorator_list;;
     token "class";;
     attr node no_fields "name_prefix" [Fun (ws false)] [];;
     token name;;
     attr node no_fields "name_suffix" [Fun (ws false)] [];;
     token "(";;
     for_each (λ base,
       visit_expr base;;
       suffix (expr_id base) false;;
       if not_last (expr_id base) (expr_id <$> bases) then token ",";; mret tt
       else mret tt) bases;;
     token ")";;
     token ":";;
     for_each visit_stmt body).
End visit_stmt.

(** [BaseVisitor.visit]: [setup_props], which changes nothing in this
    representation of the formatting, then the [visit_<class>] method. *)
Fixpoint visit_stmt (s : ast.stmt) : M state unit :=
  match s with
  | ast.Import i names => visit_Import i names
  | ast.ImportFrom i module names level => visit_ImportFrom i module names level
  | ast.Expr i value => parenthesizable i (visit_expr value)
  | ast.Assign i targets value =>
      parenthesizable i
        (for_each (λ target,
           visit_expr target;;
           suffix (expr_id target) false;;
           token "=";; mret tt) targets;;
         visit_expr value)
  | ast.If i test body orelse => visit_If visit_stmt i test body orelse
  | ast.While i test body orelse => visit_While visit_stmt i test body orelse
  | ast.Pass i => spaced i (token "pass";; mret tt)
  | ast.Return i value =>
      spaced i
        (token "return";;
         match value with
         | Some value => visit_expr value
         | None => mret tt
         end)
  | ast.FunctionDef i name args body decorator_list returns =>
      visit_FunctionDef visit_stmt i name args body decorator_list returns
  | ast.ClassDef i name bases body decorator_list =>
      visit_ClassDef visit_stmt i name bases body decorator_list
  end.

Definition visit_Module (node : ast.Module) : M state unit :=
  spaced (ast.module_id node)
    (for_each visit_stmt (ast.body node);;
     attr (ast.module_id node) no_fields "suffix" [Fun (ws false)] []).

End AstAnnotator.

(** [AstAnnotator(source).visit(tree)], from the tokens of [source]. *)
Definition annotate `{!TokenGenerator T} (source : T) (tree : ast.Module)
  : result unit * state :=
  visit_Module tree (State source ∅).


(** A [Repr] node in a tree, at a place the annotator visits. *)
Fixpoint expr_has_Repr (e : ast.expr) : bool :=
  match e with
  | ast.Repr _ _ => true
  | ast.Attribute _ value _ _ => expr_has_Repr value
  | _ => false
  end.

Definition opt_has_Repr {A} (has_Repr : A → bool) (o : option A) : bool :=
  match o with Some a => has_Repr a | None => false end.

Definition arg_has_Repr (a : ast.arg) : bool :=
  opt_has_Repr expr_has_Repr (ast.annotation a).

Definition arguments_has_Repr (a : ast.arguments) : bool :=
  existsb arg_has_Repr (ast.args a)
  || existsb expr_has_Repr (take (length (ast.args a)) (ast.defaults a))
  || opt_has_Repr arg_has_Repr (ast.vararg a)
  || opt_has_Repr arg_has_Repr (ast.kwarg a).

Fixpoint stmt_has_Repr (s : ast.stmt) : bool :=
  match s with
  | ast.Import _ _ | ast.ImportFrom _ _ _ _ | ast.Pass _ => false
  | ast.Expr _ value => expr_has_Repr value
  | ast.Assign _ targets value =>
      existsb expr_has_Repr targets || expr_has_Repr value
  | ast.If _ test body orelse | ast.While _ test body orelse =>
      expr_has_Repr test || existsb stmt_has_Repr body
      || existsb stmt_has_Repr orelse
  | ast.Return _ value => opt_has_Repr expr_has_Repr value
  | ast.FunctionDef _ _ args body decorator_list returns =>
      existsb expr_has_Repr decorator_list || arguments_has_Repr args
      || opt_has_Repr expr_has_Repr returns || existsb stmt_has_Repr body
  | ast.ClassDef _ _ bases body decorator_list =>
      existsb expr_has_Repr decorator_list || existsb expr_has_Repr bases
      || existsb stmt_has_Repr body
  end.

Definition Module_has_Repr (tree : ast.Module) : bool :=
  existsb stmt_has_Repr (ast.body tree).


(** The text a slot holds. *)
Definition slot_text (f : formatting) (node : loc) (name : string) : string :=
  match f !! (node, name) with
  | Some (PStr s) => s
  | _ => EmptyString
  end.

(** The string elements of a list of [attr_vals], concatenated. *)
Fixpoint literals {T} (attr_vals : list (@attr_val T)) : string :=
  match attr_vals with
  | [] => EmptyString
  | Tok s :: rest => s +:+ literals rest
  | Fun _ :: rest => literals rest
  end.

(** ['.' * level] *)
Fixpoint dots (level : nat) : string :=
  match level with
  | 0 => EmptyString
  | S n => "." +:+ dots n
  end.


(** Sources to annotate from, as token streams, and trees to annotate. *)
Definition from_source : stream :=
  Stream [Token NAME "from"; Token WHITESPACE " "; Token NAME "x"] 0.

Definition number_source : stream := Stream [Token NUMBER "7"] 0.

Definition elif_source : stream := Stream [Token NAME "elif"] 0.

Definition nested_If : ast.stmt :=
  ast.If 2 (ast.Name 3 "c" (ast.Ctx 4 ast.Load)) [ast.Pass 5] [].

Definition Repr_tree : ast.Module :=
  ast.Mod 0 [ast.Expr 1 (ast.Repr 2 (ast.Name 3 "x" (ast.Ctx 4 ast.Load)))].

Definition Num_fields (n : Z) : string → pyvalue :=
  λ a, if decide (a = "n") then PInt n else PNone.

Section proofs.
Context {T : Type} `{!TokenGenerator T}.
Implicit Types st : @state T.

(** The loop of [attr] over [attr_vals], and the snapshot its loop over
    [deps] leaves. *)
Definition run_attr_vals (node : loc) (attr_name : string)
    (attr_vals : list attr_val) : M state unit :=
  for_each (λ attr_val,
    match attr_val with
    | Tok s => v ← token s; on_fmt (appendprop node attr_name v)
    | Fun f => v ← on_tokens f; on_fmt (appendprop node attr_name v)
    end) attr_vals.

Definition snapshot (node : loc) (getattr : string → pyvalue)
    (deps : list string) (f : formatting) : formatting :=
  foldl (λ f dep, setprop node (dep +:+ "__src") (getattr dep) f) f deps.

Lemma attr_unfold node getattr attr_name attr_vals deps st :
  attr node getattr attr_name attr_vals deps st =
  run_attr_vals node attr_name attr_vals
    (State (tokens st) (snapshot node getattr deps (fmt st))).
Proof.
  unfold attr. fold (run_attr_vals node attr_name attr_vals).
  generalize (run_attr_vals node attr_name attr_vals). intros k.
  destruct st as [ts f]. simpl. revert f.
  induction deps as [|dep deps IH]; intros f; simpl.
  - done.
  - unfold mbind, M_bind, bind in *. simpl. apply IH.
Qed.

Lemma token_mismatch token_val st tok ts :
  next (tokens st) = (Ok tok, ts) → text tok ≠ token_val →
  token token_val st = (Raise ValueError, State ts (fmt st)).
Proof.
  intros Hnext Hne. unfold token.
  erewrite bind_Ok by (unfold on_tokens; rewrite Hnext; reflexivity).
  by rewrite bool_decide_eq_false_2.
Qed.

Lemma token_exhausted token_val st e ts :
  next (tokens st) = (Raise e, ts) →
  token token_val st = (Raise e, State ts (fmt st)).
Proof.
  intros Hnext. unfold token.
  erewrite bind_Raise by (unfold on_tokens; rewrite Hnext; reflexivity). done.
Qed.

Lemma for_each_app {S A} (body : A → M S unit) xs ys s :
  for_each body (xs ++ ys) s = (for_each body xs;; for_each body ys) s.
Proof.
  revert s. induction xs as [|x xs IH]; intros s; simpl.
  - done.
  - unfold mbind, M_bind, bind. destruct (body x s) as [[[]|e] s']; [|done].
    apply IH.
Qed.

Lemma run_attr_vals_mismatch node attr_name pre v rest st st1 tok ts :
  run_attr_vals node attr_name pre st = (Ok tt, st1) →
  next (tokens st1) = (Ok tok, ts) → text tok ≠ v →
  run_attr_vals node attr_name (pre ++ Tok v :: rest) st
  = (Raise ValueError, State ts (fmt st1)).
Proof.
  intros Hpre Hnext Hne. unfold run_attr_vals in *. rewrite for_each_app.
  erewrite bind_Ok by exact Hpre. simpl.
  erewrite bind_Raise; [done|].
  erewrite bind_Raise; [done|]. by eapply token_mismatch.
Qed.

(** What [token] and the loop of [attr] do to the formatting: [token]
    nothing, the loop nothing outside the slot it fills. *)
Lemma token_fmt token_val st r st' :
  token token_val st = (r, st') → fmt st' = fmt st.
Proof.
  unfold token, mbind, M_bind, bind, on_tokens.
  destruct (next (tokens st)) as [[tok|e] ts]; simpl; [|by intros [= _ <-]].
  destruct (negb _); simpl; [by intros [= _ <-]|].
  destruct (is_substring (text tok) "({["); simpl.
  - destruct (hint_open ts) as [[[]|e] ts']; simpl; by intros [= _ <-].
  - destruct (is_substring (text tok) ")}]"); simpl.
    + destruct (hint_closed ts) as [[[]|e] ts']; simpl; by intros [= _ <-].
    + by intros [= _ <-].
Qed.

Lemma run_attr_vals_fmt node attr_name attr_vals st r st' key :
  run_attr_vals node attr_name attr_vals st = (r, st') →
  key ≠ (node, attr_name) → fmt st' !! key = fmt st !! key.
Proof.
  intros Hrun Hkey. revert st Hrun.
  induction attr_vals as [|v vs IH]; intros st; simpl.
  - by intros [= _ <-].
  - unfold mbind, M_bind, bind. destruct v as [s|f].
    + destruct (token s st) as [[w|e] st1] eqn:Htok.
      * simpl. intros Hrun. rewrite (IH _ Hrun). simpl.
        unfold appendprop. rewrite lookup_insert_ne by done.
        by rewrite (token_fmt _ _ _ _ Htok).
      * intros [= _ <-]. by rewrite (token_fmt _ _ _ _ Htok).
    + unfold on_tokens. destruct (f (tokens st)) as [[w|e] ts]; simpl.
      * intros Hrun. rewrite (IH _ Hrun). simpl.
        unfold appendprop. by rewrite lookup_insert_ne.
      * by intros [= _ <-].
Qed.

Lemma append_cancel_r (s1 s2 t : string) : s1 +:+ t = s2 +:+ t → s1 = s2.
Proof.
  assert (∀ s u : string, String.length (s +:+ u)
                          = String.length s + String.length u) as Hlen.
  { induction s; simpl; auto. }
  revert s2. induction s1 as [|c s1 IH]; intros [|d s2]; simpl; intros Heq.
  - done.
  - apply (f_equal String.length) in Heq. rewrite !Hlen in Heq. simpl in Heq. lia.
  - apply (f_equal String.length) in Heq. rewrite !Hlen in Heq. simpl in Heq. lia.
  - injection Heq as -> Heq. f_equal. by apply IH.
Qed.

Lemma snapshot_prop node getattr deps f dep :
  dep ∈ deps →
  prop node (dep +:+ "__src") (snapshot node getattr deps f) = getattr dep.
Proof.
  unfold snapshot. revert f. induction deps as [|d deps IH] using rev_ind;
    intros f Hin; [by apply elem_of_nil in Hin|].
  rewrite foldl_app. simpl. unfold prop, setprop.
  destruct (decide (d = dep)) as [->|Hne].
  - by rewrite lookup_insert_eq.
  - rewrite lookup_insert_ne.
    + apply IH. apply elem_of_app in Hin as [Hin|Hin]; [done|].
      apply list_elem_of_singleton in Hin. congruence.
    + intros [= Heq]. by apply append_cancel_r in Heq.
Qed.


Lemma never_returns_spaced node (f : M (@state T) unit) :
  never_returns f → never_returns (spaced node f).
Proof.
  intros Hf. unfold spaced. apply never_returns_bind_r. intros _.
  by apply never_returns_bind_l.
Qed.

Lemma never_returns_parenthesizable node (f : M (@state T) unit) :
  never_returns f → never_returns (parenthesizable node f).
Proof.
  intros Hf. unfold parenthesizable. apply never_returns_bind_r. intros _.
  apply never_returns_bind_l. apply never_returns_bind_r. intros _.
  by apply never_returns_bind_l.
Qed.

Ltac skip := apply never_returns_bind_r; intros ?.
Ltac here := apply never_returns_bind_l.

Lemma visit_expr_never_returns e :
  expr_has_Repr e = true → never_returns (visit_expr (T:=T) e).
Proof.
  induction e; simpl; try done; intros Hr.
  - apply never_returns_spaced, never_returns_raise.
  - apply never_returns_parenthesizable. here. auto.
Qed.

Lemma existsb_elem {A} (f : A → bool) l :
  existsb f l = true → ∃ x, x ∈ l ∧ f x = true.
Proof.
  intros (x & Hin & Hx)%existsb_exists. exists x.
  split; [by apply list_elem_of_In|done].
Qed.

Lemma for_each_exprs_never_returns (body : ast.expr → M (@state T) unit) es :
  (∀ e, expr_has_Repr e = true → never_returns (body e)) →
  existsb expr_has_Repr es = true → never_returns (for_each body es).
Proof.
  intros Hbody (e & Hin & He)%existsb_elem.
  eapply never_returns_for_each; [exact Hin|]. by apply Hbody.
Qed.

Lemma visit_arg_never_returns a :
  arg_has_Repr a = true → never_returns (visit_arg (T:=T) a).
Proof.
  unfold arg_has_Repr, visit_arg. intros Hr.
  apply never_returns_spaced. skip. skip.
  destruct (ast.annotation a) as [e|]; [|done]. simpl in Hr.
  skip. by apply visit_expr_never_returns.
Qed.

Lemma visit_positional_never_returns total positional arg_i :
  existsb arg_has_Repr positional = true →
  never_returns (visit_positional (T:=T) total positional arg_i).
Proof.
  revert arg_i. induction positional as [|a rest IH]; intros arg_i; simpl;
    [done|].
  intros [Ha|Hrest]%orb_prop.
  - here. by apply visit_arg_never_returns.
  - do 3 skip. by apply IH.
Qed.

Lemma visit_keyword_never_returns total keyword arg_i :
  existsb (λ p, arg_has_Repr p.1 || expr_has_Repr p.2) keyword = true →
  never_returns (visit_keyword (T:=T) total keyword arg_i).
Proof.
  revert arg_i. induction keyword as [|[a d] rest IH]; intros arg_i; simpl;
    [done|].
  intros [[Ha|Hd]%orb_prop|Hrest]%orb_prop.
  - here. by apply visit_arg_never_returns.
  - do 3 skip. here. by apply visit_expr_never_returns.
  - do 6 skip. by apply IH.
Qed.

Lemma zip_elem_l {A B} (x : A) (l : list A) (k : list B) :
  x ∈ l → (length l ≤ length k)%nat → ∃ y, (x, y) ∈ zip l k.
Proof.
  intros Hin. revert k. induction Hin as [x l|x z l _ IH]; intros [|y k] Hlen;
    simpl in *; try lia.
  - exists y. apply list_elem_of_here.
  - destruct (IH k ltac:(lia)) as [y' Hy']. exists y'.
    by apply list_elem_of_further.
Qed.

Lemma zip_elem_r {A B} (y : B) (l : list A) (k : list B) :
  y ∈ take (length l) k → ∃ x, (x, y) ∈ zip l k.
Proof.
  revert k. induction l as [|x l IH]; intros [|z k]; simpl;
    try (by intros ?%elem_of_nil).
  intros [->|Hin]%elem_of_cons.
  - exists x. apply list_elem_of_here.
  - destruct (IH k Hin) as [x' Hx']. exists x'. by apply list_elem_of_further.
Qed.

Lemma existsb_intro {A} (f : A → bool) l x :
  x ∈ l → f x = true → existsb f l = true.
Proof.
  intros Hin Hx. apply existsb_exists. exists x.
  split; [by apply list_elem_of_In|done].
Qed.

Lemma arguments_covered (args : list ast.arg) (defaults : list ast.expr) :
  existsb arg_has_Repr args
  || existsb expr_has_Repr (take (length args) defaults) = true →
  existsb arg_has_Repr
    match defaults with
    | [] => args
    | _ => take (length args - length defaults) args
    end = true
  ∨ existsb (λ p, arg_has_Repr p.1 || expr_has_Repr p.2)
      (zip match defaults with
           | [] => args
           | _ => drop (length args - length defaults) args
           end defaults) = true.
Proof.
  destruct defaults as [|d0 defaults'].
  { rewrite take_nil. simpl. rewrite orb_false_r. auto. }
  remember (d0 :: defaults') as defaults eqn:Hdef.
  replace (match defaults with
           | [] => args
           | _ => take (length args - length defaults) args
           end) with (take (length args - length defaults) args) by by subst.
  replace (match defaults with
           | [] => args
           | _ => drop (length args - length defaults) args
           end) with (drop (length args - length defaults) args) by by subst.
  clear Hdef d0 defaults'.
  set (keyword := drop (length args - length defaults) args).
  assert (length keyword ≤ length defaults)%nat as Hlen.
  { subst keyword. rewrite length_drop. lia. }
  intros [(x & Hin & Hx)%existsb_elem|(d & Hin & Hd)%existsb_elem]%orb_prop.
  - rewrite <- (take_drop (length args - length defaults) args) in Hin.
    apply elem_of_app in Hin as [Hin|Hin].
    + left. by apply (existsb_intro _ _ x).
    + right. destruct (zip_elem_l x keyword defaults Hin Hlen) as [y Hy].
      apply (existsb_intro _ _ (x, y)); [done|]. simpl. by rewrite Hx.
  - right.
    assert (d ∈ take (length keyword) defaults) as Hin'.
    { subst keyword. rewrite length_drop.
      destruct (decide (length defaults ≤ length args)%nat).
      - rewrite take_ge by lia. by rewrite take_ge in Hin by lia.
      - by replace (length args - (length args - length defaults))
          with (length args) by lia. }
    destruct (zip_elem_r d keyword defaults Hin') as [x Hx].
    apply (existsb_intro _ _ (x, d)); [done|]. simpl. rewrite Hd.
    by rewrite orb_true_r.
Qed.

Lemma visit_arguments_never_returns a :
  arguments_has_Repr a = true → never_returns (visit_arguments (T:=T) a).
Proof.
  unfold arguments_has_Repr, visit_arguments.
  destruct a as [i args vararg kwarg defaults]. simpl.
  intros Hr. apply never_returns_spaced.
  apply orb_prop in Hr as [Hr|Hkwarg].
  apply orb_prop in Hr as [Hr|Hvararg].
  apply arguments_covered in Hr as [Hpos|Hkey].
  - here. by apply visit_positional_never_returns.
  - skip. here. by apply visit_keyword_never_returns.
  - skip. skip. here. destruct vararg as [v|]; [|done]. simpl in Hvararg.
    skip. here. by apply visit_arg_never_returns.
  - skip. skip. skip. destruct kwarg as [v|]; [|done]. simpl in Hkwarg.
    skip. by apply visit_arg_never_returns.
Qed.

Lemma for_each_stmts_never_returns (visit_s : ast.stmt → M (@state T) unit)
    ss :
  Forall (λ s, stmt_has_Repr s = true → never_returns (visit_s s)) ss →
  existsb stmt_has_Repr ss = true → never_returns (for_each visit_s ss).
Proof.
  intros Hall (s & Hin & Hs)%existsb_elem.
  eapply never_returns_for_each; [exact Hin|].
  rewrite Forall_forall in Hall. by apply Hall.
Qed.

Lemma visit_decorators_never_returns ds :
  existsb expr_has_Repr ds = true →
  never_returns (visit_decorators (T:=T) ds).
Proof.
  apply for_each_exprs_never_returns. intros e He. skip. here.
  by apply visit_expr_never_returns.
Qed.

Lemma visit_stmt_never_returns s :
  stmt_has_Repr s = true → never_returns (visit_stmt (T:=T) s).
Proof.
  induction s;
    repeat match goal with
           | H : list_all _ _ _ |- _ => apply Scope.list_all_Forall in H
           end;
    simpl; try done; intros Hr.
  - (* Expr *)
    apply never_returns_parenthesizable. by apply visit_expr_never_returns.
  - (* Assign *)
    apply never_returns_parenthesizable.
    apply orb_prop in Hr as [Hr|Hr].
    + here. revert Hr. apply for_each_exprs_never_returns.
      intros e He. here. by apply visit_expr_never_returns.
    + skip. by apply visit_expr_never_returns.
  - (* If *)
    apply never_returns_spaced. skip. skip.
    apply orb_prop in Hr as [Hr|Horelse].
    apply orb_prop in Hr as [Htest|Hbody].
    + here. by apply visit_expr_never_returns.
    + skip. skip. here. by apply for_each_stmts_never_returns.
    + skip. skip. skip. unfold visit_If_orelse.
      assert (never_returns
                (attr id no_fields "elseprefix" [Fun (ws false)] [];;
                 token "else";;
                 attr id no_fields "elsesuffix"
                   [Fun (ws false); Tok ":"; Fun (ws false)] [];;
                 for_each (visit_stmt (T:=T)) orelse)) as Hblock.
      { do 3 skip. by apply for_each_stmts_never_returns. }
      destruct orelse as [|s0 [|s1 orelse']]; [done| |].
      * destruct s0; try (apply never_returns_ret_bind; exact Hblock).
        apply never_returns_bind_r. intros [|]; [|exact Hblock]. skip.
        simpl in Horelse. rewrite orb_false_r in Horelse.
        match goal with
        | H : Forall _ [_] |- _ => apply Forall_cons in H as [Hs0 _]
        end.
        by apply Hs0.
      * destruct s0; apply never_returns_ret_bind; exact Hblock.
  - (* While *)
    apply never_returns_spaced. skip.
    apply orb_prop in Hr as [Hr|Horelse].
    apply orb_prop in Hr as [Htest|Hbody].
    + here. by apply visit_expr_never_returns.
    + skip. skip. here. by apply for_each_stmts_never_returns.
    + skip. skip. skip.
      destruct orelse as [|s0 orelse']; [done|].
      do 3 skip. by apply for_each_stmts_never_returns.
  - (* Return *)
    apply never_returns_spaced. skip.
    match goal with
    | H : opt_has_Repr _ ?o = true |- _ => destruct o; [|done]
    end.
    by apply visit_expr_never_returns.
  - (* FunctionDef *)
    apply never_returns_spaced.
    apply orb_prop in Hr as [Hr|Hbody].
    apply orb_prop in Hr as [Hr|Hreturns].
    apply orb_prop in Hr as [Hdec|Hargs].
    + here. by apply visit_decorators_never_returns.
    + do 6 skip. here. by apply visit_arguments_never_returns.
    + do 8 skip. here.
      match goal with
      | H : opt_has_Repr _ ?o = true |- _ => destruct o as [r|]; [|done]
      end.
      skip. by apply visit_expr_never_returns.
    + do 10 skip. by apply for_each_stmts_never_returns.
  - (* ClassDef *)
    apply never_returns_spaced.
    apply orb_prop in Hr as [Hr|Hbody].
    apply orb_prop in Hr as [Hdec|Hbases].
    + here. by apply visit_decorators_never_returns.
    + do 6 skip. here. revert Hbases. apply for_each_exprs_never_returns.
      intros e He. here. by apply visit_expr_never_returns.
    + do 9 skip. by apply for_each_stmts_never_returns.
Qed.

(** X25: for a tree with a [Repr] node (the backquote expression of
    Python 2) at a place the annotator visits, no token stream makes the
    annotation return: [visit_Repr] raises [NotImplementedError], or an
    earlier step has raised. *)
Theorem annotate_Repr_never_returns (tree : ast.Module) (source : T) :
  Module_has_Repr tree = true →
  ∃ e st, annotate source tree = (Raise e, st).
Proof.
  intros Hr. unfold annotate.
  assert (never_returns (visit_Module (T:=T) tree)) as Hnr; [|apply Hnr].
  unfold visit_Module. apply never_returns_spaced. here.
  apply for_each_stmts_never_returns; [|done].
  apply Forall_forall. intros s _. apply visit_stmt_never_returns.
Qed.

(** X20: [attr] stops at the first string of [attr_vals] that the next
    token does not spell: when the values before it were parsed, and the
    next token has another text, [attr] raises [ValueError]; the token is
    consumed, and the formatting is what the values before it left. *)
Theorem attr_mismatch node getattr attr_name pre v rest deps st st1 tok ts :
  attr node getattr attr_name pre deps st = (Ok tt, st1) →
  next (tokens st1) = (Ok tok, ts) → text tok ≠ v →
  attr node getattr attr_name (pre ++ Tok v :: rest) deps st
  = (Raise ValueError, State ts (fmt st1)).
Proof.
  intros Hpre Hnext Hne. rewrite attr_unfold in *.
  by eapply run_attr_vals_mismatch.
Qed.

(** X21: [attr] records the current value of each dependency under
    [<dep>__src] before it parses anything, so the record is there whether
    [attr] returns or raises (the slot filled must not itself be one of
    these keys). *)
Theorem attr_stores_snapshot node getattr attr_name attr_vals deps st r st' :
  attr node getattr attr_name attr_vals deps st = (r, st') →
  Forall (λ dep, dep +:+ "__src" ≠ attr_name) deps →
  ∀ dep, dep ∈ deps → prop node (dep +:+ "__src") (fmt st') = getattr dep.
Proof.
  intros Hattr Hdeps dep Hin. rewrite attr_unfold in Hattr. unfold prop.
  rewrite (run_attr_vals_fmt _ _ _ _ _ _ (node, dep +:+ "__src") Hattr).
  - by apply snapshot_prop.
  - rewrite Forall_forall in Hdeps. intros [= Heq]. by apply (Hdeps dep).
Qed.

Lemma token_Ok token_val st v st' :
  token token_val st = (Ok v, st') → v = token_val.
Proof.
  unfold token, mbind, M_bind, bind, on_tokens.
  destruct (next (tokens st)) as [[tok|e] ts]; simpl; [|done].
  case_bool_decide as Heq; simpl; [|by intros [=]].
  destruct (is_substring (text tok) "({["); simpl.
  - destruct (hint_open ts) as [[[]|e] ts']; simpl; [|done]. by intros [= <- _].
  - destruct (is_substring (text tok) ")}]"); simpl.
    + destruct (hint_closed ts) as [[[]|e] ts']; simpl; [|done].
      by intros [= <- _].
    + by intros [= <- _].
Qed.

Lemma slot_text_appendprop f node name v :
  slot_text (appendprop node name v f) node name = slot_text f node name +:+ v.
Proof.
  unfold slot_text, appendprop. rewrite lookup_insert_eq.
  by destruct (f !! (node, name)) as [[]|].
Qed.

Lemma run_attr_vals_text node attr_name attr_vals st st' :
  run_attr_vals node attr_name attr_vals st = (Ok tt, st') →
  ∃ texts,
    Forall2 (λ attr_val text,
               match attr_val with Tok s => text = s | Fun _ => True end)
      attr_vals texts
    ∧ slot_text (fmt st') node attr_name
      = slot_text (fmt st) node attr_name +:+ String.concat "" texts.
Proof.
  revert st. induction attr_vals as [|v vs IH]; intros st; simpl.
  - intros [= <-]. exists []. split; [constructor|]. simpl.
    by rewrite append_empty_r.
  - unfold mbind, M_bind, bind. destruct v as [s|f].
    + destruct (token s st) as [[w|e] st1] eqn:Htok; [|done]. simpl.
      intros Hrun. destruct (IH _ Hrun) as (texts & Hall & Htext).
      exists (w :: texts). split.
      * constructor; [|done]. by eapply token_Ok.
      * rewrite Htext. simpl. rewrite slot_text_appendprop.
        rewrite (token_fmt _ _ _ _ Htok), append_assoc. f_equal.
        destruct texts; simpl; [by rewrite append_empty_r|done].
    + unfold on_tokens. destruct (f (tokens st)) as [[w|e] ts]; simpl; [|done].
      intros Hrun. destruct (IH _ Hrun) as (texts & Hall & Htext).
      exists (w :: texts). split.
      * by constructor.
      * rewrite Htext. simpl. rewrite slot_text_appendprop, append_assoc.
        f_equal. destruct texts; simpl; [by rewrite append_empty_r|done].
Qed.

(** X22: when [attr] returns, and the slot [attr_name] is not one of the
    keys [<dep>__src] of its dependencies, the slot holds what it held
    before followed by one text per element of [attr_vals], in order; the
    text for a string element is that string. *)
Theorem attr_appends_text node getattr attr_name attr_vals deps st st' :
  attr node getattr attr_name attr_vals deps st = (Ok tt, st') →
  Forall (λ dep, dep +:+ "__src" ≠ attr_name) deps →
  ∃ texts,
    Forall2 (λ attr_val text,
               match attr_val with Tok s => text = s | Fun _ => True end)
      attr_vals texts
    ∧ slot_text (fmt st') node attr_name
      = slot_text (fmt st) node attr_name +:+ String.concat "" texts.
Proof.
  intros Hattr Hdeps. rewrite attr_unfold in Hattr.
  destruct (run_attr_vals_text _ _ _ _ _ Hattr) as (texts & Hall & Htext).
  exists texts. split; [done|]. rewrite Htext. f_equal. simpl.
  unfold slot_text, snapshot. clear -Hdeps.
  generalize (fmt st). induction Hdeps as [|dep deps Hdep _ IH]; intros f;
    simpl; [done|].
  rewrite IH. unfold setprop. rewrite lookup_insert_ne; [done|].
  intros [= Heq]. done.
Qed.

Lemma literals_app (xs ys : list (@attr_val T)) :
  literals (xs ++ ys) = literals xs +:+ literals ys.
Proof.
  induction xs as [|[s|f] xs IH]; simpl; [done| |done].
  by rewrite IH, append_assoc.
Qed.

Lemma literals_dots (f : M T string) level :
  literals (mjoin (replicate level [Tok "."; Fun f])) = dots level.
Proof. induction level as [|n IH]; simpl; [done|]. by rewrite IH. Qed.

Lemma literals_parts (f : M T string) (init : list string) (final : string) :
  literals (mjoin ((λ part, [Fun f; Tok part; Tok "."]) <$> init)
            ++ [Fun f; Tok final])
  = join "." (init ++ [final]).
Proof.
  induction init as [|p init IH].
  - simpl. by rewrite append_empty_r.
  - cbn [fmap list_fmap mjoin list_join app literals].
    transitivity (p +:+ "." +:+ join "." (init ++ [final]));
      [do 2 f_equal; exact IH|].
    unfold join. cbn [app String.concat].
    by destruct (init ++ [final]) eqn:Heq; [destruct init|].
Qed.

Lemma take_last_nonempty (parts : list string) :
  parts ≠ [] →
  parts = take (length parts - 1) parts ++ [List.last parts EmptyString].
Proof.
  induction parts as [|p parts IH] using rev_ind; [done|]. intros _.
  rewrite length_app. simpl.
  replace (length parts + 1 - 1) with (length parts) by lia.
  by rewrite take_app_length, last_last.
Qed.

(** X23: the strings of the [module_pattern] that [visit_ImportFrom]
    matches as tokens spell ['.' * level + (module or '')], the text it
    passes as [default]. *)
Theorem module_pattern_literals (module : option string) (level : nat) :
  literals (T:=T) (module_pattern module level)
  = dots level +:+ default EmptyString module.
Proof.
  unfold module_pattern. rewrite literals_app, literals_dots. f_equal.
  destruct module as [m|]; simpl; [|done].
  case_bool_decide as Hm; [by subst|].
  pose proof (take_last_nonempty (split "." m) (split_nonempty _ _)) as Hparts.
  rewrite literals_parts, <- Hparts. apply join_split.
Qed.

(** X24: for an [If] whose [orelse] is one nested [If], [visit_If] decides
    by the next name token: when its text is [elif] the nested node is
    marked [is_elif] and visited, and the mark is still set after the
    prefix of the nested node is parsed, where its [visit_If] reads it; else
    the [else] block is parsed and the nested node visited in it. *)
Theorem visit_If_elif_decision node n2 test2 body2 orelse2 st tok ts :
  next_name (tokens st) = (Ok tok, ts) →
  let nested := ast.If n2 test2 body2 orelse2 in
  if bool_decide (text tok = "elif") then
    let marked := State ts (setprop n2 "is_elif" (PBool true) (fmt st)) in
    visit_If_orelse visit_stmt node [nested] st = visit_stmt nested marked
    ∧ ∀ r st2, prefix n2 marked = (r, st2) →
               truthy (prop n2 "is_elif" (fmt st2)) = true
  else
    visit_If_orelse visit_stmt node [nested] st =
    (attr node no_fields "elseprefix" [Fun (ws false)] [];;
     token "else";;
     attr node no_fields "elsesuffix"
       [Fun (ws false); Tok ":"; Fun (ws false)] [];;
     for_each visit_stmt [nested]) (State ts (fmt st)).
Proof.
  intros Hnext nested. unfold visit_If_orelse, check_is_elif. subst nested.
  cbv beta iota.
  erewrite bind_Ok;
    [|erewrite bind_Ok by (unfold on_tokens; rewrite Hnext; reflexivity);
      reflexivity].
  destruct (bool_decide (text tok = "elif")); [|done].
  split; [done|].
  intros r st2 Hprefix. unfold prefix in Hprefix. rewrite attr_unfold in Hprefix.
  unfold prop.
  rewrite (run_attr_vals_fmt _ _ _ _ _ _ (n2, "is_elif") Hprefix) by done.
  simpl. unfold setprop. by rewrite lookup_insert_eq.
Qed.
End proofs.

(** *** The properties above, on the example sources *)

Lemma annotate_Repr_never_returns_witness :
  ∃ e st, annotate from_source Repr_tree = (Raise e, st).
Proof.
  apply (annotate_Repr_never_returns Repr_tree from_source). reflexivity.
Defined.

Lemma attr_mismatch_witness :
  attr 0 no_fields "kw" ([Fun (ws false)] ++ Tok "import" :: []) []
    (State from_source ∅)
  = (Raise ValueError,
     State (Stream (tail (toks from_source)) 0)
       (fmt (State from_source (appendprop 0 "kw" "" ∅)))).
Proof.
  apply (attr_mismatch 0 no_fields "kw" [Fun (ws false)] "import" [] []
           (State from_source ∅)
           (State from_source (appendprop 0 "kw" "" ∅))
           (Token NAME "from") (Stream (tail (toks from_source)) 0)).
  - vm_compute. reflexivity.
  - vm_compute. reflexivity.
  - simpl. discriminate.
Defined.

Lemma attr_stores_snapshot_witness :
  prop 0 ("n" +:+ "__src")
    (fmt (attr 0 (Num_fields (-7)) "content"
            [Tok "-"; Fun (t ← next_of_type NUMBER; mret (text t))] ["n"]
            (State number_source ∅)).2)
  = Num_fields (-7) "n".
Proof.
  apply (attr_stores_snapshot 0 (Num_fields (-7)) "content"
           [Tok "-"; Fun (t ← next_of_type NUMBER; mret (text t))] ["n"]
           (State number_source ∅) (Raise ValueError)).
  - vm_compute. reflexivity.
  - repeat constructor. discriminate.
  - apply list_elem_of_here.
Defined.

Lemma attr_appends_text_witness :
  ∃ texts,
    Forall2 (λ attr_val text,
               match attr_val with Tok s => text = s | Fun _ => True end)
      [Tok "from"; Fun (ws false)] texts
    ∧ slot_text (fmt (State (Stream [Token NAME "x"] 0)
                        (appendprop 0 "kw" " " (appendprop 0 "kw" "from" ∅))))
        0 "kw"
      = slot_text (fmt (State from_source ∅)) 0 "kw" +:+ String.concat "" texts.
Proof.
  apply (attr_appends_text 0 no_fields "kw" [Tok "from"; Fun (ws false)] []
           (State from_source ∅)).
  - vm_compute. reflexivity.
  - constructor.
Defined.

Lemma visit_If_elif_decision_witness :
  visit_If_orelse visit_stmt 1 [nested_If] (State elif_source ∅)
  = visit_stmt nested_If
      (State elif_source (setprop 2 "is_elif" (PBool true) ∅))
  ∧ ∀ r st2,
      prefix 2 (State elif_source (setprop 2 "is_elif" (PBool true) ∅))
      = (r, st2) →
      truthy (prop 2 "is_elif" (fmt st2)) = true.
Proof.
  apply (visit_If_elif_decision 1 2 (ast.Name 3 "c" (ast.Ctx 4 ast.Load))
           [ast.Pass 5] [] (State elif_source ∅) (Token NAME "elif")
           elif_source).
  reflexivity.
Defined.


End Annotate.
